(** * Buildr operation pipeline: step handlers, step expander, run loop

    A shallow embedding of the TypeScript sources of the pipeline
    (lib/stepHandlers, pages/api/buildr/expand-operations,
    pages/api/buildr/run-step, pages/api/buildr/run/[appId],
    pages/api/apply-operations with lib/operationValidator, lib/appConfig
    and the earlier server/api run-step handler) together with the
    properties that the specification states about them and further
    properties read off the code.

    Conventions of the embedding:
    - step payloads are untyped JavaScript values, modelled by [JSON];
    - a database table is the list of its rows in storage order; one
      query-builder statement is one function on tables;
    - the store is reliable: a statement fails only where the database
      itself would reject it (unique key, [.single()] on zero or many rows);
    - handlers run in a small state-and-exit monad over the spec table. *)

From Stdlib Require Import ZArith String Ascii List Bool Lia.
From stdpp Require Import base option list strings pretty.

Open Scope string_scope.
Set Warnings "-register-all".

(** ** JavaScript values

    Numbers are the integers that JavaScript holds exactly and prints in
    plain decimal form; strings are byte strings. *)

Inductive JSON : Type :=
| JUndefined
| JNull
| JBool (b : bool)
| JNum (n : Z)
| JStr (s : string)
| JArr (xs : list JSON)
| JObj (fields : list (string * JSON)).

(** The double quote character, for messages that quote a name. *)
Definition dq : string := String (ascii_of_nat 34) EmptyString.

(** JavaScript truthiness. *)
Definition truthy (v : JSON) : bool :=
  match v with
  | JUndefined | JNull => false
  | JBool b => b
  | JNum n => negb (n =? 0)%Z
  | JStr s => negb (s =? "")
  | JArr _ | JObj _ => true
  end.

(** [a || b] and [a && b]. *)
Definition js_or (a b : JSON) : JSON := if truthy a then a else b.
Definition js_and (a b : JSON) : JSON := if truthy a then b else a.

Definition is_string (v : JSON) : bool :=
  match v with JStr _ => true | _ => false end.

Definition isArray (v : JSON) : bool :=
  match v with JArr _ => true | _ => false end.

(** [===] against a primitive.  Arrays and objects compare by reference in
    JavaScript; two values read from different places are different
    references, so they are never strictly equal here. *)
Definition strict_eq (a b : JSON) : bool :=
  match a, b with
  | JUndefined, JUndefined => true
  | JNull, JNull => true
  | JBool x, JBool y => Bool.eqb x y
  | JNum x, JNum y => (x =? y)%Z
  | JStr x, JStr y => (x =? y)
  | _, _ => false
  end.

(** [list.includes(v)] for a list of string literals. *)
Definition includes (l : list string) (v : JSON) : bool :=
  match v with
  | JStr s => existsb (String.eqb s) l
  | _ => false
  end.

(** Own properties of an object, in insertion order. *)
Fixpoint assoc (k : string) (fs : list (string * JSON)) : option JSON :=
  match fs with
  | [] => None
  | (k', v) :: r => if k' =? k then Some v else assoc k r
  end.

(** [o[k] = v]: overwrite in place when the key exists, else append. *)
Fixpoint obj_set (k : string) (v : JSON) (fs : list (string * JSON))
  : list (string * JSON) :=
  match fs with
  | [] => [(k, v)]
  | (k', v') :: r => if k' =? k then (k', v) :: r else (k', v') :: obj_set k v r
  end.

(** [{...a, ...b}] on property lists. *)
Definition obj_assign (a b : list (string * JSON)) : list (string * JSON) :=
  fold_left (fun acc kv => obj_set (fst kv) (snd kv) acc) b a.

Fixpoint chars (s : string) : list JSON :=
  match s with
  | EmptyString => []
  | String c r => JStr (String c EmptyString) :: chars r
  end.

Definition indexed (xs : list JSON) : list (string * JSON) :=
  imap (fun i x => (pretty i, x)) xs.

(** The properties that object spread [{...v}] copies.  Spreading
    [undefined], [null], a boolean or a number copies nothing. *)
Definition spread (v : JSON) : list (string * JSON) :=
  match v with
  | JObj fs => fs
  | JArr xs => indexed xs
  | JStr s => indexed (chars s)
  | _ => []
  end.

(** [...(c && { k: v })]. *)
Definition spread_if (c : JSON) (k : string) (v : JSON) : list (string * JSON) :=
  if truthy c then [(k, v)] else [].

(** JavaScript [String(v)], as used by template literals. *)
Fixpoint to_string (v : JSON) : string :=
  match v with
  | JUndefined => "undefined"
  | JNull => "null"
  | JBool true => "true"
  | JBool false => "false"
  | JNum n => pretty n
  | JStr s => s
  | JArr xs =>
      (fix join (l : list JSON) : string :=
         match l with
         | [] => ""
         | x :: r =>
             let e := match x with
                      | JUndefined | JNull => ""
                      | _ => to_string x
                      end in
             match r with
             | [] => e
             | _ => e ++ "," ++ join r
             end
         end) xs
  | JObj _ => "[object Object]"
  end.

(** A property of an object value, without the throwing cases of [get]. *)
Definition prop (v : JSON) (k : string) : JSON :=
  match v with
  | JObj fs => default JUndefined (assoc k fs)
  | _ => JUndefined
  end.

Definition is_obj (v : JSON) : bool :=
  match v with JObj _ => true | _ => false end.

(** ** Messages

    An error message is text; the output of [JSON.stringify] is kept as a
    fragment that names the value it prints. *)
Inductive frag : Type :=
| Txt (s : string)
| Json (v : JSON)
| JsonPretty (v : JSON).

Definition Msg : Type := list frag.

(** [m || d] for a message [m]: the default is used for the empty string.
    [JSON.stringify] never prints the empty string. *)
Definition msg_is_empty (m : Msg) : bool :=
  forallb (fun f => match f with Txt s => s =? "" | _ => false end) m.

Definition msg_or (m d : Msg) : Msg := if msg_is_empty m then d else m.

(** ** [JSON.stringify(v, null, 2)], where the code keeps the text as data

    Strings are quoted with the escapes of JSON; arrays and objects are
    laid out one element per line, indented by two spaces per level; an
    [undefined] element of an array prints as [null] and an [undefined]
    property is left out. *)

Definition newline : string := String (ascii_of_nat 10) EmptyString.
Definition backslash : string := String (ascii_of_nat 92) EmptyString.

Definition hex_digit (n : nat) : string :=
  String (ascii_of_nat (if (n <? 10)%nat then 48 + n else 87 + n)) EmptyString.

Definition quote_char (c : ascii) : string :=
  let n := nat_of_ascii c in
  if (n =? 8)%nat then backslash ++ "b"
  else if (n =? 9)%nat then backslash ++ "t"
  else if (n =? 10)%nat then backslash ++ "n"
  else if (n =? 12)%nat then backslash ++ "f"
  else if (n =? 13)%nat then backslash ++ "r"
  else if (n =? 34)%nat then backslash ++ dq
  else if (n =? 92)%nat then backslash ++ backslash
  else if (n <? 32)%nat then
    backslash ++ "u00" ++ hex_digit (n / 16) ++ hex_digit (n mod 16)
  else String c EmptyString.

Fixpoint quote_chars (s : string) : string :=
  match s with
  | EmptyString => EmptyString
  | String c r => quote_char c ++ quote_chars r
  end.

Definition quote (s : string) : string := dq ++ quote_chars s ++ dq.

(** The text of [v] at indentation [indent]; [None] for [undefined]. *)
Fixpoint stringify_pretty (indent : string) (v : JSON) : option string :=
  match v with
  | JUndefined => None
  | JNull => Some "null"
  | JBool true => Some "true"
  | JBool false => Some "false"
  | JNum n => Some (pretty n)
  | JStr s => Some (quote s)
  | JArr xs =>
      let inner := indent ++ "  " in
      let partial :=
        (fix items (l : list JSON) : list string :=
           match l with
           | [] => []
           | x :: r => default "null" (stringify_pretty inner x) :: items r
           end) xs in
      Some (match partial with
            | [] => "[]"
            | _ => "[" ++ newline ++ inner
                   ++ String.concat ("," ++ newline ++ inner) partial
                   ++ newline ++ indent ++ "]"
            end)
  | JObj fs =>
      let inner := indent ++ "  " in
      let partial :=
        (fix members (l : list (string * JSON)) : list string :=
           match l with
           | [] => []
           | (k, x) :: r =>
               match stringify_pretty inner x with
               | Some text => (quote k ++ ": " ++ text) :: members r
               | None => members r
               end
           end) fs in
      Some (match partial with
            | [] => "{}"
            | _ => "{" ++ newline ++ inner
                   ++ String.concat ("," ++ newline ++ inner) partial
                   ++ newline ++ indent ++ "}"
            end)
  end.

(** ** [String.prototype.toLowerCase], on ASCII text

    The letters A to Z are lowered and every other byte is kept; the type
    names and aliases that the handlers compare the result with are
    ASCII. *)

Definition lower_ascii (c : ascii) : ascii :=
  let n := nat_of_ascii c in
  if (65 <=? n)%nat && (n <=? 90)%nat then ascii_of_nat (n + 32) else c.

Fixpoint toLowerCase (s : string) : string :=
  match s with
  | EmptyString => EmptyString
  | String c r => String (lower_ascii c) (toLowerCase r)
  end.

(** ** The spec table [buildr_app_spec]

    One row per [(app_id, config_type, config_key)]; the handlers rely on
    that unique key in their [onConflict] clause. *)

Record SpecRow : Type := mkSpecRow {
  spec_app_id : string;
  config_type : string;
  config_key : string;
  config_value : JSON;
  spec_user_id : option string;
  spec_build_request_id : option string
}.

Definition spec_match (a t k : string) (r : SpecRow) : bool :=
  (spec_app_id r =? a) && (config_type r =? t) && (config_key r =? k).

(** [.single()]: the row when exactly one row is selected, else no data. *)
Definition single {A : Type} (l : list A) : option A :=
  match l with
  | [x] => Some x
  | _ => None
  end.

(** [.select(..).eq("app_id", a).eq("config_type", t).eq("config_key", k).single()] *)
Definition spec_select_single (a t k : string) (tbl : list SpecRow)
  : option SpecRow :=
  single (List.filter (spec_match a t k) tbl).

(** [if (userId) data.user_id = userId]: the column is sent only for a
    non-empty string. *)
Definition sent (o : option string) : option string :=
  match o with
  | Some s => if s =? "" then None else Some s
  | None => None
  end.

(** [.insert(row)]: rejected by the unique key when the key is taken. *)
Definition spec_insert (a t k : string) (v : JSON) (uid brid : option string)
    (tbl : list SpecRow) : option (list SpecRow) :=
  if existsb (spec_match a t k) tbl then None
  else Some (tbl ++ [mkSpecRow a t k v (sent uid) (sent brid)])%list.

Definition keep_or (new old : option string) : option string :=
  match new with
  | Some _ => new
  | None => old
  end.

(** [.upsert(row, { onConflict: "app_id,config_type,config_key" })]: on
    conflict the columns that were sent are overwritten. *)
Definition spec_upsert (a t k : string) (v : JSON) (uid brid : option string)
    (tbl : list SpecRow) : list SpecRow :=
  if existsb (spec_match a t k) tbl then
    map (fun r =>
           if spec_match a t k r then
             mkSpecRow a t k v (keep_or (sent uid) (spec_user_id r))
                       (keep_or (sent brid) (spec_build_request_id r))
           else r) tbl
  else (tbl ++ [mkSpecRow a t k v (sent uid) (sent brid)])%list.

(** [.update({ config_value: v }).eq(..).eq(..).eq(..)] *)
Definition spec_update_value (a t k : string) (v : JSON) (tbl : list SpecRow)
  : list SpecRow :=
  map (fun r =>
         if spec_match a t k r then
           mkSpecRow (spec_app_id r) (config_type r) (config_key r) v
                     (spec_user_id r) (spec_build_request_id r)
         else r) tbl.

(** The unique constraint of the table. *)
Definition spec_key (r : SpecRow) : string * string * string :=
  (spec_app_id r, config_type r, config_key r).

Definition spec_unique (tbl : list SpecRow) : Prop :=
  NoDup (map spec_key tbl).

(** ** Handler monad: spec table state, early [return], thrown errors *)

Inductive StepResult : Type :=
| Success (data : JSON)
| Failure (error : Msg).

Inductive Exit : Type :=
| Return (r : StepResult)
| Throw (m : Msg).

Definition M (A : Type) : Type :=
  list SpecRow -> list SpecRow * (Exit + A).

Definition ret {A : Type} (x : A) : M A := fun s => (s, inr x).

Definition bind {A B : Type} (c : M A) (k : A -> M B) : M B :=
  fun s =>
    match c s with
    | (s', inl e) => (s', inl e)
    | (s', inr x) => k x s'
    end.

Definition exit {A : Type} (e : Exit) : M A := fun s => (s, inl e).
Definition fail {A : Type} (m : Msg) : M A := exit (Return (Failure m)).
Definition throw {A : Type} (m : Msg) : M A := exit (Throw m).
Definition query {A : Type} (f : list SpecRow -> A) : M A :=
  fun s => (s, inr (f s)).
Definition write (f : list SpecRow -> list SpecRow) : M unit :=
  fun s => (f s, inr tt).

Notation "x <- c ;; k" := (bind c (fun x => k))
  (at level 100, c at next level, right associativity).
Notation "c ;;; k" := (bind c (fun _ => k))
  (at level 100, right associativity).

Definition when (b : bool) (c : M unit) : M unit := if b then c else ret tt.

(** [for (const x of xs) body(x)] *)
Fixpoint for_of {A : Type} (xs : list A) (body : A -> M unit) : M unit :=
  match xs with
  | [] => ret tt
  | x :: r => body x ;;; for_of r body
  end.

(** [try { body } catch (err) { return { success: false, error: `${label} error: ${err.message}` } }] *)
Definition try_catch (label : string) (body : M StepResult)
    (s : list SpecRow) : list SpecRow * StepResult :=
  match body s with
  | (s', inr r) => (s', r)
  | (s', inl (Return r)) => (s', r)
  | (s', inl (Throw m)) => (s', Failure (Txt (label ++ " error: ") :: m))
  end.

(** Property read [v.k].  Reading a property of [undefined] or [null]
    throws; the handlers read only named data properties, which a
    string, number, boolean or array does not have. *)
Definition get (v : JSON) (k : string) : M JSON :=
  match v with
  | JUndefined | JNull =>
      throw [Txt ("Cannot read properties of " ++ to_string v
                  ++ " (reading '" ++ k ++ "')")]
  | JObj fs => ret (default JUndefined (assoc k fs))
  | _ => ret JUndefined
  end.

(** [v && v.k] *)
Definition get_if (v : JSON) (k : string) : M JSON :=
  if truthy v then get v k else ret v.

(** ** [handleCreateModel] *)

(** The alias rewriting of a lower-cased type name, one [if] after the
    other as in the source. *)
Definition alias_type (s : string) : string :=
  let t := s in
  let t := if t =? "string" then "text" else t in
  let t := if t =? "integer" then "number" else t in
  let t := if t =? "datetime" then "timestamptz" else t in
  let t := if t =? "reference" then "uuid" else t in
  let t := if t =? "authentication" then "jsonb" else t in
  t.

(** [if (type && typeof type === "string") { type = type.toLowerCase(); ... }] *)
Definition normalizeFieldType (v : JSON) : JSON :=
  match v with
  | JStr s => if truthy v then JStr (alias_type (toLowerCase s)) else v
  | _ => v
  end.

Definition normalizedValidTypes : list string :=
  ["text"; "number"; "boolean"; "date"; "timestamptz"; "uuid"; "jsonb";
   "array"; "object"].

(** The negation of the rejection test
    [!fieldType || !normalizedValidTypes.includes(fieldType)]. *)
Definition fieldTypeAccepted (fieldType : JSON) : bool :=
  truthy fieldType && includes normalizedValidTypes fieldType.

Definition invalid_type_msg (raw norm : JSON) : Msg :=
  [Txt ("Invalid field type: " ++ to_string raw ++ " (normalized: "
        ++ to_string norm
        ++ "). Must be one of: text, string, number, integer, boolean, date, datetime, timestamptz, uuid, reference, authentication, jsonb, array, object")].

Definition validateField (field : JSON) : M unit :=
  name <- get field "name" ;;
  when (negb (truthy name) || negb (is_string name))
       (fail [Txt "Field missing required property: name (string). Field: ";
              Json field]) ;;;
  ty <- get field "type" ;;
  let fieldType := normalizeFieldType ty in
  when (negb (fieldTypeAccepted fieldType))
       (fail (invalid_type_msg ty fieldType)).

Definition normalizeField (field : JSON) : M JSON :=
  ty <- get field "type" ;;
  let type := normalizeFieldType ty in
  let normalizedField := obj_set "type" type (spread field) in
  relation <- get field "relation" ;;
  ret (JObj (if truthy relation
             then obj_set "relation" relation normalizedField
             else normalizedField)).

Fixpoint mapM {A B : Type} (f : A -> M B) (xs : list A) : M (list B) :=
  match xs with
  | [] => ret []
  | x :: r => y <- f x ;; ys <- mapM f r ;; ret (y :: ys)
  end.

Definition unique_violation : Msg :=
  [Txt "duplicate key value violates unique constraint"].

Definition handleCreateModel (appId : string) (step : JSON)
    (buildRequestId userId : option string)
  : list SpecRow -> list SpecRow * StepResult :=
  try_catch "create_model" (
    name <- get step "name" ;;
    target <- get step "target" ;;
    let modelName := js_or name target in
    match modelName with
    | JStr mn =>
      if negb (truthy modelName) then
        fail [Txt "create_model step missing required field: name or target (string). Step data: ";
              JsonPretty step]
      else
        fields0 <- get step "fields" ;;
        details <- get step "details" ;;
        dfields <- get_if details "fields" ;;
        let fields := js_or (js_or fields0 dfields) (JArr []) in
        match fields with
        | JArr (f0 :: fr) =>
            let fs := f0 :: fr in
            for_of fs validateField ;;;
            existingModel <- query (spec_select_single appId "architecture" mn) ;;
            match existingModel with
            | Some _ =>
                fail [Txt ("Model " ++ dq ++ mn ++ dq ++ " already exists")]
            | None =>
                normalizedFields <- mapM normalizeField fs ;;
                metadata <- get step "metadata" ;;
                description <- get_if details "description" ;;
                let modelConfig :=
                  JObj (obj_assign
                          (obj_assign
                             [("name", modelName);
                              ("fields", JArr normalizedFields)]
                             (spread_if metadata "metadata" metadata))
                          (spread_if description "description" description)) in
                inserted <- query (spec_insert appId "architecture" mn
                                               modelConfig userId buildRequestId) ;;
                match inserted with
                | None =>
                    fail (Txt "Failed to create model: " :: unique_violation)
                | Some tbl =>
                    write (fun _ => tbl) ;;;
                    ret (Success
                           (JObj [("modelName", modelName);
                                  ("fields",
                                   JNum (Z.of_nat (length normalizedFields)))]))
                end
            end
        | _ =>
            fail [Txt "create_model step missing required field: fields (array) in step.fields or step.details.fields"]
        end
    | _ =>
        fail [Txt "create_model step missing required field: name or target (string). Step data: ";
              JsonPretty step]
    end).

(** ** [handleCreatePage] *)

(** [typeof v] *)
Definition typeof (v : JSON) : string :=
  match v with
  | JUndefined => "undefined"
  | JBool _ => "boolean"
  | JNum _ => "number"
  | JStr _ => "string"
  | JNull | JArr _ | JObj _ => "object"
  end.

(** [o.k = v] in strict mode: an object takes the property, an array
    takes it without any effect on its JSON form, anything else throws. *)
Definition set_prop (o : JSON) (k : string) (v : JSON) : M JSON :=
  match o with
  | JObj fs => ret (JObj (obj_set k v fs))
  | JArr _ => ret o
  | JUndefined | JNull =>
      throw [Txt ("Cannot set properties of " ++ to_string o
                  ++ " (setting '" ++ k ++ "')")]
  | _ => throw [Txt ("Cannot create property '" ++ k ++ "' on "
                     ++ typeof o ++ " '" ++ to_string o ++ "'")]
  end.

Definition handleCreatePage (appId : string) (step : JSON)
    (buildRequestId userId : option string)
  : list SpecRow -> list SpecRow * StepResult :=
  try_catch "create_page" (
    slug0 <- get step "slug" ;;
    target <- get step "target" ;;
    let slug := js_or slug0 target in
    match slug with
    | JStr sl =>
      if negb (truthy slug) then
        fail [Txt "create_page step missing required field: slug or target (string)"]
      else
        existingPage <- query (spec_select_single appId "ui" sl) ;;
        match existingPage with
        | Some _ =>
            fail [Txt ("Page with slug " ++ dq ++ to_string slug0 ++ dq
                       ++ " already exists")]
        | None =>
            layout <- get step "layout" ;;
            (if truthy layout then
               layoutConfig <-
                 query (spec_select_single appId "ui" (to_string layout)) ;;
               match layoutConfig with
               | Some _ => ret tt
               | None =>
                   fail [Txt ("Layout " ++ dq ++ to_string layout ++ dq
                              ++ " does not exist")]
               end
             else ret tt) ;;;
            title <- get step "title" ;;
            components <- get step "components" ;;
            metadata <- get step "metadata" ;;
            details <- get step "details" ;;
            let pageConfig0 :=
              obj_assign
                (obj_assign
                   (obj_assign
                      [("slug", slug); ("title", js_or title slug)]
                      (spread_if layout "layout" layout))
                   [("components", js_or components (JArr []))])
                (spread_if metadata "metadata" metadata) in
            pageConfig <-
              (if truthy details then
                 let pc := obj_set "details" details pageConfig0 in
                 sections <- get details "sections" ;;
                 if truthy sections && isArray sections then
                   let md := default JUndefined (assoc "metadata" pc) in
                   let md := if truthy md then md else JObj [] in
                   md' <- set_prop md "sections" sections ;;
                   ret (obj_set "metadata" md' pc)
                 else ret pc
               else ret pageConfig0) ;;
            inserted <- query (spec_insert appId "ui" sl (JObj pageConfig)
                                           userId buildRequestId) ;;
            match inserted with
            | None => fail (Txt "Failed to create page: " :: unique_violation)
            | Some tbl =>
                write (fun _ => tbl) ;;;
                ret (Success
                       (JObj [("slug", slug);
                              ("title",
                               default JUndefined (assoc "title" pageConfig))]))
            end
        end
    | _ =>
        fail [Txt "create_page step missing required field: slug or target (string)"]
    end).

(** ** [handleCreateComponent] *)

(** [pageValue.components.push(item)], after
    [if (!pageValue.components) pageValue.components = []].  When the
    page value is itself an array, the property is set on the array
    object and the value that is written back is the same array. *)
Definition push_component (pageValue item : JSON) : M JSON :=
  c <- get pageValue "components" ;;
  match pageValue with
  | JArr _ => ret pageValue
  | _ =>
      pv <- (if truthy c then ret pageValue
             else set_prop pageValue "components" (JArr [])) ;;
      c' <- get pv "components" ;;
      match c' with
      | JArr xs => set_prop pv "components" (JArr (xs ++ [item])%list)
      | _ => throw [Txt "pageValue.components.push is not a function"]
      end
  end.

Definition handleCreateComponent (now : Z) (appId : string) (step : JSON)
    (buildRequestId userId : option string)
  : list SpecRow -> list SpecRow * StepResult :=
  try_catch "create_component" (
    name <- get step "name" ;;
    target <- get step "target" ;;
    let componentName := js_or name target in
    match componentName with
    | JStr cn =>
      if negb (truthy componentName) then
        fail [Txt "create_component step missing required field: name or target (string)"]
      else
        ct <- get step "componentType" ;;
        let componentType := js_or ct (JStr "Component") in
        if negb (is_string componentType) then
          fail [Txt "create_component step missing required field: componentType (string)"]
        else
          pageSlug <- get step "pageSlug" ;;
          (if truthy pageSlug then
             pageConfig <-
               query (spec_select_single appId "ui" (to_string pageSlug)) ;;
             match pageConfig with
             | Some _ => ret tt
             | None =>
                 fail [Txt ("Page " ++ dq ++ to_string pageSlug ++ dq
                            ++ " does not exist")]
             end
           else ret tt) ;;;
          props <- get step "props" ;;
          metadata <- get step "metadata" ;;
          details <- get step "details" ;;
          let componentConfig :=
            obj_assign
              (obj_assign
                 (obj_assign
                    [("name", componentName); ("type", componentType)]
                    (spread_if props "props" props))
                 (spread_if metadata "metadata" metadata))
              (spread_if details "details" details) in
          write (spec_upsert appId "ui" cn (JObj componentConfig)
                             userId buildRequestId) ;;;
          (if truthy pageSlug then
             pageConfig <-
               query (spec_select_single appId "ui" (to_string pageSlug)) ;;
             match pageConfig with
             | Some row =>
                 cid <- get step "componentId" ;;
                 let componentId :=
                   js_or cid (JStr (cn ++ "-" ++ pretty now)) in
                 pageValue <-
                   push_component (config_value row)
                     (JObj (obj_assign
                              [("id", componentId); ("type", componentType);
                               ("name", componentName)]
                              (spread_if props "props" props))) ;;
                 write (spec_update_value appId "ui" (to_string pageSlug)
                                          pageValue)
             | None => ret tt
             end
           else ret tt) ;;;
          ret (Success
                 (JObj [("componentName", componentName);
                        ("componentType", componentType);
                        ("addedToPage", JBool (truthy pageSlug))]))
    | _ =>
        fail [Txt "create_component step missing required field: name or target (string)"]
    end).

(** ** [handleSetPermissions] *)

Definition validActions : list string :=
  ["read"; "write"; "delete"; "admin"; "create"; "update"].

Definition validRoles : list string :=
  ["user"; "admin"; "public"; "authenticated"].

(** The summary object printed when no permission list is found;
    [detailsContent] is the text of [step.details], or the text [null]. *)
Definition missing_permissions_msg (step permissions0 details : JSON) : Msg :=
  let has k := JBool (truthy details
                      && truthy (default JUndefined (assoc k (spread details)))) in
  let detailsValues :=
    if truthy details
    then default "null" (stringify_pretty "" details)
    else "null" in
  [Txt "set_permissions step missing required field: permissions (array) or details.access_rules/permissions/rules (array). Step data: ";
   JsonPretty
     (JObj [("hasPermissions", JBool (truthy permissions0));
            ("hasDetails", JBool (truthy details));
            ("detailsKeys",
             JArr (map (fun kv => JStr (fst kv))
                       (if truthy details then spread details else [])));
            ("detailsContent", JStr detailsValues);
            ("hasAccessRules", has "access_rules");
            ("hasDetailsPermissions", has "permissions");
            ("hasDetailsRules", has "rules");
            ("stepKeys", JArr (map (fun kv => JStr (fst kv)) (spread step)))])].

(** The permission list, from [step.permissions] or one of the historical
    places under [step.details]. *)
Definition resolvePermissions (step : JSON) : M JSON :=
  permissions0 <- get step "permissions" ;;
  details <- get step "details" ;;
  if negb (truthy permissions0) && truthy details then
    target <- get step "target" ;;
    name <- get step "name" ;;
    slug <- get step "slug" ;;
    let resource := js_or (js_or (js_or target name) slug) (JStr "resource") in
    access_rules <- get details "access_rules" ;;
    dperms <- get details "permissions" ;;
    drules <- get details "rules" ;;
    match access_rules with
    | JArr actions =>
        ret (JArr (map (fun action =>
                          JObj [("resource", resource); ("action", action);
                                ("role", JStr "user")]) actions))
    | _ =>
        if truthy dperms && isArray dperms then ret dperms
        else if truthy drules && isArray drules then ret drules
        else if isArray details then ret details
        else ret permissions0
    end
  else ret permissions0.

Definition validatePermission (permission : JSON) : M unit :=
  resource <- get permission "resource" ;;
  when (negb (truthy resource) || negb (is_string resource))
       (fail [Txt "Permission missing required field: resource (string). Permission: ";
              Json permission]) ;;;
  action <- get permission "action" ;;
  when (negb (truthy action) || negb (includes validActions action))
       (fail [Txt ("Invalid action: " ++ to_string action
                   ++ ". Must be one of: read, write, delete, admin, create, update")]) ;;;
  role <- get permission "role" ;;
  when (truthy role && negb (includes validRoles role))
       (fail [Txt ("Invalid role: " ++ to_string role
                   ++ ". Must be one of: user, admin, public, authenticated")]).

(** The [findIndex] predicate of the merge: the stored rule's role is
    compared with the incoming role defaulted to ["user"]. *)
Definition rule_matches (newPermission rule : JSON) : M bool :=
  r1 <- get rule "resource" ;;
  r2 <- get newPermission "resource" ;;
  a1 <- get rule "action" ;;
  a2 <- get newPermission "action" ;;
  o1 <- get rule "role" ;;
  o2 <- get newPermission "role" ;;
  ret (strict_eq r1 r2 && strict_eq a1 a2
       && strict_eq o1 (js_or o2 (JStr "user"))).

Fixpoint findIndex (p : JSON -> M bool) (l : list JSON) (i : nat)
  : M (option nat) :=
  match l with
  | [] => ret None
  | x :: r => b <- p x ;; if b then ret (Some i) else findIndex p r (S i)
  end.

(** One round of the merge loop: replace on match, else append. *)
Definition mergeRule (mergedRules : list JSON) (newPermission : JSON)
  : M (list JSON) :=
  existingIndex <- findIndex (rule_matches newPermission) mergedRules 0 ;;
  match existingIndex with
  | Some i => ret (<[i := newPermission]> mergedRules)
  | None => ret (mergedRules ++ [newPermission])%list
  end.

Fixpoint mergeRules (mergedRules permissions : list JSON) : M (list JSON) :=
  match permissions with
  | [] => ret mergedRules
  | p :: r => m <- mergeRule mergedRules p ;; mergeRules m r
  end.

(** [[...existingRules]] *)
Definition spread_array (v : JSON) : M (list JSON) :=
  match v with
  | JArr xs => ret xs
  | JStr s => ret (chars s)
  | _ => throw [Txt "existingRules is not iterable"]
  end.

Definition handleSetPermissions (appId : string) (step : JSON)
    (buildRequestId userId : option string)
  : list SpecRow -> list SpecRow * StepResult :=
  try_catch "set_permissions" (
    permissions <- resolvePermissions step ;;
    match permissions with
    | JArr perms =>
        for_of perms validatePermission ;;;
        existingPermissions <-
          query (spec_select_single appId "permissions" "rules") ;;
        existingRules <-
          match existingPermissions with
          | Some row =>
              rules <- get (config_value row) "rules" ;;
              ret (js_or rules (JArr []))
          | None => ret (JArr [])
          end ;;
        mergedRules0 <- spread_array existingRules ;;
        mergedRules <- mergeRules mergedRules0 perms ;;
        write (spec_upsert appId "permissions" "rules"
                           (JObj [("rules", JArr mergedRules)])
                           userId buildRequestId) ;;;
        ret (Success
               (JObj [("rulesCount", JNum (Z.of_nat (length mergedRules)))]))
    | _ =>
        permissions0 <- get step "permissions" ;;
        details <- get step "details" ;;
        fail (missing_permissions_msg step permissions0 details)
    end).

(** ** [executeStep] of the step handlers: dispatch on [step.type] *)

Definition executeStepHandler (now : Z) (appId : string) (step : JSON)
    (buildRequestId userId : option string)
    (tbl : list SpecRow) : list SpecRow * StepResult :=
  match step with
  | JObj fs =>
      match default JUndefined (assoc "type" fs) with
      | JStr "create_model" =>
          handleCreateModel appId step buildRequestId userId tbl
      | JStr "create_page" =>
          handleCreatePage appId step buildRequestId userId tbl
      | JStr "create_component" =>
          handleCreateComponent now appId step buildRequestId userId tbl
      | JStr "set_permissions" =>
          handleSetPermissions appId step buildRequestId userId tbl
      | ty => (tbl, Failure [Txt ("Unknown step type: " ++ to_string ty)])
      end
  | _ => (tbl, Failure [Txt "Unknown step type: undefined"])
  end.

(** ** The database

    Tables are lists of rows in storage order.  Row ids are generated by
    the database ([next_id]); [clock] is the database time, stamped on
    inserted rows. *)

Inductive Status : Type := pending | processing | applied | failed.

Definition Status_eqb (a b : Status) : bool :=
  match a, b with
  | pending, pending | processing, processing
  | applied, applied | failed, failed => true
  | _, _ => false
  end.

(** [buildr_apps] *)
Record AppRow : Type := mkAppRow {
  app_id : string;
  app_user_id : option string;
  app_build_request_id : option string
}.

(** [buildr_operations_log] *)
Record OpRow : Type := mkOpRow {
  op_id : nat;
  op_app_id : string;
  op_operations : JSON;
  op_status : Status;
  op_error_message : option Msg;
  op_applied_at : option Z;
  op_build_request_id : option string;
  op_created_at : Z
}.

(** [buildr_execution_steps].  The [type] and [target] columns keep the
    value the expander gave them; [error_message] is a text column that
    no code of the pipeline writes. *)
Record StepRow : Type := mkStepRow {
  step_id : nat;
  step_app_id : string;
  step_operation_id : option nat;
  step_index : Z;
  step_type : JSON;
  step_target : JSON;
  step_status : Status;
  step_error_message : option string;
  step_created_at : Z
}.

(** [buildr_app_versions] *)
Record VersionRow : Type := mkVersionRow {
  ver_app_id : string;
  ver_user_id : option string;
  ver_operation_id : nat;
  ver_chat_message_id : option string;
  version_number : Z;
  config_snapshot : JSON
}.

(** [buildr_app_operations], the table of the bulk apply path *)
Record AppOpRow : Type := mkAppOpRow {
  aop_id : nat;
  aop_app_id : string;
  aop_user_id : option string;
  aop_chat_message_id : option string;
  aop_operations : JSON;
  aop_status : Status;
  aop_error_message : option Msg;
  aop_applied_at : option Z;
  aop_created_at : Z
}.

(** [buildr_app_config], the table of the bulk apply path *)
Record ConfigRow : Type := mkConfigRow {
  cfg_id : nat;
  cfg_app_id : string;
  cfg_type : string;
  cfg_key : string;
  cfg_value : JSON
}.

Record DB : Type := mkDB {
  apps : list AppRow;
  operations_log : list OpRow;
  execution_steps : list StepRow;
  app_spec : list SpecRow;
  app_operations : list AppOpRow;
  app_config : list ConfigRow;
  app_versions : list VersionRow;
  next_id : nat;
  clock : Z
}.

Definition with_steps (steps : list StepRow) (db : DB) : DB :=
  mkDB (apps db) (operations_log db) steps (app_spec db)
       (app_operations db) (app_config db) (app_versions db)
       (next_id db) (clock db).

Definition with_spec (tbl : list SpecRow) (db : DB) : DB :=
  mkDB (apps db) (operations_log db) (execution_steps db) tbl
       (app_operations db) (app_config db) (app_versions db)
       (next_id db) (clock db).

Definition with_operations_log (ops : list OpRow) (db : DB) : DB :=
  mkDB (apps db) ops (execution_steps db) (app_spec db)
       (app_operations db) (app_config db) (app_versions db)
       (next_id db) (clock db).

(** [ORDER BY key ASC]: a stable sort of the rows in storage order. *)
Fixpoint insert_by {A : Type} (key : A -> Z) (x : A) (l : list A) : list A :=
  match l with
  | [] => [x]
  | y :: r => if (key x <=? key y)%Z then x :: y :: r
              else y :: insert_by key x r
  end.

Fixpoint order_by {A : Type} (key : A -> Z) (l : list A) : list A :=
  match l with
  | [] => []
  | x :: r => insert_by key x (order_by key r)
  end.

(** [xs[i]] for a column value [i]. *)
Definition js_index (xs : list JSON) (i : Z) : JSON :=
  if (i <? 0)%Z then JUndefined
  else default JUndefined (xs !! Z.to_nat i).

Definition opt_str (o : option string) : JSON :=
  match o with
  | Some s => JStr s
  | None => JNull
  end.

(** ** The run-one-step endpoint [pages/api/buildr/run-step.ts] *)

Inductive RunStepData : Type :=
| RsApplied (step : StepRow)
| RsDone
| RsError (error : Msg).

(** [.from("buildr_execution_steps").select("*").eq("app_id", a)
     .eq("status", "pending").order("step_index", { ascending: true })
     .limit(1).single()] *)
Definition pending_of (a : string) (r : StepRow) : bool :=
  (step_app_id r =? a) && Status_eqb (step_status r) pending.

Definition fetch_next_pending (a : string) (steps : list StepRow)
  : option StepRow :=
  single (firstn 1 (order_by step_index (List.filter (pending_of a) steps))).

Definition set_step_status (st : Status) (r : StepRow) : StepRow :=
  mkStepRow (step_id r) (step_app_id r) (step_operation_id r) (step_index r)
            (step_type r) (step_target r) st (step_error_message r)
            (step_created_at r).

(** [.update({ status: st }).eq("id", id).select()]: the new table and the
    updated rows. *)
Definition update_step_status (id : nat) (st : Status) (steps : list StepRow)
  : list StepRow * list StepRow :=
  let steps' := map (fun r => if (step_id r =? id)%nat
                              then set_step_status st r else r) steps in
  (steps', List.filter (fun r => (step_id r =? id)%nat) steps').

(** The message PostgREST gives when [.single()] finds no single row. *)
Definition no_single_row : Msg :=
  [Txt "JSON object requested, multiple (or no) rows returned"].

(** The columns of a step row, as [Object.keys(step)] lists them. *)
Definition step_columns : list string :=
  ["id"; "app_id"; "step_index"; "type"; "target"; "status";
   "error_message"; "created_at"; "operation_id"].

(** The step row without the columns that [executeStep] strips
    ([id], [app_id], [step_index], [status], [operation_id], the
    timestamps). *)
Definition stepFields (step : StepRow) : list (string * JSON) :=
  [("type", step_type step); ("target", step_target step);
   ("error_message", opt_str (step_error_message step))].

(** The first half of the local [executeStep]: the step type and the
    payload, from the owning operation or from the step row itself. *)
Definition resolve_payload (ops : list OpRow) (step : StepRow)
  : Msg + (JSON * JSON) :=
  let stepType := js_or (step_type step) JUndefined in
  match step_operation_id step with
  | Some oid =>
      match single (List.filter (fun o => (op_id o =? oid)%nat) ops) with
      | None => inl (Txt "Failed to fetch operation details: " :: no_single_row)
      | Some operation =>
          match op_operations operation with
          | JArr operations =>
              let fullStep := js_index operations (step_index step) in
              if truthy fullStep then
                inr (js_or (prop fullStep "type") stepType, fullStep)
              else
                inl [Txt ("Step at index " ++ pretty (step_index step)
                          ++ " not found in operation. Operation has "
                          ++ pretty (length operations) ++ " steps.")]
          | _ =>
              inl [Txt ("Operation " ++ pretty oid
                        ++ " has invalid operations array")]
          end
      end
  | None =>
      let fields := stepFields step in
      inr (stepType,
           JObj (obj_set "slug"
                   (js_or (default JUndefined (assoc "slug" fields))
                          (default JUndefined (assoc "target" fields)))
                   fields))
  end.

(** The local [executeStep] of run-step.ts: resolve the payload, run the
    handler, throw on failure. *)
Definition executeStep (step : StepRow) (appId : string)
    (buildRequestId userId : option string) (db : DB) : DB * (Msg + StepResult) :=
  match resolve_payload (operations_log db) step with
  | inl m => (db, inl m)
  | inr (stepType, stepData) =>
      if negb (truthy stepType) then
        (db, inl [Txt ("Step missing type field. Available fields: "
                       ++ String.concat ", " step_columns)])
      else
        let handlerStep :=
          JObj (obj_assign [("type", stepType)] (spread stepData)) in
        let '(tbl, result) :=
          executeStepHandler (clock db) appId handlerStep buildRequestId
                             userId (app_spec db) in
        match result with
        | Success _ => (with_spec tbl db, inr result)
        | Failure error =>
            (with_spec tbl db, inl (msg_or error [Txt "Step execution failed"]))
        end
  end.

Definition app_json (app : option AppRow) : JSON :=
  match app with
  | Some a => JObj [("user_id", opt_str (app_user_id a));
                    ("build_request_id", opt_str (app_build_request_id a))]
  | None => JNull
  end.

(** [.from("buildr_apps").select("user_id, build_request_id").eq("id", a).single()] *)
Definition lookup_app (a : string) (db : DB) : option AppRow :=
  single (List.filter (fun r => app_id r =? a) (apps db)).

Definition lookup_operation (oid : nat) (db : DB) : option OpRow :=
  single (List.filter (fun o => (op_id o =? oid)%nat) (operations_log db)).

(** [userId = app.user_id] *)
Definition resolve_user_id (a : string) (db : DB) : option string :=
  match lookup_app a db with
  | Some r => app_user_id r
  | None => None
  end.

(** [buildRequestId = app.build_request_id || null], then the owning
    operation's [build_request_id] when the app has none. *)
Definition resolve_build_request_id (a : string) (step : StepRow) (db : DB)
  : option string :=
  let buildRequestId :=
    match lookup_app a db with
    | Some r => sent (app_build_request_id r)
    | None => None
    end in
  match buildRequestId, step_operation_id step with
  | None, Some oid =>
      match lookup_operation oid db with
      | Some operation => sent (op_build_request_id operation)
      | None => None
      end
  | _, _ => buildRequestId
  end.

(** [.update({ status: st }).eq("id", id)] on the database. *)
Definition mark_step (id : nat) (st : Status) (db : DB) : DB :=
  with_steps (fst (update_step_status id st (execution_steps db))) db.

(** The [catch] block: mark the step failed and report the message. *)
Definition step_failed (step : StepRow) (errorMessage : Msg) (db : DB)
  : DB * (nat * RunStepData) :=
  (mark_step (step_id step) failed db,
   (500%nat, RsError (Txt "Step execution failed: " :: errorMessage))).

(** The handler.  [env] is what other callers do to the database between
    the statement that selects the step and the statement that marks it
    as processing; the sequential handler is [run_step (fun db => db)]. *)
Definition run_step (env : DB -> DB) (method : string) (app_id_param : JSON)
    (db : DB) : DB * (nat * RunStepData) :=
  if negb (method =? "POST") then
    (db, (405%nat, RsError [Txt "Method not allowed"]))
  else if negb (truthy app_id_param) then
    (db, (400%nat, RsError [Txt "Missing app_id"]))
  else
    let a := to_string app_id_param in
    match fetch_next_pending a (execution_steps db) with
    | None => (db, (200%nat, RsDone))
    | Some step =>
        let db := env db in
        let updateData :=
          snd (update_step_status (step_id step) processing
                                  (execution_steps db)) in
        let db := mark_step (step_id step) processing db in
        match updateData with
        | [] =>
            (db, (500%nat,
                  RsError [Txt "Failed to mark step as processing: No rows updated"]))
        | _ :: _ =>
            let userId := resolve_user_id a db in
            let buildRequestId := resolve_build_request_id a step db in
            match sent userId with
            | None =>
                (db, (500%nat,
                      RsError [Txt ("Could not determine user_id for app "
                                    ++ a ++ ". App data: ");
                               Json (app_json (lookup_app a db))]))
            | Some _ =>
                match executeStep step a buildRequestId userId db with
                | (db, inl errorMessage) => step_failed step errorMessage db
                | (db, inr _) =>
                    let appliedData :=
                      snd (update_step_status (step_id step) applied
                                              (execution_steps db)) in
                    let db := mark_step (step_id step) applied db in
                    match appliedData with
                    | [] =>
                        step_failed step
                          [Txt "Failed to mark step as applied: No rows updated"]
                          db
                    | _ :: _ => (db, (200%nat, RsApplied step))
                    end
                end
            end
        end
    end.

(** The invocation runs alone: nothing happens between its selection and
    its update. *)
Definition id_env (db : DB) : DB := db.

(** ** The client loop [runAllSteps] of the run controls

    [while (true)] posts to run-step until the answer is [done] or an
    error; [fuel] bounds the number of requests. *)
Fixpoint runAllSteps (fuel : nat) (appId : string) (db : DB)
  : DB * list (nat * RunStepData) :=
  match fuel with
  | O => (db, [])
  | S fuel' =>
      let '(db', res) := run_step id_env "POST" (JStr appId) db in
      match res with
      | (_, RsApplied _) =>
          let '(db'', rest) := runAllSteps fuel' appId db' in
          (db'', res :: rest)
      | _ => (db', [res])
      end
  end.

(** ** The step expander [pages/api/buildr/expand-operations.ts] *)

Inductive ExpandData : Type :=
| ExOk (expanded : nat) (operationIds : list nat)
| ExError (error : Msg).

(** Property read outside the handler monad; reading a property of
    [undefined] or [null] throws. *)
Definition read (v : JSON) (k : string) : Msg + JSON :=
  match v with
  | JUndefined | JNull =>
      inl [Txt ("Cannot read properties of " ++ to_string v
                ++ " (reading '" ++ k ++ "')")]
  | _ => inr (prop v k)
  end.

(** One element of [stepsToInsert]: the row for the descriptor at [index]. *)
Definition step_of_descriptor (operation : OpRow) (now : Z) (id0 : nat)
    (index : nat) (step : JSON) : Msg + StepRow :=
  match read step "type" with
  | inl m => inl m
  | inr ty =>
      let stepType := js_or ty (JStr "create_component") in
      let target :=
        js_or (js_or (js_or (js_or (prop step "name") (prop step "slug"))
                            (prop step "componentName"))
                     (prop step "target"))
              (JStr ("step-" ++ pretty index)) in
      inr (mkStepRow (id0 + index) (op_app_id operation)
                     (Some (op_id operation)) (Z.of_nat index)
                     stepType target pending None now)
  end.

(** [operationsArray.map((step, index) => ...)], from position [index]. *)
Fixpoint stepsToInsert (operation : OpRow) (now : Z) (id0 : nat)
    (index : nat) (descriptors : list JSON) : Msg + list StepRow :=
  match descriptors with
  | [] => inr []
  | d :: r =>
      match step_of_descriptor operation now id0 index d with
      | inl m => inl m
      | inr row =>
          match stepsToInsert operation now id0 (S index) r with
          | inl m => inl m
          | inr rows => inr (row :: rows)
          end
      end
  end.

(** [.eq("operation_id", operation.id).eq("app_id", operation.app_id)] *)
Definition linked_to (operation : OpRow) (s : StepRow) : bool :=
  match step_operation_id s with
  | Some o => (o =? op_id operation)%nat
  | None => false
  end && (step_app_id s =? op_app_id operation).

(** [.eq("app_id", a).is("operation_id", null)] *)
Definition orphan_of (a : string) (s : StepRow) : bool :=
  (step_app_id s =? a)
  && match step_operation_id s with
     | Some _ => false
     | None => true
     end.

(** [.delete().eq("app_id", a).is("operation_id", null)] *)
Definition delete_orphans (a : string) (db : DB) : DB :=
  with_steps (List.filter (fun s => negb (orphan_of a s)) (execution_steps db))
             db.

(** [.insert(stepsToInsert)]: the rows take fresh ids and the time of the
    statement. *)
Definition insert_steps (rows : list StepRow) (db : DB) : DB :=
  mkDB (apps db) (operations_log db) (execution_steps db ++ rows)%list
       (app_spec db) (app_operations db) (app_config db) (app_versions db)
       (next_id db + length rows) (clock db + 1).

(** The state of the expansion loop: the database, [totalExpanded] and
    [processedOperationIds]; or the error thrown out of the loop, with the
    database as it is then. *)
Inductive Expansion : Type :=
| Expanding (db : DB) (totalExpanded : nat) (processedOperationIds : list nat)
| Thrown (db : DB) (m : Msg).

(** The body of [for (const operation of operations)]. *)
Definition expand_operation (operation : OpRow) (db : DB)
    (totalExpanded : nat) (processedOperationIds : list nat) : Expansion :=
  match op_operations operation with
  | JArr (d :: ds) =>
      let existingSteps :=
        firstn 1 (List.filter (linked_to operation) (execution_steps db)) in
      match existingSteps with
      | _ :: _ => Expanding db totalExpanded processedOperationIds
      | [] =>
          let db := delete_orphans (op_app_id operation) db in
          match stepsToInsert operation (clock db) (next_id db) 0 (d :: ds) with
          | inl m => Thrown db m
          | inr rows =>
              Expanding (insert_steps rows db)
                        (totalExpanded + length rows)
                        (processedOperationIds ++ [op_id operation])%list
          end
      end
  | _ => Expanding db totalExpanded processedOperationIds
  end.

Fixpoint expand_loop (operations : list OpRow) (db : DB)
    (totalExpanded : nat) (processedOperationIds : list nat) : Expansion :=
  match operations with
  | [] => Expanding db totalExpanded processedOperationIds
  | operation :: rest =>
      match expand_operation operation db totalExpanded
                             processedOperationIds with
      | Expanding db' t ids => expand_loop rest db' t ids
      | Thrown db' m => Thrown db' m
      end
  end.

(** [.from("buildr_operations_log").select("*").eq("status", "pending")
     .order("created_at", { ascending: true })], narrowed by
    [operationId] when given, else by [appId]. *)
Definition pending_operations (appId : option string) (operationId : option nat)
    (ops : list OpRow) : list OpRow :=
  order_by op_created_at
    (List.filter
       (fun o =>
          Status_eqb (op_status o) pending
          && match operationId, appId with
             | Some i, _ => (op_id o =? i)%nat
             | None, Some a => op_app_id o =? a
             | None, None => true
             end) ops).

Definition expand_operations (method : string) (appId : option string)
    (operationId : option nat) (db : DB) : DB * (nat * ExpandData) :=
  if negb (method =? "POST") then
    (db, (405%nat, ExError [Txt "Method not allowed"]))
  else
    match sent appId, operationId with
    | None, None =>
        (db, (400%nat, ExError [Txt "appId or operationId is required"]))
    | a, o =>
        match pending_operations a o (operations_log db) with
        | [] => (db, (200%nat, ExOk 0 []))
        | operations =>
            match expand_loop operations db 0 [] with
            | Expanding db' totalExpanded processedOperationIds =>
                (db', (200%nat, ExOk totalExpanded processedOperationIds))
            | Thrown db' m => (db', (500%nat, ExError m))
            end
        end
    end.

(** ** The config table [buildr_app_config] of the bulk apply path

    Modelled from the spec: the table definition of [buildr_app_config] is
    not part of the sources.  As the specification says of spec entries, a
    row is identified by [(app_id, config_type, config_key)]: an insert on
    a taken key is rejected (the callers do not look at the error) and an
    upsert replaces the value of the row with that key. *)

Definition cfg_match (a t k : string) (r : ConfigRow) : bool :=
  (cfg_app_id r =? a) && (cfg_type r =? t) && (cfg_key r =? k).

Definition cfg_select_single (a t k : string) (db : DB) : option ConfigRow :=
  single (List.filter (cfg_match a t k) (app_config db)).

Definition with_config (rows : list ConfigRow) (n : nat) (db : DB) : DB :=
  mkDB (apps db) (operations_log db) (execution_steps db) (app_spec db)
       (app_operations db) rows (app_versions db) n (clock db).

Definition cfg_insert (a t k : string) (v : JSON) (db : DB) : DB :=
  if existsb (cfg_match a t k) (app_config db) then db
  else with_config (app_config db ++ [mkConfigRow (next_id db) a t k v])%list
                   (S (next_id db)) db.

Definition cfg_update (a t k : string) (v : JSON) (db : DB) : DB :=
  with_config
    (map (fun r => if cfg_match a t k r
                   then mkConfigRow (cfg_id r) (cfg_app_id r) (cfg_type r)
                                    (cfg_key r) v
                   else r) (app_config db))
    (next_id db) db.

Definition cfg_upsert (a t k : string) (v : JSON) (db : DB) : DB :=
  if existsb (cfg_match a t k) (app_config db) then cfg_update a t k v db
  else cfg_insert a t k v db.

Definition cfg_delete (a t k : string) (db : DB) : DB :=
  with_config (List.filter (fun r => negb (cfg_match a t k r)) (app_config db))
              (next_id db) db.

(** ** The operation validator [lib/operationValidator.ts]

    A validator reads the config table and yields its list of errors, or
    throws. *)

Definition validOperationTypes : list string :=
  ["add_component"; "update_theme"; "add_page"; "update_data_model";
   "add_permission"; "update_layout"; "remove_component"; "remove_page"].

Definition quoted (prefix : string) (v : JSON) (suffix : string) : Msg :=
  [Txt (prefix ++ dq ++ to_string v ++ dq ++ suffix)].

(** [if (cond) errors.push(m)] *)
Definition push_if (c : bool) (m : Msg) (errors : list Msg) : list Msg :=
  if c then (errors ++ [m])%list else errors.

Definition missing (a t : string) (k : JSON) (db : DB) : bool :=
  match cfg_select_single a t (to_string k) db with
  | Some _ => false
  | None => true
  end.

Definition validateAddComponent (appId : string) (operation : JSON) (db : DB)
  : Msg + list Msg :=
  let page := prop operation "page" in
  let component := prop operation "component" in
  let errors := push_if (negb (truthy page))
                        [Txt "Missing required field: page"] [] in
  if negb (truthy component) then
    inr (errors ++ [[Txt "Missing required field: component"]])%list
  else if negb (truthy (prop component "type")) then
    inr (errors ++ [[Txt "Component missing required field: type"]])%list
  else
    let errors :=
      push_if (truthy page && missing appId "page" page db)
              (quoted "Page " page " does not exist") errors in
    let errors :=
      push_if (missing appId "component" (prop component "type") db)
              (quoted "Component type " (prop component "type")
                      " does not exist in component library") errors in
    let model := prop (prop component "props") "model" in
    inr (push_if (truthy model && missing appId "data_model" model db)
                 (quoted "Data model " model " does not exist") errors).

Definition validateAddPage (appId : string) (operation : JSON) (db : DB)
  : Msg + list Msg :=
  let page := prop operation "page" in
  if negb (truthy page) then inr [[Txt "Missing required field: page"]]
  else
    let slug := prop page "slug" in
    let layout := prop page "layout" in
    let errors := push_if (negb (truthy slug))
                          [Txt "Page missing required field: slug"] [] in
    let errors :=
      push_if (truthy slug && negb (missing appId "page" slug db))
              (quoted "Page with slug " slug " already exists") errors in
    inr (push_if (truthy layout && missing appId "layout" layout db)
                 (quoted "Layout " layout " does not exist") errors).

Definition validFieldTypes_update : list string :=
  ["text"; "number"; "boolean"; "date"; "uuid"; "jsonb"; "array"; "object"].

Fixpoint validateFields (fields : list JSON) (errors : list Msg)
  : Msg + list Msg :=
  match fields with
  | [] => inr errors
  | field :: r =>
      match read field "name" with
      | inl m => inl m
      | inr name =>
          let errors :=
            push_if (negb (truthy name))
                    [Txt "Field missing required property: name"] errors in
          let ty := prop field "type" in
          let errors :=
            push_if (truthy ty && negb (includes validFieldTypes_update ty))
                    [Txt ("Invalid field type: " ++ to_string ty)] errors in
          validateFields r errors
      end
  end.

Definition validateUpdateDataModel (appId : string) (operation : JSON) (db : DB)
  : Msg + list Msg :=
  if negb (truthy (prop operation "model")) then
    inr [[Txt "Missing required field: model"]]
  else
    match prop operation "fields" with
    | JArr fields => validateFields fields []
    | _ => inr []
    end.

Definition validateUpdateTheme (operation : JSON) : Msg + list Msg :=
  let theme := prop operation "theme" in
  if negb (truthy theme) then inr [[Txt "Missing required field: theme"]]
  else
    inr (push_if (negb (includes ["light"; "dark"; "auto"] theme))
                 [Txt ("Invalid theme: " ++ to_string theme
                       ++ ". Must be one of: light, dark, auto")] []).

Definition validateAddPermission (appId : string) (operation : JSON) (db : DB)
  : Msg + list Msg :=
  let permission := prop operation "permission" in
  if negb (truthy permission) then
    inr [[Txt "Missing required field: permission"]]
  else
    let action := prop permission "action" in
    let errors := push_if (negb (truthy (prop permission "resource")))
                          [Txt "Permission missing required field: resource"]
                          [] in
    let errors := push_if (negb (truthy action))
                          [Txt "Permission missing required field: action"]
                          errors in
    inr (push_if (truthy action
                  && negb (includes ["read"; "write"; "delete"; "admin"] action))
                 [Txt ("Invalid action: " ++ to_string action
                       ++ ". Must be one of: read, write, delete, admin")]
                 errors).

Definition validateUpdateLayout (appId : string) (operation : JSON) (db : DB)
  : Msg + list Msg :=
  let layout := prop operation "layout" in
  let page := prop operation "page" in
  let errors := push_if (negb (truthy layout))
                        [Txt "Missing required field: layout"] [] in
  let errors := push_if (negb (truthy page))
                        [Txt "Missing required field: page"] errors in
  let errors := push_if (truthy page && missing appId "page" page db)
                        (quoted "Page " page " does not exist") errors in
  inr (push_if (truthy layout && missing appId "layout" layout db)
               (quoted "Layout " layout " does not exist") errors).

(** [components.some((c) => c.id === componentId)] *)
Fixpoint some_component (componentId : JSON) (components : list JSON)
  : Msg + bool :=
  match components with
  | [] => inr false
  | c :: r =>
      match read c "id" with
      | inl m => inl m
      | inr cid => if strict_eq cid componentId then inr true
                   else some_component componentId r
      end
  end.

Definition validateRemoveComponent (appId : string) (operation : JSON) (db : DB)
  : Msg + list Msg :=
  let page := prop operation "page" in
  let componentId := prop operation "componentId" in
  let errors := push_if (negb (truthy page))
                        [Txt "Missing required field: page"] [] in
  let errors := push_if (negb (truthy componentId))
                        [Txt "Missing required field: componentId"] errors in
  if negb (truthy page) then inr errors
  else
    match cfg_select_single appId "page" (to_string page) db with
    | None => inr (errors ++ [quoted "Page " page " does not exist"])%list
    | Some pageConfig =>
        if negb (truthy componentId) then inr errors
        else
          match read (cfg_value pageConfig) "components" with
          | inl m => inl m
          | inr components =>
              if negb (truthy components) then inr errors
              else
                match components with
                | JArr cs =>
                    match some_component componentId cs with
                    | inl m => inl m
                    | inr componentExists =>
                        inr (push_if (negb componentExists)
                               [Txt ("Component with id " ++ dq
                                     ++ to_string componentId ++ dq
                                     ++ " does not exist on page " ++ dq
                                     ++ to_string page ++ dq)] errors)
                    end
                | _ => inl [Txt "pageValue.components.some is not a function"]
                end
          end
    end.

Definition validateRemovePage (appId : string) (operation : JSON) (db : DB)
  : Msg + list Msg :=
  let page := prop operation "page" in
  if negb (truthy page) then inr [[Txt "Missing required field: page"]]
  else inr (push_if (missing appId "page" page db)
                    (quoted "Page " page " does not exist") []).

(** [validateOperation]: the errors of one operation. *)
Definition validateOperation (appId : string) (operation : JSON) (db : DB)
  : Msg + list Msg :=
  match read operation "type" with
  | inl m => inl m
  | inr ty =>
      if negb (includes validOperationTypes ty) then
        inr [[Txt ("Invalid operation type: " ++ to_string ty)]]
      else
        match ty with
        | JStr "add_component" => validateAddComponent appId operation db
        | JStr "add_page" => validateAddPage appId operation db
        | JStr "update_data_model" => validateUpdateDataModel appId operation db
        | JStr "update_theme" => validateUpdateTheme operation
        | JStr "add_permission" => validateAddPermission appId operation db
        | JStr "update_layout" => validateUpdateLayout appId operation db
        | JStr "remove_component" => validateRemoveComponent appId operation db
        | JStr "remove_page" => validateRemovePage appId operation db
        | _ => inr []
        end
  end.

(** [errors.join(sep)] *)
Fixpoint join_msgs (sep : string) (ms : list Msg) : Msg :=
  match ms with
  | [] => []
  | [m] => m
  | m :: r => (m ++ Txt sep :: join_msgs sep r)%list
  end.

(** The elements that an index loop or a [for ... of] loop visits: those
    of an array, the characters of a string.  (An object that carries its
    own [length] property is not told apart from one that does not.) *)
Definition elements (v : JSON) : option (list JSON) :=
  match v with
  | JArr xs => Some xs
  | JStr s => Some (chars s)
  | _ => None
  end.

(** [validateOperations]: one message per invalid operation, numbered
    from 1. *)
Fixpoint validateEach (appId : string) (operations : list JSON) (i : nat)
    (db : DB) (allErrors : list Msg) : Msg + list Msg :=
  match operations with
  | [] => inr allErrors
  | operation :: r =>
      match validateOperation appId operation db with
      | inl m => inl m
      | inr [] => validateEach appId r (S i) db allErrors
      | inr errors =>
          validateEach appId r (S i) db
            (allErrors
               ++ [Txt ("Operation " ++ pretty (S i) ++ " ("
                        ++ to_string (prop operation "type") ++ "): ")
                   :: join_msgs ", " errors])%list
      end
  end.

Definition validateOperations (appId : string) (operations : JSON) (db : DB)
  : Msg + list Msg :=
  match operations with
  | JUndefined | JNull =>
      inl [Txt ("Cannot read properties of " ++ to_string operations
                ++ " (reading 'length')")]
  | _ =>
      match elements operations with
      | Some xs => validateEach appId xs 0 db []
      | None => inr []
      end
  end.

(** ** The bulk apply path [pages/api/apply-operations.ts] *)

(** [pageValue.components.filter((c) => c.id !== componentId)] *)
Fixpoint without_component (componentId : JSON) (components : list JSON)
  : Msg + list JSON :=
  match components with
  | [] => inr []
  | c :: r =>
      match read c "id" with
      | inl m => inl m
      | inr cid =>
          match without_component componentId r with
          | inl m => inl m
          | inr r' => inr (if strict_eq cid componentId then r' else c :: r')
          end
      end
  end.

(** [o.k = v] outside the handler monad. *)
Definition assign (o : JSON) (k : string) (v : JSON) : Msg + JSON :=
  match o with
  | JObj fs => inr (JObj (obj_set k v fs))
  | JArr _ => inr o
  | _ => inl [Txt ("Cannot create property '" ++ k ++ "' on " ++ to_string o)]
  end.

Definition applyAddComponent (appId : string) (operation : JSON) (db : DB)
  : DB * (Msg + unit) :=
  let page := prop operation "page" in
  let component := prop operation "component" in
  match cfg_select_single appId "page" (to_string page) db with
  | None => (db, inl (quoted "Page " page " not found"))
  | Some pageConfig =>
      let pageValue := cfg_value pageConfig in
      match read pageValue "components", pageValue with
      | inl m, _ => (db, inl m)
      | inr _, JArr _ =>
          (* the property is set on the array object; the value written
             back is the same array *)
          (cfg_update appId "page" (to_string page) pageValue db, inr tt)
      | inr components, _ =>
          match (if truthy components then inr pageValue
                 else assign pageValue "components" (JArr [])) with
          | inl m => (db, inl m)
          | inr pageValue =>
              let componentId :=
                js_or (prop component "id")
                      (JStr ("comp-" ++ pretty (clock db))) in
              match prop pageValue "components" with
              | JArr cs =>
                  match assign pageValue "components"
                          (JArr (cs ++ [JObj (obj_assign [("id", componentId)]
                                                         (spread component))])%list)
                  with
                  | inl m => (db, inl m)
                  | inr pageValue =>
                      (cfg_update appId "page" (to_string page) pageValue db,
                       inr tt)
                  end
              | _ =>
                  (db, inl [Txt "pageValue.components.push is not a function"])
              end
          end
      end
  end.

Definition applyAddPage (appId : string) (operation : JSON) (db : DB)
  : DB * (Msg + unit) :=
  let page := prop operation "page" in
  match read page "slug" with
  | inl m => (db, inl m)
  | inr slug => (cfg_insert appId "page" (to_string slug) page db, inr tt)
  end.

Definition applyUpdateDataModel (appId : string) (operation : JSON) (db : DB)
  : DB * (Msg + unit) :=
  let model := prop operation "model" in
  let fields := prop operation "fields" in
  let existingModel :=
    cfg_select_single appId "data_model" (to_string model) db in
  let modelValue :=
    match existingModel with
    | Some row => spread (cfg_value row)
    | None => [("name", model); ("fields", JArr [])]
    end in
  let modelValue :=
    if truthy fields then obj_set "fields" fields modelValue else modelValue in
  match existingModel with
  | Some _ =>
      (cfg_update appId "data_model" (to_string model) (JObj modelValue) db,
       inr tt)
  | None =>
      (cfg_insert appId "data_model" (to_string model) (JObj modelValue) db,
       inr tt)
  end.

Definition applyUpdateTheme (appId : string) (operation : JSON) (db : DB)
  : DB * (Msg + unit) :=
  (cfg_upsert appId "schema" "theme"
              (JObj [("theme", prop operation "theme")]) db,
   inr tt).

Definition applyAddPermission (appId : string) (operation : JSON) (db : DB)
  : DB * (Msg + unit) :=
  let rules :=
    match cfg_select_single appId "permissions" "rules" db with
    | Some row =>
        match read (cfg_value row) "rules" with
        | inl m => inl m
        | inr r => inr (js_or r (JArr []))
        end
    | None => inr (JArr [])
    end in
  match rules with
  | inl m => (db, inl m)
  | inr (JArr rs) =>
      (cfg_upsert appId "permissions" "rules"
                  (JObj [("rules",
                          JArr (rs ++ [prop operation "permission"])%list)])
                  db,
       inr tt)
  | inr _ => (db, inl [Txt "rules.push is not a function"])
  end.

Definition applyUpdateLayout (appId : string) (operation : JSON) (db : DB)
  : DB * (Msg + unit) :=
  let page := prop operation "page" in
  (cfg_update appId "page" (to_string page)
              (JObj (obj_set "layout" (prop operation "layout") (spread page)))
              db,
   inr tt).

Definition applyRemoveComponent (appId : string) (operation : JSON) (db : DB)
  : DB * (Msg + unit) :=
  let page := prop operation "page" in
  match cfg_select_single appId "page" (to_string page) db with
  | None => (db, inl (quoted "Page " page " not found"))
  | Some pageConfig =>
      let pageValue := cfg_value pageConfig in
      match read pageValue "components" with
      | inl m => (db, inl m)
      | inr components =>
          let updated :=
            if truthy components then
              match components with
              | JArr cs =>
                  match without_component (prop operation "componentId") cs with
                  | inl m => inl m
                  | inr cs' => assign pageValue "components" (JArr cs')
                  end
              | _ => inl [Txt "pageValue.components.filter is not a function"]
              end
            else inr pageValue in
          match updated with
          | inl m => (db, inl m)
          | inr pageValue =>
              (cfg_update appId "page" (to_string page) pageValue db, inr tt)
          end
      end
  end.

Definition applyRemovePage (appId : string) (operation : JSON) (db : DB)
  : DB * (Msg + unit) :=
  (cfg_delete appId "page" (to_string (prop operation "page")) db, inr tt).

(** [switch (operation.type)]: the apply function of the operation type,
    if it has one. *)
Definition apply_one (appId : string) (operation ty : JSON) (db : DB)
  : option (DB * (Msg + unit)) :=
  if strict_eq ty (JStr "add_component") then
    Some (applyAddComponent appId operation db)
  else if strict_eq ty (JStr "add_page") then
    Some (applyAddPage appId operation db)
  else if strict_eq ty (JStr "update_data_model") then
    Some (applyUpdateDataModel appId operation db)
  else if strict_eq ty (JStr "update_theme") then
    Some (applyUpdateTheme appId operation db)
  else if strict_eq ty (JStr "add_permission") then
    Some (applyAddPermission appId operation db)
  else if strict_eq ty (JStr "update_layout") then
    Some (applyUpdateLayout appId operation db)
  else if strict_eq ty (JStr "remove_component") then
    Some (applyRemoveComponent appId operation db)
  else if strict_eq ty (JStr "remove_page") then
    Some (applyRemovePage appId operation db)
  else None.

(** The result of [applyOperations]: [{ success: true }] or
    [{ success: false, error }]. *)
Fixpoint applyEach (appId : string) (operations : list JSON) (db : DB)
  : DB * (Msg + unit) :=
  match operations with
  | [] => (db, inr tt)
  | operation :: r =>
      match read operation "type" with
      | inl m => (db, inl m)
      | inr ty =>
          match apply_one appId operation ty db with
          | None =>
              (db, inl [Txt ("Unknown operation type: " ++ to_string ty)])
          | Some (db', inl m) => (db', inl m)
          | Some (db', inr _) => applyEach appId r db'
          end
      end
  end.

Definition applyOperations (appId : string) (operations : JSON) (db : DB)
  : DB * (Msg + unit) :=
  match elements operations with
  | Some xs => applyEach appId xs db
  | None => (db, inl [Txt "operations is not iterable"])
  end.

(** [max(version_number)]: null for an app without versions. *)
Definition max_version (numbers : list Z) : option Z :=
  match numbers with
  | [] => None
  | n :: r => Some (fold_right Z.max n r)
  end.

(** [buildr_get_next_version_number]:
    [coalesce(max(version_number), 0) + 1] over the versions of the app.
    The fallback of [createVersionSnapshot] gives the same number (the
    highest version plus one, 1 when the app has none).  Version numbers
    are mathematical integers here; the column is a 32-bit integer. *)
Definition next_version_number (a : string) (versions : list VersionRow) : Z :=
  default 0%Z
    (max_version
       (map version_number
            (List.filter (fun r => ver_app_id r =? a) versions))) + 1.

(** One round of the loop that builds [configSnapshot]. *)
Definition snapshot_row (row : ConfigRow) (configSnapshot : list (string * JSON))
  : Msg + list (string * JSON) :=
  let value := cfg_value row in
  let nested (k : string) :=
    let o := default (JObj []) (assoc k configSnapshot) in
    obj_set k (JObj (obj_set (cfg_key row) value (spread o))) configSnapshot in
  match cfg_type row with
  | "page" =>
      let pages := match assoc "pages" configSnapshot with
                   | Some (JArr ps) => ps
                   | _ => []
                   end in
      inr (obj_set "pages"
             (JArr (pages
                    ++ [JObj (obj_set "slug" (JStr (cfg_key row))
                                (obj_assign
                                   [("id", JNum (Z.of_nat (cfg_id row)))]
                                   (spread value)))])%list)
             configSnapshot)
  | "data_model" => inr (nested "dataModels")
  | "schema" =>
      match read value "theme" with
      | inl m => inl m
      | inr theme =>
          let s := obj_set "schema" value configSnapshot in
          inr (if truthy theme then obj_set "theme" theme s else s)
      end
  | "permissions" => inr (obj_set "permissions" value configSnapshot)
  | "layout" => inr (nested "layouts")
  | "component" => inr (nested "components")
  | _ => inr configSnapshot
  end.

Fixpoint snapshot_rows (rows : list ConfigRow)
    (configSnapshot : list (string * JSON)) : Msg + list (string * JSON) :=
  match rows with
  | [] => inr configSnapshot
  | row :: r =>
      match snapshot_row row configSnapshot with
      | inl m => inl m
      | inr s => snapshot_rows r s
      end
  end.

Definition build_snapshot (a : string) (db : DB) : Msg + JSON :=
  match snapshot_rows
          (List.filter (fun r => cfg_app_id r =? a) (app_config db))
          [("pages", JArr []); ("dataModels", JObj [])] with
  | inl m => inl m
  | inr s => inr (JObj s)
  end.

Definition with_versions (versions : list VersionRow) (db : DB) : DB :=
  mkDB (apps db) (operations_log db) (execution_steps db) (app_spec db)
       (app_operations db) (app_config db) versions (next_id db) (clock db).

(** [createVersionSnapshot]: an error while building the snapshot is
    logged and swallowed. *)
Definition createVersionSnapshot (appId : string) (userId : option string)
    (operationId : nat) (chatMessageId : option string) (db : DB) : DB :=
  let versionNumber := next_version_number appId (app_versions db) in
  match build_snapshot appId db with
  | inl _ => db
  | inr configSnapshot =>
      with_versions
        (app_versions db
         ++ [mkVersionRow appId userId operationId chatMessageId
                          versionNumber configSnapshot])%list db
  end.

Definition with_app_operations (rows : list AppOpRow) (db : DB) : DB :=
  mkDB (apps db) (operations_log db) (execution_steps db) (app_spec db)
       rows (app_config db) (app_versions db) (next_id db) (clock db).

(** [.update({ status: "failed", error_message }).eq("id", id)] *)
Definition mark_app_operation_failed (id : nat) (m : Msg) (db : DB) : DB :=
  with_app_operations
    (map (fun r => if (aop_id r =? id)%nat
                   then mkAppOpRow (aop_id r) (aop_app_id r) (aop_user_id r)
                                   (aop_chat_message_id r) (aop_operations r)
                                   failed (Some m) (aop_applied_at r)
                                   (aop_created_at r)
                   else r) (app_operations db)) db.

(** [.update({ status: "applied", applied_at: now }).eq("id", id)] *)
Definition mark_app_operation_applied (id : nat) (db : DB) : DB :=
  with_app_operations
    (map (fun r => if (aop_id r =? id)%nat
                   then mkAppOpRow (aop_id r) (aop_app_id r) (aop_user_id r)
                                   (aop_chat_message_id r) (aop_operations r)
                                   applied (aop_error_message r)
                                   (Some (clock db)) (aop_created_at r)
                   else r) (app_operations db)) db.

(** The body of the loop over pending operations: validate, apply,
    snapshot, mark applied; [true] when the operation was applied. *)
Definition process_operation (operation : AppOpRow) (db : DB) : DB * bool :=
  match validateOperations (aop_app_id operation) (aop_operations operation) db
  with
  | inl m => (mark_app_operation_failed (aop_id operation) m db, false)
  | inr (e :: es) =>
      (mark_app_operation_failed (aop_id operation)
                                 (join_msgs "; " (e :: es)) db, false)
  | inr [] =>
      match applyOperations (aop_app_id operation) (aop_operations operation) db
      with
      | (db, inl error) =>
          (mark_app_operation_failed (aop_id operation) error db, false)
      | (db, inr _) =>
          let db := createVersionSnapshot (aop_app_id operation)
                      (aop_user_id operation) (aop_id operation)
                      (sent (aop_chat_message_id operation)) db in
          (mark_app_operation_applied (aop_id operation) db, true)
      end
  end.

Fixpoint process_operations (operations : list AppOpRow) (db : DB)
    (applied_n failed_n : nat) : DB * (nat * nat) :=
  match operations with
  | [] => (db, (applied_n, failed_n))
  | operation :: r =>
      match process_operation operation db with
      | (db, true) => process_operations r db (S applied_n) failed_n
      | (db, false) => process_operations r db applied_n (S failed_n)
      end
  end.

Inductive ApplyData : Type :=
| ApOk (processed applied_n failed_n : nat)
| ApError (error : Msg).

Definition pending_app_operations (appId : option string)
    (operationId : option nat) (rows : list AppOpRow) : list AppOpRow :=
  order_by aop_created_at
    (List.filter
       (fun o =>
          Status_eqb (aop_status o) pending
          && match operationId, appId with
             | Some i, _ => (aop_id o =? i)%nat
             | None, Some a => aop_app_id o =? a
             | None, None => true
             end) rows).

(** The handler.  [user] is the answer of the authentication service for
    the access token. *)
Definition apply_operations (method : string) (accessToken : JSON)
    (user : option string) (appId : option string) (operationId : option nat)
    (db : DB) : DB * (nat * ApplyData) :=
  if negb (method =? "POST") then
    (db, (405%nat, ApError [Txt "Method not allowed"]))
  else if negb (truthy accessToken) || negb (is_string accessToken) then
    (db, (401%nat, ApError [Txt "Missing or invalid access token"]))
  else
    match user with
    | None => (db, (401%nat, ApError [Txt "Invalid or expired access token"]))
    | Some _ =>
        match sent appId, operationId with
        | None, None =>
            (db, (400%nat, ApError [Txt "appId or operationId is required"]))
        | a, o =>
            let operations := pending_app_operations a o (app_operations db) in
            match operations with
            | [] => (db, (200%nat, ApOk 0 0 0))
            | _ =>
                let '(db', (applied_n, failed_n)) :=
                  process_operations operations db 0 0 in
                (db', (200%nat, ApOk (length operations) applied_n failed_n))
            end
        end
    end.

(** ** The bulk step runner [pages/api/buildr/run/[appId].ts] *)

Record RunResult : Type := mkRunResult {
  rr_operationId : nat;
  rr_success : bool;
  rr_error : option Msg
}.

Inductive RunData : Type :=
| RunOk (processed applied_n failed_n : nat) (results : list RunResult)
| RunError (error : Msg).

(** The loop over the steps of one operation: every step is run, the
    errors are collected; a thrown error ends the loop. *)
Fixpoint run_steps (appId : string) (steps : list JSON) (i : nat) (db : DB)
    (stepErrors : list Msg) : DB * (Msg + list Msg) :=
  match steps with
  | [] => (db, inr stepErrors)
  | step :: r =>
      match read step "type" with
      | inl m => (db, inl m)
      | inr ty =>
          if negb (truthy ty) then
            run_steps appId r (S i) db
              (stepErrors
                 ++ [[Txt ("Step " ++ pretty (S i)
                           ++ ": missing required field 'type'")]])%list
          else
            let '(tbl, stepResult) :=
              executeStepHandler (clock db) appId step None None (app_spec db) in
            let db := with_spec tbl db in
            match stepResult with
            | Success _ => run_steps appId r (S i) db stepErrors
            | Failure error =>
                run_steps appId r (S i) db
                  (stepErrors
                     ++ [Txt ("Step " ++ pretty (S i) ++ " ("
                              ++ to_string ty ++ "): ") :: error])%list
            end
      end
  end.

Definition set_operation (id : nat) (st : Status) (error : option Msg)
    (applied_at : option Z) (r : OpRow) : OpRow :=
  if (op_id r =? id)%nat then
    mkOpRow (op_id r) (op_app_id r) (op_operations r) st error applied_at
            (op_build_request_id r) (op_created_at r)
  else r.

(** [.update({ status: "processing" }).eq("id", id)] *)
Definition mark_operation_processing (id : nat) (db : DB) : DB :=
  with_operations_log
    (map (fun r => set_operation id processing (op_error_message r)
                                 (op_applied_at r) r) (operations_log db)) db.

(** [.update({ status: "applied", applied_at: now, error_message: null })
     .eq("id", id)] *)
Definition mark_operation_applied (id : nat) (db : DB) : DB :=
  with_operations_log
    (map (set_operation id applied None (Some (clock db)))
         (operations_log db)) db.

(** [.update({ status: "failed", error_message }).eq("id", id)] *)
Definition mark_operation_failed (id : nat) (m : Msg) (db : DB) : DB :=
  with_operations_log
    (map (fun r => set_operation id failed (Some m) (op_applied_at r) r)
         (operations_log db)) db.

(** The body of the loop over pending operations. *)
Definition run_operation (appId : string) (operation : OpRow) (db : DB)
  : DB * RunResult :=
  let operationId := op_id operation in
  let db := mark_operation_processing operationId db in
  let failed_with (db : DB) (m : Msg) :=
    (mark_operation_failed operationId m db,
     mkRunResult operationId false (Some m)) in
  match op_operations operation with
  | JArr (s :: ss) =>
      match run_steps appId (s :: ss) 0 db [] with
      | (db, inl m) => failed_with db m
      | (db, inr []) =>
          (mark_operation_applied operationId db,
           mkRunResult operationId true None)
      | (db, inr stepErrors) => failed_with db (join_msgs "; " stepErrors)
      end
  | _ => failed_with db [Txt "Invalid operations format: expected array of steps"]
  end.

Fixpoint run_operations (appId : string) (operations : list OpRow) (db : DB)
    (applied_n failed_n : nat) (results : list RunResult)
  : DB * (nat * nat * list RunResult) :=
  match operations with
  | [] => (db, (applied_n, failed_n, results))
  | operation :: r =>
      let '(db, result) := run_operation appId operation db in
      if rr_success result then
        run_operations appId r db (S applied_n) failed_n
                       (results ++ [result])%list
      else
        run_operations appId r db applied_n (S failed_n)
                       (results ++ [result])%list
  end.

Definition run_app (method : string) (appId : JSON) (db : DB)
  : DB * (nat * RunData) :=
  if negb (method =? "POST") then
    (db, (405%nat, RunError [Txt "Method not allowed"]))
  else if negb (truthy appId) || negb (is_string appId) then
    (db, (400%nat, RunError [Txt "appId is required"]))
  else
    let a := to_string appId in
    match lookup_app a db with
    | None => (db, (404%nat, RunError [Txt "App not found"]))
    | Some _ =>
        let operations :=
          pending_operations (Some a) None (operations_log db) in
        match operations with
        | [] => (db, (200%nat, RunOk 0 0 0 []))
        | _ =>
            let '(db', (applied_n, failed_n, results)) :=
              run_operations a operations db 0 0 [] in
            (db', (200%nat,
                   RunOk (length operations) applied_n failed_n results))
        end
    end.

(** ** The app config loader [lib/appConfig.ts]

    [select("*")] yields every column of a row; the row id, which the
    spec table of this embedding does not carry, comes paired with the
    row. *)

(** [config.pages.push({ id: row.id, ...value, slug: row.config_key })] *)
Definition push_page (id : string) (row : SpecRow)
    (config : list (string * JSON)) : list (string * JSON) :=
  let pages := match assoc "pages" config with
               | Some (JArr ps) => ps
               | _ => []
               end in
  obj_set "pages"
    (JArr (pages
           ++ [JObj (obj_set "slug" (JStr (config_key row))
                       (obj_assign [("id", JStr id)]
                                   (spread (config_value row))))])%list)
    config.

(** [config[k][row.config_key] = value], after
    [if (!config[k]) config[k] = {}]. *)
Definition set_nested (k : string) (row : SpecRow)
    (config : list (string * JSON)) : list (string * JSON) :=
  let o := default (JObj []) (assoc k config) in
  obj_set k (JObj (obj_set (config_key row) (config_value row) (spread o)))
          config.

(** One round of the loop over the rows: [switch (row.config_type)]. *)
Definition load_row (id : string) (row : SpecRow)
    (config : list (string * JSON)) : Msg + list (string * JSON) :=
  let t := config_type row in
  let value := config_value row in
  if t =? "ui" then inr (push_page id row config)
  else if t =? "page" then inr (push_page id row config)
  else if t =? "architecture" then inr (set_nested "dataModels" row config)
  else if t =? "data_model" then inr (set_nested "dataModels" row config)
  else if t =? "schema" then
    match read value "theme" with
    | inl m => inl m
    | inr theme =>
        let c := obj_set "schema" value config in
        inr (if truthy theme then obj_set "theme" theme c else c)
    end
  else if t =? "permissions" then inr (obj_set "permissions" value config)
  else if t =? "layout" then inr (set_nested "layouts" row config)
  else if t =? "component" then inr (set_nested "components" row config)
  else inr config.

Fixpoint load_rows (rows : list (string * SpecRow))
    (config : list (string * JSON)) : Msg + list (string * JSON) :=
  match rows with
  | [] => inr config
  | (id, row) :: r =>
      match load_row id row config with
      | inl m => inl m
      | inr c => load_rows r c
      end
  end.

(** [getAppConfig]: the config object, or [null] when building it throws. *)
Definition getAppConfig (appId : string) (table : list (string * SpecRow))
  : JSON :=
  let configs :=
    List.filter (fun r => spec_app_id (snd r) =? appId) table in
  match configs with
  | [] => JObj [("pages", JArr []); ("dataModels", JObj [])]
  | _ =>
      match load_rows configs [("pages", JArr []); ("dataModels", JObj [])] with
      | inl _ => JNull
      | inr config => JObj config
      end
  end.

(** [getAppConfigAtVersion]: the stored snapshot, or [null]. *)
Definition getAppConfigAtVersion (appId : string) (versionNumber : Z)
    (versions : list VersionRow) : JSON :=
  match single (List.filter
                  (fun r => (ver_app_id r =? appId)
                            && (version_number r =? versionNumber)%Z)
                  versions) with
  | Some version => config_snapshot version
  | None => JNull
  end.

(** ** The earlier run-one-step handler (server/api, with a simulated
    executor)

    It works on the steps table as its schema file declares it: a text
    column [step_type], and the columns [error_message], [started_at] and
    [completed_at]. *)

Record LegacyStep : Type := mkLegacyStep {
  ls_id : nat;
  ls_app_id : string;
  ls_step_index : Z;
  ls_step_type : string;
  ls_status : Status;
  ls_error_message : option Msg;
  ls_started_at : option Z;
  ls_completed_at : option Z
}.

Inductive LegacyResponse : Type :=
| LDone
| LApplied (step : LegacyStep)
| LError (statusCode : nat) (statusMessage : Msg).

(** The simulated [executeStep]: the four known types do nothing, any
    other type throws. *)
Definition legacy_executeStep (step : LegacyStep) : Msg + unit :=
  let t := ls_step_type step in
  if t =? "create_model" then inr tt
  else if t =? "create_page" then inr tt
  else if t =? "create_component" then inr tt
  else if t =? "set_permissions" then inr tt
  else inl [Txt ("Unknown step type: " ++ t)].

Definition legacy_pending_of (a : string) (r : LegacyStep) : bool :=
  (ls_app_id r =? a) && Status_eqb (ls_status r) pending.

Definition legacy_next (a : string) (steps : list LegacyStep)
  : option LegacyStep :=
  single (firstn 1 (order_by ls_step_index
                             (List.filter (legacy_pending_of a) steps))).

(** [.update({ status: "processing", started_at }).eq("id", id)] *)
Definition legacy_mark_processing (id : nat) (now : Z) (r : LegacyStep)
  : LegacyStep :=
  if (ls_id r =? id)%nat then
    mkLegacyStep (ls_id r) (ls_app_id r) (ls_step_index r) (ls_step_type r)
                 processing (ls_error_message r) (Some now)
                 (ls_completed_at r)
  else r.

(** [.update({ status: "applied", completed_at, error_message: null })
     .eq("id", id)] *)
Definition legacy_mark_applied (id : nat) (now : Z) (r : LegacyStep)
  : LegacyStep :=
  if (ls_id r =? id)%nat then
    mkLegacyStep (ls_id r) (ls_app_id r) (ls_step_index r) (ls_step_type r)
                 applied None (ls_started_at r) (Some now)
  else r.

(** [.update({ status: "failed", error_message, completed_at })
     .eq("id", id)] *)
Definition legacy_mark_failed (id : nat) (m : Msg) (now : Z) (r : LegacyStep)
  : LegacyStep :=
  if (ls_id r =? id)%nat then
    mkLegacyStep (ls_id r) (ls_app_id r) (ls_step_index r) (ls_step_type r)
                 failed (Some m) (ls_started_at r) (Some now)
  else r.

(** The handler; [started] and [completed] are the times read by the two
    updates. *)
Definition legacy_run_step (app_id_param : JSON) (started completed : Z)
    (steps : list LegacyStep) : list LegacyStep * LegacyResponse :=
  if negb (truthy app_id_param) then
    (steps, LError 400 [Txt "Missing app_id"])
  else
    match legacy_next (to_string app_id_param) steps with
    | None => (steps, LDone)
    | Some step =>
        let steps :=
          map (legacy_mark_processing (ls_id step) started) steps in
        match legacy_executeStep step with
        | inr _ =>
            (map (legacy_mark_applied (ls_id step) completed) steps,
             LApplied step)
        | inl errorMessage =>
            (map (legacy_mark_failed (ls_id step) errorMessage completed)
                 steps,
             LError 500 (Txt "Step execution failed: " :: errorMessage))
        end
    end.

(** * Definitions used by the statements *)

(** ** Specification-level definitions *)

(** The alias table and the canonical set, as the specification lists
    them. *)
Definition alias_table : list (string * string) :=
  [("string", "text"); ("integer", "number"); ("datetime", "timestamptz");
   ("reference", "uuid"); ("authentication", "jsonb")].

Definition canonical_types : list string :=
  ["text"; "number"; "boolean"; "date"; "timestamptz"; "uuid"; "jsonb";
   "array"; "object"].

Fixpoint table_lookup (k : string) (t : list (string * string)) : option string :=
  match t with
  | [] => None
  | (a, c) :: r => if a =? k then Some c else table_lookup k r
  end.

(** Lower-case, then replace an alias by its canonical name. *)
Definition normalize_by_table (s : string) : string :=
  let l := toLowerCase s in default l (table_lookup l alias_table).

(** ** Read-only computations (used by the proofs)

    A [check] reads the table and either yields a value, returns a failure
    or throws; it never writes and never returns success. *)

Definition aborted {A : Type} (s : list SpecRow)
    (r : list SpecRow * (Exit + A)) : Prop :=
  match r with
  | (s', inl (Return (Failure _))) => s' = s
  | (s', inl (Throw _)) => s' = s
  | _ => False
  end.

Definition check {A : Type} (c : M A) : Prop :=
  forall s, match c s with
            | (s', inr _) => s' = s
            | r => aborted s r
            end.

(** ** The stored permission ruleset, as the properties read it *)

(** The rules of the app's [permissions]/[rules] entry. *)
Definition stored_rules (appId : string) (tbl : list SpecRow) : list JSON :=
  match spec_select_single appId "permissions" "rules" tbl with
  | Some row =>
      match js_or (prop (config_value row) "rules") (JArr []) with
      | JArr xs => xs
      | _ => []
      end
  | None => []
  end.

(** The entry, when present, is an object whose [rules] is absent or an
    array of objects: the shape that [handleSetPermissions] writes. *)
Definition ruleset_ok (appId : string) (tbl : list SpecRow) : Prop :=
  match spec_select_single appId "permissions" "rules" tbl with
  | Some row =>
      is_obj (config_value row) = true
      /\ exists xs, js_or (prop (config_value row) "rules") (JArr []) = JArr xs
                    /\ forallb is_obj xs = true
  | None => True
  end.

(** An explicit permission triple and a permission without a role. *)
Definition triple (resource action role : string) : JSON :=
  JObj [("resource", JStr resource); ("action", JStr action);
        ("role", JStr role)].

Definition roleless (resource action : string) : JSON :=
  JObj [("resource", JStr resource); ("action", JStr action)].

(** A stored rule carries exactly this resource, action and role. *)
Definition is_triple (resource action role : string) (rule : JSON) : bool :=
  strict_eq (prop rule "resource") (JStr resource)
  && strict_eq (prop rule "action") (JStr action)
  && strict_eq (prop rule "role") (JStr role).


Definition count_rules (p : JSON -> bool) (rules : list JSON) : nat :=
  length (List.filter p rules).

(** The merge of one permission, on rules that are all objects. *)
Definition matchb (newPermission rule : JSON) : bool :=
  strict_eq (prop rule "resource") (prop newPermission "resource")
  && strict_eq (prop rule "action") (prop newPermission "action")
  && strict_eq (prop rule "role")
               (js_or (prop newPermission "role") (JStr "user")).

Fixpoint find0 (p : JSON -> bool) (l : list JSON) : option nat :=
  match l with
  | [] => None
  | x :: r => if p x then Some 0%nat else option_map S (find0 p r)
  end.

Fixpoint merge_one (p : JSON -> bool) (np : JSON) (l : list JSON) : list JSON :=
  match l with
  | [] => [np]
  | x :: r => if p x then np :: r else x :: merge_one p np r
  end.

(** The table after [set_permissions] has merged the single entry [np]. *)
Definition permissions_written (appId : string) (np : JSON)
    (buildRequestId userId : option string) (tbl : list SpecRow)
  : list SpecRow :=
  spec_upsert appId "permissions" "rules"
    (JObj [("rules",
            JArr (merge_one (matchb np) np (stored_rules appId tbl)))])
    userId buildRequestId tbl.

(** ** Steps, operations and tables, as the properties read them *)

(** What [.update({ status: st }).eq("id", id)] does to one row. *)
Definition restatus (id : nat) (st : Status) (r : StepRow) : StepRow :=
  if (step_id r =? id)%nat then set_step_status st r else r.

Definition expansion_db (e : Expansion) : DB :=
  match e with
  | Expanding db _ _ => db
  | Thrown db _ => db
  end.

(** The steps linked to operation [o]. *)
Definition steps_of (o : nat) (steps : list StepRow) : list StepRow :=
  List.filter (fun s => match step_operation_id s with
                        | Some o' => (o' =? o)%nat
                        | None => false
                        end) steps.

(** A step linked to an operation carries that operation's app. *)
Definition steps_match_apps (db : DB) : Prop :=
  forall s op, In s (execution_steps db) -> In op (operations_log db) ->
               step_operation_id s = Some (op_id op) ->
               step_app_id s = op_app_id op.

(** An operation needs no expansion: it has no descriptors, or a step is
    already linked to it. *)
Definition settled (operation : OpRow) (db : DB) : bool :=
  match op_operations operation with
  | JArr (_ :: _) => existsb (linked_to operation) (execution_steps db)
  | _ => true
  end.

(** The app has no step without owning operation. *)
Definition no_orphans (a : string) (db : DB) : Prop :=
  forall s, In s (execution_steps db) -> step_app_id s = a ->
            step_operation_id s <> None.

(** Operation ids determine the operation's app (ids are a primary key). *)
Definition op_ids_key (db : DB) : Prop :=
  forall op op', In op (operations_log db) -> In op' (operations_log db) ->
                 op_id op = op_id op' -> op_app_id op = op_app_id op'.

(** Every linked step of the first database is still in the second. *)
Definition keeps_linked (db db' : DB) : Prop :=
  forall s, In s (execution_steps db) -> step_operation_id s <> None ->
            In s (execution_steps db').

(** The tables that the config operations leave alone. *)
Definition same_but_config (db db' : DB) : Prop :=
  app_versions db' = app_versions db
  /\ app_operations db' = app_operations db
  /\ operations_log db' = operations_log db
  /\ clock db' = clock db.

(** ** Effects, invariants and outcomes, as the further properties read
    them *)

(** The statements a handler for app [a] issues against the spec table:
    none, an accepted insert, an upsert or an update of a value, each on
    an entry of [a], and their sequences. *)
Inductive writes (a : string) : list SpecRow -> list SpecRow -> Prop :=
| writes_none (s : list SpecRow) : writes a s s
| writes_insert (s s' : list SpecRow) (t k : string) (v : JSON)
    (u b : option string) :
    spec_insert a t k v u b s = Some s' -> writes a s s'
| writes_upsert (s : list SpecRow) (t k : string) (v : JSON)
    (u b : option string) :
    writes a s (spec_upsert a t k v u b s)
| writes_update (s : list SpecRow) (t k : string) (v : JSON) :
    writes a s (spec_update_value a t k v s)
| writes_then (s1 s2 s3 : list SpecRow) :
    writes a s1 s2 -> writes a s2 s3 -> writes a s1 s3.

Definition writing (a : string) {A : Type} (c : M A) : Prop :=
  forall s, writes a s (fst (c s)).

(** A computation that writes only on its way to success: every other
    outcome leaves the table as it was. *)
Definition commits (c : M StepResult) : Prop :=
  forall s, match c s with
            | (_, inr (Success _)) => True
            | (_, inl (Return (Success _))) => True
            | (s', _) => s' = s
            end.
(** An entry of another app than [a]. *)
Definition other_app (a : string) (r : SpecRow) : bool :=
  negb (spec_app_id r =? a).

(** What holds of the table and of the data of a successful outcome. *)
Definition on_success (P : list SpecRow -> JSON -> Prop)
    (r : list SpecRow * (Exit + StepResult)) : Prop :=
  match r with
  | (s', inr (Success d)) => P s' d
  | (s', inl (Return (Success d))) => P s' d
  | _ => True
  end.

(** A stored field [f'] is the submitted field [f] with its type
    normalized to a canonical name. *)
Definition normalized_field (f f' : JSON) : Prop :=
  prop f' "name" = prop f "name"
  /\ prop f' "type" = normalizeFieldType (prop f "type")
  /\ includes normalizedValidTypes (prop f' "type") = true.

(** The number of pending steps of an app. *)
Definition pending_count (a : string) (db : DB) : nat :=
  length (List.filter (pending_of a) (execution_steps db)).

(** The last response of the client loop ends it. *)
Definition ends_loop (responses : list (nat * RunStepData)) : Prop :=
  exists earlier code data,
    responses = (earlier ++ [(code, data)])%list
    /\ (forall step, data <> RsApplied step)
    /\ Forall (fun r => exists step, snd r = RsApplied step) earlier.

(** The tables other than [buildr_execution_steps] are the same. *)
Definition same_but_steps (db db' : DB) : Prop :=
  apps db' = apps db
  /\ operations_log db' = operations_log db
  /\ app_spec db' = app_spec db
  /\ app_operations db' = app_operations db
  /\ app_config db' = app_config db
  /\ app_versions db' = app_versions db.

(** A step that belongs to an operation. *)
Definition is_linked (s : StepRow) : bool :=
  match step_operation_id s with
  | Some _ => true
  | None => false
  end.

(** The version numbers of an app, in storage order. *)
Definition versions_of (a : string) (versions : list VersionRow) : list Z :=
  map version_number (List.filter (fun r => ver_app_id r =? a) versions).

(** Version numbers are positive and, within an app, distinct. *)
Definition versions_ok (versions : list VersionRow) : Prop :=
  forall a, NoDup (versions_of a versions)
            /\ Forall (fun n => (0 < n)%Z) (versions_of a versions).

(** An operation of the bulk apply path that has reached a final status. *)
Definition aop_done (r : AppOpRow) : Prop :=
  aop_status r = applied \/ aop_status r = failed.

(** An operation of the log that has reached a final status. *)
Definition op_done (r : OpRow) : Prop :=
  op_status r = applied \/ op_status r = failed.

(** The handlers of the steps that carry a type, one after the other,
    whatever each of them returns. *)
Definition handlers_in_sequence (now : Z) (a : string) (steps : list JSON)
    (tbl : list SpecRow) : list SpecRow :=
  fold_left
    (fun tbl step =>
       if truthy (prop step "type")
       then fst (executeStepHandler now a step None None tbl)
       else tbl)
    steps tbl.

(** The page that the loader makes of a row. *)
Definition page_of (r : string * SpecRow) : JSON :=
  JObj (obj_set "slug" (JStr (config_key (snd r)))
          (obj_assign [("id", JStr (fst r))] (spread (config_value (snd r))))).

(** The rows that the loader turns into pages. *)
Definition is_page_row (r : string * SpecRow) : bool :=
  (config_type (snd r) =? "ui") || (config_type (snd r) =? "page").

(** The rows of an app, as [.eq("app_id", appId)] selects them. *)
Definition rows_of_app (appId : string) (table : list (string * SpecRow))
  : list (string * SpecRow) :=
  List.filter (fun r => spec_app_id (snd r) =? appId) table.




(** The step types that the simulated executor knows. *)
Definition known_step_type (t : string) : bool :=
  existsb (String.eqb t)
          ["create_model"; "create_page"; "create_component";
           "set_permissions"].

(** ** Sample databases used by the examples and counterexamples *)

Definition app_1 : AppRow := mkAppRow "app-1" (Some "user-1") None.

(** A step without owning operation whose payload lacks [fields]. *)
Definition step_model_no_fields : StepRow :=
  mkStepRow 1 "app-1" None 0 (JStr "create_model") (JStr "Order")
            pending None 6.

(** A step that was reset to pending and still carries an old error text. *)
Definition step_page_old_error : StepRow :=
  mkStepRow 2 "app-1" None 1 (JStr "create_page") (JStr "home")
            pending (Some "previous failure") 6.

Definition db_two_orphans : DB :=
  mkDB [app_1] [] [step_model_no_fields; step_page_old_error]
       [] [] [] [] 100 7.






(** An operation with two descriptors, expanded into two steps. *)
Definition op_orders : OpRow :=
  mkOpRow 10 "app-1"
    (JArr [JObj [("type", JStr "create_page"); ("slug", JStr "orders");
                 ("title", JStr "Orders")];
           JObj [("type", JStr "create_model"); ("name", JStr "Order");
                 ("fields", JArr [JObj [("name", JStr "total");
                                        ("type", JStr "number")]])]])
    pending None None None 5.

Definition step_orders_page : StepRow :=
  mkStepRow 1 "app-1" (Some 10%nat) 0 (JStr "create_page") (JStr "orders")
            pending None 6.

Definition step_order_model : StepRow :=
  mkStepRow 2 "app-1" (Some 10%nat) 1 (JStr "create_model") (JStr "Order")
            pending None 6.

Definition db_orders : DB :=
  mkDB [app_1] [op_orders] [step_orders_page; step_order_model]
       [] [] [] [] 100 7.







(** A sample database: one pending operation not yet expanded, and an
    orphan step of the same app. *)
Definition db_unexpanded : DB :=
  mkDB [app_1] [op_orders]
       [mkStepRow 7 "app-1" None 0 (JStr "create_page") (JStr "old")
                  pending None 3]
       [] [] [] [] 100 7.

(** A sample database of the bulk apply path: one pending operation that
    sets the theme. *)
Definition aop_theme : AppOpRow :=
  mkAppOpRow 30 "app-1" (Some "user-1") None
             (JArr [JObj [("type", JStr "update_theme");
                          ("theme", JStr "dark")]])
             pending None None 5.

Definition db_theme : DB :=
  mkDB [app_1] [] [] [] [aop_theme] [] [] 100 7.

(** The same operation for an app whose config table holds a schema row
    with the value null: no snapshot can be built from that table. *)
Definition cfg_null_schema : ConfigRow :=
  mkConfigRow 3 "app-1" "schema" "main" JNull.

Definition db_theme_null_schema : DB :=
  mkDB [app_1] [] [] [] [aop_theme] [cfg_null_schema] [] 100 7.

(** A spec table with one page whose [components] value is a string. *)
Definition row_home : SpecRow :=
  mkSpecRow "app-1" "ui" "home"
            (JObj [("slug", JStr "home"); ("title", JStr "Home");
                   ("components", JStr "header")])
            (Some "user-1") None.

Definition tbl_home : list SpecRow := [row_home].

Definition step_page_by_target : list (string * JSON) :=
  [("type", JStr "create_page"); ("target", JStr "home")].

Definition step_hero_on_home : list (string * JSON) :=
  [("type", JStr "create_component"); ("name", JStr "hero");
   ("pageSlug", JStr "home")].

(** An app that has no owner. *)
Definition db_no_owner : DB :=
  mkDB [mkAppRow "app-1" None None] [] [step_model_no_fields]
       [] [] [] [] 100 7.

(** The config table of the bulk apply path: a page whose [components]
    value is a string, and a component type in the library. *)
Definition cfg_home : ConfigRow :=
  mkConfigRow 1 "app-1" "page" "home"
              (JObj [("title", JStr "Home"); ("components", JStr "header")]).

Definition cfg_card : ConfigRow :=
  mkConfigRow 2 "app-1" "component" "Card" (JObj [("type", JStr "Card")]).

Definition op_add_card : JSON :=
  JObj [("type", JStr "add_component"); ("page", JStr "home");
        ("component", JObj [("type", JStr "Card")])].

Definition aop_theme_then_card : AppOpRow :=
  mkAppOpRow 31 "app-1" (Some "user-1") None
             (JArr [JObj [("type", JStr "update_theme");
                          ("theme", JStr "dark")];
                    op_add_card])
             pending None None 5.

Definition db_string_components : DB :=
  mkDB [app_1] [] [] [] [aop_theme_then_card] [cfg_home; cfg_card] [] 100 7.

(** A bulk operation that adds a page and a component on it. *)
Definition op_card_on_about : JSON :=
  JObj [("type", JStr "add_component"); ("page", JStr "about");
        ("component", JObj [("type", JStr "Card")])].

Definition aop_page_then_card : AppOpRow :=
  mkAppOpRow 32 "app-1" (Some "user-1") None
             (JArr [JObj [("type", JStr "add_page");
                          ("page", JObj [("slug", JStr "about")])];
                    op_card_on_about])
             pending None None 5.

Definition db_page_then_card : DB :=
  mkDB [app_1] [] [] [] [aop_page_then_card] [cfg_card] [] 100 7.

(** A step of the earlier handler with a type it does not know. *)
Definition legacy_widget : LegacyStep :=
  mkLegacyStep 1 "app-1" 0 "create_widget" pending None None None.

(** * Properties *)

(** ** Field type normalization *)

Lemma lower_ascii_idem (c : ascii) : lower_ascii (lower_ascii c) = lower_ascii c.
Proof. destruct c as [[] [] [] [] [] [] [] []]; reflexivity. Qed.

Lemma toLowerCase_idem (s : string) : toLowerCase (toLowerCase s) = toLowerCase s.
Proof.
  induction s as [|c s IH]; simpl; [reflexivity|].
  now rewrite lower_ascii_idem, IH.
Qed.

Lemma alias_type_table (s : string) :
  alias_type s = default s (table_lookup s alias_table).
Proof.
  unfold alias_type, alias_table, table_lookup.
  destruct (String.eqb_spec s "string") as [->|H1]; [reflexivity|].
  destruct (String.eqb_spec s "integer") as [->|H2]; [reflexivity|].
  destruct (String.eqb_spec s "datetime") as [->|H3]; [reflexivity|].
  destruct (String.eqb_spec s "reference") as [->|H4]; [reflexivity|].
  destruct (String.eqb_spec s "authentication") as [->|H5]; [reflexivity|].
  rewrite (String.eqb_sym "string"), (proj2 (String.eqb_neq _ _) H1).
  rewrite (String.eqb_sym "integer"), (proj2 (String.eqb_neq _ _) H2).
  rewrite (String.eqb_sym "datetime"), (proj2 (String.eqb_neq _ _) H3).
  rewrite (String.eqb_sym "reference"), (proj2 (String.eqb_neq _ _) H4).
  rewrite (String.eqb_sym "authentication"), (proj2 (String.eqb_neq _ _) H5).
  reflexivity.
Qed.

Lemma normalizeFieldType_str (s : string) :
  normalizeFieldType (JStr s) = JStr (normalize_by_table s).
Proof.
  unfold normalize_by_table. rewrite <- alias_type_table.
  destruct s as [|c s]; reflexivity.
Qed.

Lemma normalize_by_table_alias (s : string) :
  normalize_by_table s = alias_type (toLowerCase s).
Proof. unfold normalize_by_table. now rewrite alias_type_table. Qed.

Lemma alias_type_fixed (l : string) :
  toLowerCase l = l -> alias_type (toLowerCase (alias_type l)) = alias_type l.
Proof.
  intros Hl.
  destruct (String.eqb_spec l "string") as [->|H1]; [reflexivity|].
  destruct (String.eqb_spec l "integer") as [->|H2]; [reflexivity|].
  destruct (String.eqb_spec l "datetime") as [->|H3]; [reflexivity|].
  destruct (String.eqb_spec l "reference") as [->|H4]; [reflexivity|].
  destruct (String.eqb_spec l "authentication") as [->|H5]; [reflexivity|].
  assert (Hid : alias_type l = l).
  { unfold alias_type.
    rewrite (proj2 (String.eqb_neq _ _) H1), (proj2 (String.eqb_neq _ _) H2),
      (proj2 (String.eqb_neq _ _) H3), (proj2 (String.eqb_neq _ _) H4),
      (proj2 (String.eqb_neq _ _) H5).
    reflexivity. }
  now rewrite Hid, Hl, Hid.
Qed.

(** A normalized name is a fixed point of normalization. *)
Lemma normalize_by_table_idem (s : string) :
  normalize_by_table (normalize_by_table s) = normalize_by_table s.
Proof.
  rewrite !normalize_by_table_alias.
  apply alias_type_fixed, toLowerCase_idem.
Qed.

Lemma normalizeFieldType_idem (v : JSON) :
  normalizeFieldType (normalizeFieldType v) = normalizeFieldType v.
Proof.
  destruct v; try reflexivity.
  rewrite !normalizeFieldType_str. now rewrite normalize_by_table_idem.
Qed.

Lemma existsb_eqb_In (s : string) (l : list string) :
  existsb (String.eqb s) l = true <-> In s l.
Proof.
  rewrite existsb_exists. split.
  - intros [x [Hin Heq]]. apply String.eqb_eq in Heq. now subst.
  - intros Hin. exists s. split; [assumption | apply String.eqb_refl].
Qed.

Lemma fieldTypeAccepted_str (s : string) :
  fieldTypeAccepted (JStr s) = true <-> In s canonical_types.
Proof.
  unfold fieldTypeAccepted, includes. rewrite andb_true_iff, existsb_eqb_In.
  change normalizedValidTypes with canonical_types.
  split; [tauto|]. intros Hin. split; [|assumption].
  simpl in Hin.
  repeat (destruct Hin as [<-|Hin]; [reflexivity|]). contradiction.
Qed.

(** Validation of one field accepts exactly the names whose normal form is
    canonical. *)
Lemma validateField_accepts (fs : list (string * JSON)) (nm s : string)
    (tbl : list SpecRow) :
  assoc "name" fs = Some (JStr nm) -> nm <> "" ->
  assoc "type" fs = Some (JStr s) ->
  (validateField (JObj fs) tbl = (tbl, inr tt)
   <-> In (normalize_by_table s) canonical_types).
Proof.
  intros Hn Hne Ht.
  rewrite <- fieldTypeAccepted_str, <- normalizeFieldType_str.
  unfold validateField, bind, get, ret, when. rewrite Hn, Ht.
  apply String.eqb_neq in Hne.
  cbn [from_option id truthy is_string negb orb]. rewrite Hne.
  cbn [negb orb].
  destruct (fieldTypeAccepted (normalizeFieldType (JStr s))); cbn [negb].
  - split; reflexivity.
  - split; intros H; discriminate H.
Qed.

(** C8: field-type normalization lower-cases its input and rewrites the
    five aliases to their canonical names; it is insensitive to case
    ("INTEGER", "integer" and "Integer" all give "number"), idempotent,
    leaves every canonical name unchanged, and a field is accepted exactly
    when the normalized name lies in the canonical set. *)
Theorem normalization_case_insensitive_idempotent :
  (forall s, normalizeFieldType (JStr s) = JStr (normalize_by_table s))
  /\ normalizeFieldType (JStr "INTEGER") = JStr "number"
  /\ normalizeFieldType (JStr "integer") = JStr "number"
  /\ normalizeFieldType (JStr "Integer") = JStr "number"
  /\ (forall s1 s2, toLowerCase s1 = toLowerCase s2 ->
        normalizeFieldType (JStr s1) = normalizeFieldType (JStr s2))
  /\ (forall v, normalizeFieldType (normalizeFieldType v) = normalizeFieldType v)
  /\ (forall c, In c canonical_types -> normalizeFieldType (JStr c) = JStr c)
  /\ (forall s, fieldTypeAccepted (normalizeFieldType (JStr s)) = true
                <-> In (normalize_by_table s) canonical_types)
  /\ (forall fs nm s tbl,
        assoc "name" fs = Some (JStr nm) -> nm <> "" ->
        assoc "type" fs = Some (JStr s) ->
        (validateField (JObj fs) tbl = (tbl, inr tt)
         <-> In (normalize_by_table s) canonical_types)).
Proof.
  split; [exact normalizeFieldType_str|].
  do 3 (split; [reflexivity|]).
  split.
  { intros s1 s2 H. rewrite !normalizeFieldType_str.
    unfold normalize_by_table. now rewrite H. }
  split; [exact normalizeFieldType_idem|].
  split.
  { intros c Hin. simpl in Hin.
    repeat (destruct Hin as [<-|Hin]; [reflexivity|]). contradiction. }
  split.
  { intros s. rewrite normalizeFieldType_str. apply fieldTypeAccepted_str. }
  exact validateField_accepts.
Qed.

Lemma normalization_case_insensitive_idempotent_witness :
  normalizeFieldType (JStr "DateTime") = normalizeFieldType (JStr "DATETIME")
  /\ normalizeFieldType (JStr "uuid") = JStr "uuid"
  /\ (validateField
        (JObj [("name", JStr "total"); ("type", JStr "INTEGER")]) []
      = ([], inr tt)
      <-> In (normalize_by_table "INTEGER") canonical_types).
Proof.
  destruct normalization_case_insensitive_idempotent
    as (_ & _ & _ & _ & Hci & _ & Hcanon & _ & Hval).
  split; [apply Hci; reflexivity|].
  split; [apply Hcanon; simpl; tauto|].
  apply (Hval _ "total"); [reflexivity | discriminate | reflexivity].
Defined.

Lemma check_ret {A : Type} (x : A) : check (ret x).
Proof. intros s. reflexivity. Qed.

Lemma check_fail {A : Type} (m : Msg) : check (@fail A m).
Proof. intros s. reflexivity. Qed.

Lemma check_throw {A : Type} (m : Msg) : check (@throw A m).
Proof. intros s. reflexivity. Qed.

Lemma check_query {A : Type} (f : list SpecRow -> A) : check (query f).
Proof. intros s. reflexivity. Qed.

Lemma check_get (v : JSON) (k : string) : check (get v k).
Proof. intros s. destruct v; reflexivity. Qed.

Lemma check_get_if (v : JSON) (k : string) : check (get_if v k).
Proof. unfold get_if. destruct (truthy v); [apply check_get | apply check_ret]. Qed.

Lemma check_bind {A B : Type} (c : M A) (k : A -> M B) :
  check c -> (forall x, check (k x)) -> check (bind c k).
Proof.
  intros Hc Hk s. unfold bind. specialize (Hc s).
  destruct (c s) as [s' [e|x]].
  - exact Hc.
  - subst s'. apply Hk.
Qed.

Lemma check_when (b : bool) (c : M unit) : check c -> check (when b c).
Proof. destruct b; [trivial | intros _; apply check_ret]. Qed.

Lemma check_for_of {A : Type} (xs : list A) (body : A -> M unit) :
  (forall x, check (body x)) -> check (for_of xs body).
Proof.
  intros Hb. induction xs as [|x xs IH]; simpl.
  - apply check_ret.
  - apply check_bind; [apply Hb | intros _; exact IH].
Qed.

Lemma check_mapM {A B : Type} (f : A -> M B) (xs : list A) :
  (forall x, check (f x)) -> check (mapM f xs).
Proof.
  intros Hf. induction xs as [|x xs IH]; simpl.
  - apply check_ret.
  - apply check_bind; [apply Hf|]. intros y.
    apply check_bind; [exact IH|]. intros ys. apply check_ret.
Qed.

Create HintDb ro.
#[export] Hint Resolve check_ret check_fail check_throw check_query check_get
  check_get_if check_when check_for_of check_mapM : ro.

Lemma check_validateField (field : JSON) : check (validateField field).
Proof.
  unfold validateField.
  apply check_bind; [auto with ro|]. intros name.
  apply check_bind; [auto with ro|]. intros _.
  apply check_bind; auto with ro.
Qed.

Lemma check_normalizeField (field : JSON) : check (normalizeField field).
Proof.
  unfold normalizeField.
  apply check_bind; [auto with ro|]. intros ty.
  apply check_bind; auto with ro.
Qed.

#[export] Hint Resolve check_validateField check_normalizeField : ro.

(** Sequencing after a check: the continuation runs on the same table. *)
Lemma bind_check {A B : Type} (c : M A) (k : A -> M B) (s : list SpecRow)
    (Q : list SpecRow * (Exit + B) -> Prop) :
  check c ->
  (forall r : list SpecRow * (Exit + B), aborted s r -> Q r) ->
  (forall x, Q (k x s)) ->
  Q (bind c k s).
Proof.
  intros Hc Ha Hk. unfold bind. specialize (Hc s).
  destruct (c s) as [s' [e|x]].
  - apply Ha. exact Hc.
  - subst s'. apply Hk.
Qed.

Ltac after_check :=
  match goal with
  | |- context [bind ?c ?k ?s] =>
      pattern (bind c k s); apply bind_check;
      [ solve [auto with ro] | try solve [trivial] | intros ? ]
  end.

Lemma try_catch_aborted (label : string) (body : M StepResult)
    (s : list SpecRow) :
  aborted s (body s) -> exists m, try_catch label body s = (s, Failure m).
Proof.
  unfold try_catch, aborted.
  destruct (body s) as [s' [[[d|m]|m]|r]]; try contradiction;
    intros ->; eauto.
Qed.

(** ** [create_model] on an existing model *)

Lemma spec_insert_taken (a t k : string) (v : JSON) (uid brid : option string)
    (tbl : list SpecRow) :
  existsb (spec_match a t k) tbl = true ->
  spec_insert a t k v uid brid tbl = None.
Proof. intros H. unfold spec_insert. now rewrite H. Qed.

(** C6: when an architecture (data model) entry with the step's model name
    already exists for the app, [create_model] returns a failure and the
    spec table is exactly what it was before the call. *)
Theorem create_model_existing_name_fails
    (appId : string) (fs : list (string * JSON)) (mn : string)
    (buildRequestId userId : option string) (tbl : list SpecRow) :
  js_or (default JUndefined (assoc "name" fs))
        (default JUndefined (assoc "target" fs)) = JStr mn ->
  existsb (spec_match appId "architecture" mn) tbl = true ->
  exists m,
    handleCreateModel appId (JObj fs) buildRequestId userId tbl
    = (tbl, Failure m).
Proof.
  intros Hname Hex. unfold handleCreateModel.
  apply try_catch_aborted.
  cbn [get bind ret]. rewrite Hname.
  destruct (truthy (JStr mn)); cbn [negb]; [|exact eq_refl].
  cbn [get bind ret].
  after_check.
  destruct (js_or (js_or _ _) _) as [| | | | |[|f0 fr]|]; try exact eq_refl.
  after_check.
  cbn [bind query].
  destruct (spec_select_single appId "architecture" mn tbl); [exact eq_refl|].
  after_check.
  cbn [bind get ret].
  after_check.
  cbn [bind query]. rewrite spec_insert_taken by assumption.
  exact eq_refl.
Qed.

Lemma create_model_existing_name_fails_witness :
  exists m,
    handleCreateModel "app-1"
      (JObj [("type", JStr "create_model"); ("name", JStr "Order");
             ("fields", JArr [JObj [("name", JStr "total");
                                    ("type", JStr "number")]])])
      None (Some "user-1")
      [mkSpecRow "app-1" "architecture" "Order"
                 (JObj [("name", JStr "Order"); ("fields", JArr [])])
                 (Some "user-1") None]
    = ([mkSpecRow "app-1" "architecture" "Order"
                  (JObj [("name", JStr "Order"); ("fields", JArr [])])
                  (Some "user-1") None],
       Failure m).
Proof.
  apply (create_model_existing_name_fails "app-1" _ "Order");
    reflexivity.
Defined.

(** Whatever the step, a [create_model] call that reports failure has not
    written to the spec table. *)
Lemma create_model_failure_writes_nothing
    (appId : string) (step : JSON) (buildRequestId userId : option string)
    (tbl tbl' : list SpecRow) (m : Msg) :
  handleCreateModel appId step buildRequestId userId tbl = (tbl', Failure m) ->
  tbl' = tbl.
Proof.
  unfold handleCreateModel, try_catch.
  set (Q := fun r : list SpecRow * (Exit + StepResult) =>
              match r with
              | (s', inr (Success _)) => True
              | (s', inl (Return (Success _))) => True
              | (s', _) => s' = tbl
              end).
  assert (Ha : forall r : list SpecRow * (Exit + StepResult),
             aborted tbl r -> Q r).
  { intros [s' [[[d|e]|e]|[d|e]]]; simpl; intros H; try contradiction; auto. }
  match goal with
  | |- match ?body with _ => _ end = _ -> _ =>
      assert (HQ : Q body); [| destruct body as [s' [[[d|e]|e]|[d|e]]];
                               simpl in HQ; intros [= <- _]; auto; discriminate ]
  end.
  after_check. after_check.
  destruct (js_or x x0) as [| | | |mn| |]; try exact eq_refl.
  destruct (truthy (JStr mn)); cbn [negb]; [|exact eq_refl].
  after_check. after_check. after_check.
  destruct (js_or (js_or _ _) _) as [| | | | |[|f0 fr]|]; try exact eq_refl.
  after_check.
  cbn [bind query].
  destruct (spec_select_single appId "architecture" mn tbl); [exact eq_refl|].
  after_check. after_check. after_check.
  cbn [bind query].
  destruct (spec_insert _ _ _ _ _ _ _); [exact I | exact eq_refl].
Qed.

(** On a fresh name the same step succeeds and appends one entry. *)
Example create_model_fresh_name :
  handleCreateModel "app-1"
    (JObj [("type", JStr "create_model"); ("name", JStr "Order");
           ("fields", JArr [JObj [("name", JStr "total");
                                  ("type", JStr "INTEGER")]])])
    None (Some "user-1") []
  = ([mkSpecRow "app-1" "architecture" "Order"
        (JObj [("name", JStr "Order");
               ("fields", JArr [JObj [("name", JStr "total");
                                      ("type", JStr "number")]])])
        (Some "user-1") None],
     Success (JObj [("modelName", JStr "Order"); ("fields", JNum 1)])).
Proof. reflexivity. Qed.

(** ** The spec table under its unique key *)

Lemma spec_match_key (a t k : string) (r : SpecRow) :
  spec_match a t k r = true <-> spec_key r = (a, t, k).
Proof.
  unfold spec_match, spec_key. rewrite !andb_true_iff, !String.eqb_eq.
  split.
  - intros [[-> ->] ->]. reflexivity.
  - intros [= -> -> ->]. auto.
Qed.

Lemma filter_no_match (a t k : string) (tbl : list SpecRow) :
  ~ In (a, t, k) (map spec_key tbl) ->
  List.filter (spec_match a t k) tbl = [].
Proof.
  induction tbl as [|r tbl IH]; simpl; [reflexivity|]. intros Hn.
  destruct (spec_match a t k r) eqn:Hm.
  - apply spec_match_key in Hm. exfalso. apply Hn. now left.
  - apply IH. intros Hin. apply Hn. now right.
Qed.

Lemma existsb_match_In (a t k : string) (tbl : list SpecRow) :
  existsb (spec_match a t k) tbl = true <-> In (a, t, k) (map spec_key tbl).
Proof.
  rewrite existsb_exists, in_map_iff. split.
  - intros [r [Hin Hm]]. exists r. split; [now apply spec_match_key | exact Hin].
  - intros [r [Hk Hin]]. exists r. split; [exact Hin | now apply spec_match_key].
Qed.

Lemma spec_unique_cons (r : SpecRow) (tbl : list SpecRow) :
  spec_unique (r :: tbl) ->
  ~ In (spec_key r) (map spec_key tbl) /\ spec_unique tbl.
Proof.
  unfold spec_unique. simpl. rewrite NoDup_cons, list_elem_of_In. tauto.
Qed.

Lemma spec_match_mk (a t k : string) (v : JSON) (u b : option string) :
  spec_match a t k (mkSpecRow a t k v u b) = true.
Proof. now apply spec_match_key. Qed.

(** After an upsert the key selects exactly one row, and it holds the
    upserted value. *)
Lemma select_after_upsert (a t k : string) (v : JSON) (uid brid : option string)
    (tbl : list SpecRow) :
  spec_unique tbl ->
  exists row,
    spec_select_single a t k (spec_upsert a t k v uid brid tbl) = Some row
    /\ config_value row = v.
Proof.
  intros Hu. unfold spec_select_single, spec_upsert.
  destruct (existsb (spec_match a t k) tbl) eqn:Hex.
  - apply existsb_match_In in Hex.
    induction tbl as [|r tbl IH]; [contradiction|].
    apply spec_unique_cons in Hu as [Hnin Hu]. cbn [map List.filter].
    destruct (spec_match a t k r) eqn:Hm.
    + rewrite spec_match_mk.
      apply spec_match_key in Hm. rewrite Hm in Hnin.
      assert (Hrest :
        map (fun r0 =>
               if spec_match a t k r0
               then mkSpecRow a t k v (keep_or (sent uid) (spec_user_id r0))
                              (keep_or (sent brid) (spec_build_request_id r0))
               else r0) tbl = tbl).
      { clear -Hnin. induction tbl as [|x tbl IH]; simpl; [reflexivity|].
        destruct (spec_match a t k x) eqn:Hx.
        - apply spec_match_key in Hx. exfalso. apply Hnin. now left.
        - f_equal. apply IH. intros Hin. apply Hnin. now right. }
      rewrite Hrest, filter_no_match by assumption.
      eexists. split; reflexivity.
    + rewrite Hm.
      destruct Hex as [Hex|Hex].
      * apply spec_match_key in Hex. congruence.
      * apply IH; assumption.
  - rewrite List.filter_app. cbn [List.filter]. rewrite spec_match_mk.
    rewrite filter_no_match.
    + eexists. split; reflexivity.
    + rewrite <- existsb_match_In. congruence.
Qed.

Lemma spec_unique_upsert (a t k : string) (v : JSON) (uid brid : option string)
    (tbl : list SpecRow) :
  spec_unique tbl -> spec_unique (spec_upsert a t k v uid brid tbl).
Proof.
  unfold spec_unique, spec_upsert. intros Hu.
  destruct (existsb (spec_match a t k) tbl) eqn:Hex.
  - rewrite map_map.
    erewrite map_ext; [exact Hu|]. intros r. simpl.
    destruct (spec_match a t k r) eqn:Hm; [|reflexivity].
    apply spec_match_key in Hm. now rewrite Hm.
  - rewrite map_app. simpl. apply NoDup_app. split; [exact Hu|]. split.
    + intros x Hx Hx'. apply list_elem_of_In in Hx.
      apply list_elem_of_singleton in Hx'. subst x.
      change (In (a, t, k) (map spec_key tbl)) in Hx.
      apply existsb_match_In in Hx. congruence.
    + apply NoDup_singleton.
Qed.

(** ** The permission merge on well-formed rules *)

Lemma rule_matches_pure (np rule : JSON) (s : list SpecRow) :
  is_obj rule = true -> is_obj np = true ->
  rule_matches np rule s = (s, inr (matchb np rule)).
Proof. destruct rule, np; try discriminate; reflexivity. Qed.

Lemma findIndex_pure (np : JSON) (l : list JSON) (i : nat) (s : list SpecRow) :
  forallb is_obj l = true -> is_obj np = true ->
  findIndex (rule_matches np) l i s
  = (s, inr (option_map (Nat.add i) (find0 (matchb np) l))).
Proof.
  intros Hl Hnp. revert i.
  induction l as [|x r IH]; intros i; simpl; [reflexivity|].
  simpl in Hl. apply andb_true_iff in Hl as [Hx Hr].
  unfold bind. rewrite rule_matches_pure by assumption.
  destruct (matchb np x).
  - simpl. unfold ret. now rewrite Nat.add_0_r.
  - rewrite IH by assumption.
    destruct (find0 (matchb np) r); simpl; [|reflexivity].
    do 3 f_equal. lia.
Qed.

Lemma merge_one_find0 (p : JSON -> bool) (np : JSON) (l : list JSON) :
  match find0 p l with
  | Some i => <[i := np]> l
  | None => (l ++ [np])%list
  end = merge_one p np l.
Proof.
  induction l as [|x r IH]; simpl; [reflexivity|].
  destruct (p x); [reflexivity|].
  destruct (find0 p r); simpl; now rewrite <- IH.
Qed.

Lemma mergeRule_pure (np : JSON) (l : list JSON) (s : list SpecRow) :
  forallb is_obj l = true -> is_obj np = true ->
  mergeRule l np s = (s, inr (merge_one (matchb np) np l)).
Proof.
  intros Hl Hnp. unfold mergeRule, bind.
  rewrite findIndex_pure by assumption.
  rewrite <- merge_one_find0.
  destruct (find0 (matchb np) l); reflexivity.
Qed.

Lemma merge_one_objs (p : JSON -> bool) (np : JSON) (l : list JSON) :
  forallb is_obj l = true -> is_obj np = true ->
  forallb is_obj (merge_one p np l) = true.
Proof.
  intros Hl Hnp. induction l as [|x r IH]; simpl; [now rewrite Hnp|].
  simpl in Hl. apply andb_true_iff in Hl as [Hx Hr].
  destruct (p x); simpl.
  - now rewrite Hnp, Hr.
  - now rewrite Hx, IH.
Qed.

(** Merging the same matching permission again changes nothing. *)
Lemma merge_one_again (p : JSON -> bool) (np : JSON) (l : list JSON) :
  p np = true -> merge_one p np (merge_one p np l) = merge_one p np l.
Proof.
  intros Hp. induction l as [|x r IH]; simpl.
  - now rewrite Hp.
  - destruct (p x) eqn:Hx; simpl.
    + now rewrite Hp.
    + now rewrite Hx, IH.
Qed.

Lemma count_merge_match (p : JSON -> bool) (np : JSON) (l : list JSON) :
  p np = true ->
  count_rules p (merge_one p np l) = Nat.max 1 (count_rules p l).
Proof.
  intros Hp. unfold count_rules.
  induction l as [|x r IH]; simpl.
  - now rewrite Hp.
  - destruct (p x) eqn:Hx; simpl.
    + rewrite Hp. simpl. lia.
    + now rewrite Hx.
Qed.




Lemma merge_one_ext (p q : JSON -> bool) (np : JSON) (l : list JSON) :
  (forall x, p x = q x) -> merge_one p np l = merge_one q np l.
Proof.
  intros H. induction l as [|x r IH]; simpl; [reflexivity|].
  now rewrite H, IH.
Qed.

Lemma matchb_triple (res act role : string) (rule : JSON) :
  role <> "" ->
  matchb (triple res act role) rule = is_triple res act role rule.
Proof.
  intros Hr. unfold matchb, is_triple, triple, js_or. simpl.
  apply String.eqb_neq in Hr. now rewrite Hr.
Qed.


Lemma is_triple_self (res act role : string) :
  is_triple res act role (triple res act role) = true.
Proof. unfold is_triple, triple. simpl. now rewrite !String.eqb_refl. Qed.



Lemma includes_In (l : list string) (s : string) :
  In s l -> includes l (JStr s) = true.
Proof. intros H. simpl. now apply existsb_eqb_In. Qed.

Lemma validRoles_nonempty (role : string) : In role validRoles -> role <> "".
Proof.
  simpl. intros H.
  repeat (destruct H as [<-|H]; [discriminate|]). contradiction.
Qed.

Lemma validatePermission_triple (res act role : string) (s : list SpecRow) :
  res <> "" -> In act validActions -> In role validRoles ->
  validatePermission (triple res act role) s = (s, inr tt).
Proof.
  intros Hres Hact Hrole.
  assert (Hact' : act <> "").
  { simpl in Hact. repeat (destruct Hact as [<-|Hact]; [discriminate|]).
    contradiction. }
  pose proof (validRoles_nonempty _ Hrole) as Hrole'.
  apply String.eqb_neq in Hres, Hact', Hrole'.
  unfold validatePermission, triple, bind, get, ret, when.
  cbn [assoc String.eqb Ascii.eqb Bool.eqb from_option id truthy is_string
       negb orb andb].
  rewrite Hres, Hact', Hrole'. cbn [negb orb andb].
  rewrite (includes_In _ _ Hact), (includes_In _ _ Hrole). reflexivity.
Qed.


(** ** [set_permissions] with one permission entry *)

Lemma set_permissions_single (appId : string) (fs : list (string * JSON))
    (np : JSON) (buildRequestId userId : option string) (tbl : list SpecRow) :
  assoc "permissions" fs = Some (JArr [np]) ->
  is_obj np = true ->
  (forall s, validatePermission np s = (s, inr tt)) ->
  ruleset_ok appId tbl ->
  handleSetPermissions appId (JObj fs) buildRequestId userId tbl
  = (permissions_written appId np buildRequestId userId tbl,
     Success
       (JObj [("rulesCount",
               JNum (Z.of_nat
                       (length (merge_one (matchb np) np
                                          (stored_rules appId tbl)))))])).
Proof.
  intros Hperm Hobj Hval Hok.
  unfold handleSetPermissions, try_catch, resolvePermissions,
    permissions_written.
  cbn [get bind ret]. rewrite Hperm.
  cbn [from_option id truthy negb andb bind ret for_of].
  unfold bind at 1. unfold bind at 1. rewrite Hval.
  unfold ret at 1. cbn [bind query].
  unfold ruleset_ok, stored_rules in *.
  destruct (spec_select_single appId "permissions" "rules" tbl) as [row|].
  - destruct Hok as [Hrow [xs [Hxs Hall]]].
    destruct (config_value row) as [| | | | | |cfs] eqn:Hcv; try discriminate.
    cbn [get bind ret]. unfold prop in *. rewrite Hxs.
    cbn [spread_array bind ret mergeRules].
    unfold bind at 1. unfold bind at 1.
    rewrite mergeRule_pure by assumption.
    reflexivity.
  - cbn [bind ret js_or truthy spread_array mergeRules].
    unfold bind at 1. unfold bind at 1.
    rewrite mergeRule_pure by (assumption || reflexivity).
    reflexivity.
Qed.

Lemma stored_after_write (appId : string) (np : JSON)
    (buildRequestId userId : option string) (tbl : list SpecRow) :
  spec_unique tbl -> ruleset_ok appId tbl -> is_obj np = true ->
  let tbl1 := permissions_written appId np buildRequestId userId tbl in
  stored_rules appId tbl1 = merge_one (matchb np) np (stored_rules appId tbl)
  /\ spec_unique tbl1 /\ ruleset_ok appId tbl1.
Proof.
  intros Hu Hok Hobj tbl1. subst tbl1. unfold permissions_written.
  set (merged := merge_one (matchb np) np (stored_rules appId tbl)).
  assert (Hm : forallb is_obj merged = true).
  { apply merge_one_objs; [|assumption].
    unfold ruleset_ok, stored_rules in *.
    destruct (spec_select_single appId "permissions" "rules" tbl); [|reflexivity].
    destruct Hok as [_ [xs [-> Hall]]]. exact Hall. }
  destruct (select_after_upsert appId "permissions" "rules"
              (JObj [("rules", JArr merged)]) userId buildRequestId tbl Hu)
    as [row [Hsel Hcv]].
  split; [|split].
  - unfold stored_rules. rewrite Hsel, Hcv. reflexivity.
  - now apply spec_unique_upsert.
  - unfold ruleset_ok. rewrite Hsel, Hcv. split; [reflexivity|].
    exists merged. split; [reflexivity | exact Hm].
Qed.

(** C7: submitting the same explicit [(resource, action, role)] triple
    twice succeeds both times and leaves exactly one stored rule for that
    triple; the second submission replaces the rule in place, so the
    ruleset is the same as after the first. *)
Theorem set_permissions_same_triple_twice
    (appId : string) (fs : list (string * JSON)) (res act role : string)
    (buildRequestId userId : option string) (tbl : list SpecRow) :
  assoc "permissions" fs = Some (JArr [triple res act role]) ->
  res <> "" -> In act validActions -> In role validRoles ->
  spec_unique tbl -> ruleset_ok appId tbl ->
  (count_rules (is_triple res act role) (stored_rules appId tbl) <= 1)%nat ->
  exists tbl1 tbl2 d1 d2,
    handleSetPermissions appId (JObj fs) buildRequestId userId tbl
    = (tbl1, Success d1)
    /\ handleSetPermissions appId (JObj fs) buildRequestId userId tbl1
       = (tbl2, Success d2)
    /\ count_rules (is_triple res act role) (stored_rules appId tbl2) = 1%nat
    /\ stored_rules appId tbl2 = stored_rules appId tbl1.
Proof.
  intros Hperm Hres Hact Hrole Hu Hok Hcount.
  set (np := triple res act role).
  assert (Hval : forall s, validatePermission np s = (s, inr tt)).
  { intros s. now apply validatePermission_triple. }
  assert (Hp : matchb np np = true).
  { unfold np. rewrite matchb_triple by now apply validRoles_nonempty.
    apply is_triple_self. }
  destruct (stored_after_write appId np buildRequestId userId tbl Hu Hok eq_refl)
    as [Hs1 [Hu1 Hok1]].
  set (tbl1 := permissions_written appId np buildRequestId userId tbl) in *.
  destruct (stored_after_write appId np buildRequestId userId tbl1 Hu1 Hok1
              eq_refl) as [Hs2 _].
  set (tbl2 := permissions_written appId np buildRequestId userId tbl1) in *.
  exists tbl1, tbl2. do 2 eexists.
  split; [now apply set_permissions_single|].
  split; [now apply set_permissions_single|].
  assert (Heq : stored_rules appId tbl2 = stored_rules appId tbl1).
  { rewrite Hs2, Hs1. now apply merge_one_again. }
  split; [|exact Heq].
  rewrite Heq, Hs1.
  rewrite (merge_one_ext _ (is_triple res act role))
    by (intros x; apply matchb_triple; now apply validRoles_nonempty).
  rewrite count_merge_match by apply is_triple_self. lia.
Qed.

Lemma set_permissions_same_triple_twice_witness :
  exists tbl1 tbl2 d1 d2,
    handleSetPermissions "app-1"
      (JObj [("type", JStr "set_permissions");
             ("permissions", JArr [triple "orders" "read" "user"])])
      None (Some "user-1") [] = (tbl1, Success d1)
    /\ handleSetPermissions "app-1"
         (JObj [("type", JStr "set_permissions");
                ("permissions", JArr [triple "orders" "read" "user"])])
         None (Some "user-1") tbl1 = (tbl2, Success d2)
    /\ count_rules (is_triple "orders" "read" "user")
                   (stored_rules "app-1" tbl2) = 1%nat
    /\ stored_rules "app-1" tbl2 = stored_rules "app-1" tbl1.
Proof.
  apply set_permissions_same_triple_twice.
  - reflexivity.
  - discriminate.
  - simpl; tauto.
  - simpl; tauto.
  - apply NoDup_nil_2.
  - exact I.
  - apply le_S, le_n.
Defined.

Example set_permissions_twice_run :
  let step := JObj [("type", JStr "set_permissions");
                    ("permissions", JArr [triple "orders" "read" "user"])] in
  let tbl1 := fst (handleSetPermissions "app-1" step None (Some "user-1") []) in
  let tbl2 := fst (handleSetPermissions "app-1" step None (Some "user-1") tbl1) in
  stored_rules "app-1" tbl2 = [triple "orders" "read" "user"].
Proof. reflexivity. Qed.

(** ** [set_permissions] with an entry that has no role *)





Example set_permissions_roleless_twice_run :
  let step := JObj [("type", JStr "set_permissions");
                    ("permissions", JArr [roleless "orders" "read"])] in
  let tbl1 := fst (handleSetPermissions "app-1" step None (Some "user-1") []) in
  let tbl2 := fst (handleSetPermissions "app-1" step None (Some "user-1") tbl1) in
  stored_rules "app-1" tbl1 = [roleless "orders" "read"]
  /\ stored_rules "app-1" tbl2
     = [roleless "orders" "read"; roleless "orders" "read"].
Proof. split; reflexivity. Qed.

(** * Properties of the run loop *)

(** ** Selecting the next pending step *)

Lemma insert_by_In {A : Type} (key : A -> Z) (x y : A) (l : list A) :
  In y (insert_by key x l) <-> y = x \/ In y l.
Proof.
  induction l as [|z r IH]; simpl.
  - intuition.
  - destruct (key x <=? key z)%Z; simpl; [intuition|].
    rewrite IH. intuition.
Qed.

Lemma order_by_In {A : Type} (key : A -> Z) (y : A) (l : list A) :
  In y (order_by key l) <-> In y l.
Proof.
  induction l as [|x r IH]; simpl; [reflexivity|].
  rewrite insert_by_In, IH. intuition.
Qed.

Lemma insert_by_head_min {A : Type} (key : A -> Z) (x : A) (l : list A)
    (h : A) (t : list A) :
  (forall h' t', l = h' :: t' -> forall y, In y l -> (key h' <= key y)%Z) ->
  insert_by key x l = h :: t ->
  forall y, In y (x :: l) -> (key h <= key y)%Z.
Proof.
  intros Hl Hins y Hy. destruct l as [|z r]; simpl in Hins.
  - injection Hins as <- <-. destruct Hy as [<-|[]]. lia.
  - specialize (Hl z r eq_refl).
    destruct (key x <=? key z)%Z eqn:E.
    + injection Hins as <- <-. apply Z.leb_le in E.
      destruct Hy as [<-|Hy]; [lia|]. specialize (Hl y Hy). lia.
    + injection Hins as <- <-. apply Z.leb_gt in E.
      destruct Hy as [<-|Hy]; [lia|]. exact (Hl y Hy).
Qed.

Lemma order_by_head_min {A : Type} (key : A -> Z) (l : list A)
    (h : A) (t : list A) :
  order_by key l = h :: t -> forall y, In y l -> (key h <= key y)%Z.
Proof.
  revert h t. induction l as [|x r IH]; intros h t Hs y Hy; [contradiction|].
  simpl in Hs.
  apply (insert_by_head_min key x (order_by key r) h t); [|exact Hs|].
  - intros h' t' Heq y' Hy'. apply (IH h' t' Heq).
    now apply order_by_In in Hy'.
  - destruct Hy as [<-|Hy]; [now left|]. right. now apply order_by_In.
Qed.

Lemma order_by_nil {A : Type} (key : A -> Z) (l : list A) :
  order_by key l = [] -> l = [].
Proof.
  destruct l as [|x r]; [reflexivity|]. simpl. intros H.
  assert (Hin : In x (insert_by key x (order_by key r)))
    by (apply insert_by_In; now left).
  rewrite H in Hin. contradiction.
Qed.

(** The selected step is a pending step of the app with the least index. *)
Lemma fetch_next_pending_least (a : string) (steps : list StepRow)
    (s : StepRow) :
  fetch_next_pending a steps = Some s ->
  In s steps /\ step_app_id s = a /\ step_status s = pending
  /\ forall s', In s' steps -> step_app_id s' = a -> step_status s' = pending ->
                (step_index s <= step_index s')%Z.
Proof.
  unfold fetch_next_pending. intros H.
  destruct (order_by step_index (List.filter (pending_of a) steps))
    as [|h t] eqn:Hs; [discriminate|].
  simpl in H. injection H as ->.
  assert (Hin : In s (List.filter (pending_of a) steps)).
  { apply (order_by_In step_index). rewrite Hs. now left. }
  apply filter_In in Hin as [Hin Hp].
  unfold pending_of in Hp. apply andb_true_iff in Hp as [Ha Hst].
  apply String.eqb_eq in Ha.
  split; [exact Hin|]. split; [exact Ha|].
  split; [destruct (step_status s); (reflexivity || discriminate)|].
  intros s' Hin' Ha' Hst'.
  apply (order_by_head_min _ _ _ _ Hs).
  apply filter_In. split; [exact Hin'|].
  unfold pending_of. rewrite Ha', Hst', String.eqb_refl. reflexivity.
Qed.

(** No step is selected exactly when the app has no pending step. *)
Lemma fetch_next_pending_none (a : string) (steps : list StepRow) :
  fetch_next_pending a steps = None <->
  forall s, In s steps -> step_app_id s = a -> step_status s <> pending.
Proof.
  unfold fetch_next_pending. split.
  - intros H s Hin Ha Hst.
    destruct (order_by step_index (List.filter (pending_of a) steps))
      as [|h t] eqn:Hs; [|discriminate].
    apply order_by_nil in Hs.
    assert (Hf : In s (List.filter (pending_of a) steps)).
    { apply filter_In. split; [exact Hin|].
      unfold pending_of. rewrite Ha, Hst, String.eqb_refl. reflexivity. }
    rewrite Hs in Hf. contradiction.
  - intros H.
    destruct (order_by step_index (List.filter (pending_of a) steps))
      as [|h t] eqn:Hs; [reflexivity|]. exfalso.
    assert (Hin : In h (List.filter (pending_of a) steps)).
    { apply (order_by_In step_index). rewrite Hs. now left. }
    apply filter_In in Hin as [Hin Hp].
    unfold pending_of in Hp. apply andb_true_iff in Hp as [Ha Hst].
    apply String.eqb_eq in Ha.
    apply (H h Hin Ha). destruct (step_status h); (reflexivity || discriminate).
Qed.

(** ** Status updates *)

Lemma update_step_status_rows (id : nat) (st : Status) (steps : list StepRow) :
  fst (update_step_status id st steps) = map (restatus id st) steps.
Proof. reflexivity. Qed.

Lemma update_step_status_hit (id : nat) (st : Status) (steps : list StepRow)
    (s : StepRow) :
  In s steps -> step_id s = id ->
  snd (update_step_status id st steps) <> [].
Proof.
  intros Hin Hid. unfold update_step_status. simpl.
  assert (H : In (set_step_status st s)
                 (List.filter (fun r => (step_id r =? id)%nat)
                    (map (fun r => if (step_id r =? id)%nat
                                   then set_step_status st r else r) steps))).
  { apply filter_In. split.
    - apply in_map_iff. exists s. split; [|exact Hin].
      now rewrite Hid, Nat.eqb_refl.
    - simpl. now rewrite Hid, Nat.eqb_refl. }
  intros E. rewrite E in H. contradiction.
Qed.


Lemma restatus_again (id : nat) (st1 st2 : Status) (steps : list StepRow) :
  map (restatus id st2) (map (restatus id st1) steps)
  = map (restatus id st2) steps.
Proof.
  rewrite map_map. apply map_ext. intros r. unfold restatus.
  destruct (step_id r =? id)%nat eqn:E; simpl; rewrite E; reflexivity.
Qed.

Lemma restatus_error_message (id : nat) (st : Status) (steps : list StepRow) :
  map step_error_message (map (restatus id st) steps)
  = map step_error_message steps.
Proof.
  rewrite map_map. apply map_ext. intros r. unfold restatus.
  destruct (step_id r =? id)%nat; reflexivity.
Qed.

(** The local [executeStep] touches the spec table only. *)
Lemma executeStep_steps (step : StepRow) (a : string)
    (brid uid : option string) (db db' : DB) (r : Msg + StepResult) :
  executeStep step a brid uid db = (db', r) ->
  execution_steps db' = execution_steps db
  /\ operations_log db' = operations_log db
  /\ app_versions db' = app_versions db
  /\ apps db' = apps db.
Proof.
  unfold executeStep.
  destruct (resolve_payload (operations_log db) step) as [m|[ty data]].
  - intros [= <- _]. auto.
  - destruct (negb (truthy ty)); [intros [= <- _]; auto|].
    destruct (executeStepHandler _ _ _ _ _ _) as [tbl [d|e]];
      intros [= <- _]; auto.
Qed.

(** ** One sequential invocation *)

(** What a sequential invocation does once it has selected [step]. *)
Lemma run_step_claimed (v : JSON) (db : DB) (step : StepRow) :
  truthy v = true ->
  fetch_next_pending (to_string v) (execution_steps db) = Some step ->
  let a := to_string v in
  let db1 := mark_step (step_id step) processing db in
  run_step (fun d => d) "POST" v db
  = match sent (resolve_user_id a db1) with
    | None =>
        (db1, (500%nat,
               RsError [Txt ("Could not determine user_id for app "
                             ++ a ++ ". App data: ");
                        Json (app_json (lookup_app a db1))]))
    | Some _ =>
        match executeStep step a (resolve_build_request_id a step db1)
                          (resolve_user_id a db1) db1 with
        | (db2, inl m) => step_failed step m db2
        | (db2, inr _) =>
            (mark_step (step_id step) applied db2, (200%nat, RsApplied step))
        end
    end.
Proof.
  intros Hv Hf a db1. subst a. unfold run_step. rewrite Hv. cbn [negb].
  change (negb ("POST" =? "POST")) with false. cbn iota. cbv zeta.
  rewrite Hf.
  apply fetch_next_pending_least in Hf as (Hin & _).
  pose proof (update_step_status_hit (step_id step) processing
                (execution_steps db) step Hin eq_refl) as Hne.
  destruct (snd (update_step_status (step_id step) processing
                                    (execution_steps db))) as [|u us] eqn:Hu;
    [contradiction|].
  fold db1.
  destruct (sent (resolve_user_id (to_string v) db1)); [|reflexivity].
  destruct (executeStep step (to_string v)
                        (resolve_build_request_id (to_string v) step db1)
                        (resolve_user_id (to_string v) db1) db1)
    as [db2 [m|r]] eqn:He; [reflexivity|].
  apply executeStep_steps in He as (Hsteps & _).
  assert (Hin1 : In (set_step_status processing step) (execution_steps db2)).
  { rewrite Hsteps. unfold db1, mark_step. simpl.
    apply in_map_iff. exists step. split; [|exact Hin].
    now rewrite Nat.eqb_refl. }
  pose proof (update_step_status_hit (step_id step) applied
                (execution_steps db2) _ Hin1 eq_refl) as Hne2.
  destruct (snd (update_step_status (step_id step) applied
                                    (execution_steps db2))); [contradiction|].
  reflexivity.
Qed.

(** In every outcome of a sequential invocation that selected [step], the
    steps table is the old one with the rows of that id moved to a
    status other than [pending]. *)
Lemma run_step_steps (v : JSON) (db : DB) (step : StepRow) :
  truthy v = true ->
  fetch_next_pending (to_string v) (execution_steps db) = Some step ->
  exists st, st <> pending
    /\ execution_steps (fst (run_step (fun d => d) "POST" v db))
       = map (restatus (step_id step) st) (execution_steps db).
Proof.
  intros Hv Hf. rewrite (run_step_claimed v db step Hv Hf). cbv zeta.
  destruct (sent _).
  - destruct (executeStep _ _ _ _ _) as [db2 [m|r]] eqn:He;
      apply executeStep_steps in He as (Hsteps & _).
    + exists failed. split; [discriminate|].
      unfold step_failed, mark_step. simpl. rewrite Hsteps. simpl.
      apply restatus_again.
    + exists applied. split; [discriminate|].
      unfold mark_step. simpl. rewrite Hsteps. simpl.
      apply restatus_again.
  - exists processing. split; [discriminate|]. reflexivity.
Qed.


(** C4 (amended): when the executor fails for the claimed step the
    invocation sets the step's status to failed and reports the
    executor's message, prefixed, in its response; when the executor
    succeeds it sets the status to applied.  In both cases the
    [error_message] column of every step is left as it was. *)
Theorem step_outcome_sets_status_only
    (v : JSON) (db : DB) (step : StepRow) (u : string) :
  truthy v = true ->
  fetch_next_pending (to_string v) (execution_steps db) = Some step ->
  sent (resolve_user_id (to_string v) db) = Some u ->
  let a := to_string v in
  let db1 := mark_step (step_id step) processing db in
  let run := run_step id_env "POST" v db in
  (forall db2 m,
      executeStep step a (resolve_build_request_id a step db)
                  (resolve_user_id a db) db1 = (db2, inl m) ->
      snd run = (500%nat, RsError (Txt "Step execution failed: " :: m))
      /\ execution_steps (fst run)
         = map (restatus (step_id step) failed) (execution_steps db))
  /\ (forall db2 r,
      executeStep step a (resolve_build_request_id a step db)
                  (resolve_user_id a db) db1 = (db2, inr r) ->
      snd run = (200%nat, RsApplied step)
      /\ execution_steps (fst run)
         = map (restatus (step_id step) applied) (execution_steps db))
  /\ map step_error_message (execution_steps (fst run))
     = map step_error_message (execution_steps db).
Proof.
  intros app_id_given selected Hu a db1 run. unfold run, id_env.
  rewrite (run_step_claimed v db step app_id_given selected). cbv zeta.
  fold a db1.
  change (resolve_user_id a db1) with (resolve_user_id a db).
  change (resolve_build_request_id a step db1)
    with (resolve_build_request_id a step db).
  unfold a in Hu |- *. rewrite Hu. fold a.
  destruct (executeStep step a (resolve_build_request_id a step db)
                        (resolve_user_id a db) db1) as [db2 [m|r]] eqn:He;
    pose proof He as He';
    apply executeStep_steps in He' as (Hsteps & _).
  - assert (Hfinal : execution_steps (fst (step_failed step m db2))
                     = map (restatus (step_id step) failed)
                           (execution_steps db)).
    { unfold step_failed, mark_step. simpl. rewrite Hsteps. unfold db1.
      simpl. apply restatus_again. }
    split; [|split].
    + intros db2' m' [= <- <-]. split; [reflexivity | exact Hfinal].
    + intros db2' r' H. discriminate H.
    + rewrite Hfinal. apply restatus_error_message.
  - assert (Hfinal : execution_steps (mark_step (step_id step) applied db2)
                     = map (restatus (step_id step) applied)
                           (execution_steps db)).
    { unfold mark_step. simpl. rewrite Hsteps. unfold db1.
      simpl. apply restatus_again. }
    split; [|split].
    + intros db2' m' H. discriminate H.
    + intros db2' r' [= <- <-]. split; [reflexivity | exact Hfinal].
    + cbn [fst]. rewrite Hfinal. apply restatus_error_message.
Qed.

Lemma step_outcome_sets_status_only_witness :
  snd (run_step id_env "POST" (JStr "app-1") db_two_orphans)
  = (500%nat,
     RsError [Txt "Step execution failed: ";
              Txt "create_model step missing required field: fields (array) in step.fields or step.details.fields"])
  /\ execution_steps (fst (run_step id_env "POST" (JStr "app-1") db_two_orphans))
     = map (restatus 1 failed) (execution_steps db_two_orphans).
Proof.
  destruct (step_outcome_sets_status_only (JStr "app-1") db_two_orphans
              step_model_no_fields "user-1" eq_refl eq_refl eq_refl)
    as [Hfail _].
  eapply Hfail. reflexivity.
Defined.

(** The claim of C4 fails on the code: the failed step keeps an empty
    [error_message] although the executor reported a message, and the
    applied step keeps the error text it had before. *)
Lemma error_message_neither_recorded_nor_cleared :
  let r1 := run_step id_env "POST" (JStr "app-1") db_two_orphans in
  let r2 := run_step id_env "POST" (JStr "app-1") (fst r1) in
  snd r1
  = (500%nat,
     RsError [Txt "Step execution failed: ";
              Txt "create_model step missing required field: fields (array) in step.fields or step.details.fields"])
  /\ map (fun s => (step_id s, step_status s, step_error_message s))
         (execution_steps (fst r1))
     = [(1%nat, failed, None); (2%nat, pending, Some "previous failure")]
  /\ snd r2 = (200%nat, RsApplied step_page_old_error)
  /\ map (fun s => (step_id s, step_status s, step_error_message s))
         (execution_steps (fst r2))
     = [(1%nat, failed, None); (2%nat, applied, Some "previous failure")].
Proof. vm_compute. repeat split; reflexivity. Qed.

(** ** Claiming a step *)





(** ** Payload resolution *)










(** ** Order of claims *)





(** * Properties of the step expander *)

Lemma firstn1_filter_nil {A : Type} (p : A -> bool) (l : list A) :
  firstn 1 (List.filter p l) = [] <-> existsb p l = false.
Proof.
  induction l as [|x r IH]; simpl; [intuition|].
  destruct (p x); simpl; [intuition discriminate | exact IH].
Qed.

Lemma stepsToInsert_rows (op : OpRow) (now : Z) (id0 i : nat)
    (ds : list JSON) (rows : list StepRow) :
  stepsToInsert op now id0 i ds = inr rows ->
  length rows = length ds
  /\ forall r, In r rows ->
       step_operation_id r = Some (op_id op)
       /\ step_app_id r = op_app_id op
       /\ step_status r = pending.
Proof.
  revert i rows. induction ds as [|d ds IH]; intros i rows; simpl.
  - intros [= <-]. split; [reflexivity | intros r []].
  - unfold step_of_descriptor.
    destruct (read d "type") as [m|ty]; [discriminate|].
    destruct (stepsToInsert op now id0 (S i) ds) as [m|rows'] eqn:E;
      [discriminate|].
    intros [= <-]. destruct (IH _ _ E) as [Hlen Hrows].
    split; [simpl; now rewrite Hlen|].
    intros r [<-|Hr]; [simpl; auto | now apply Hrows].
Qed.

Lemma linked_to_row (op : OpRow) (r : StepRow) :
  step_operation_id r = Some (op_id op) -> step_app_id r = op_app_id op ->
  linked_to op r = true.
Proof.
  intros Ho Ha. unfold linked_to. now rewrite Ho, Ha, Nat.eqb_refl, String.eqb_refl.
Qed.

Lemma orphan_of_linked (a : string) (s : StepRow) :
  step_operation_id s <> None -> orphan_of a s = false.
Proof.
  unfold orphan_of. destruct (step_operation_id s); [|congruence].
  intros _. apply andb_false_r.
Qed.

Lemma filter_linked_delete (op : OpRow) (a : string) (l : list StepRow) :
  List.filter (linked_to op)
    (List.filter (fun s => negb (orphan_of a s)) l)
  = List.filter (linked_to op) l.
Proof.
  induction l as [|s r IH]; simpl; [reflexivity|].
  destruct (orphan_of a s) eqn:Eo; simpl.
  - unfold orphan_of in Eo. apply andb_true_iff in Eo as [_ Eo].
    unfold linked_to at 2. destruct (step_operation_id s); [discriminate|].
    simpl. exact IH.
  - destruct (linked_to op s); now rewrite IH.
Qed.

Lemma filter_orphans_idem (a : string) (l : list StepRow) :
  List.filter (fun s => negb (orphan_of a s))
    (List.filter (fun s => negb (orphan_of a s)) l)
  = List.filter (fun s => negb (orphan_of a s)) l.
Proof.
  induction l as [|s r IH]; simpl; [reflexivity|].
  destruct (orphan_of a s) eqn:Eo; simpl; [exact IH|].
  rewrite Eo. simpl. now rewrite IH.
Qed.

(** The three outcomes of the loop body. *)
Lemma expand_operation_cases (op : OpRow) (db : DB) (t : nat) (ids : list nat) :
  (settled op db = true /\ expand_operation op db t ids = Expanding db t ids)
  \/ (settled op db = false
      /\ exists m,
           expand_operation op db t ids
           = Thrown (delete_orphans (op_app_id op) db) m
           /\ forall t' ids',
                expand_operation op (delete_orphans (op_app_id op) db) t' ids'
                = Thrown (delete_orphans (op_app_id op) db) m)
  \/ (settled op db = false
      /\ exists rows,
           rows <> []
           /\ (forall r, In r rows ->
                 step_operation_id r = Some (op_id op)
                 /\ step_app_id r = op_app_id op
                 /\ step_status r = pending)
           /\ expand_operation op db t ids
              = Expanding (insert_steps rows (delete_orphans (op_app_id op) db))
                          (t + length rows) (ids ++ [op_id op])%list).
Proof.
  unfold expand_operation, settled.
  destruct (op_operations op) as [| | | | |[|d ds]|]; auto.
  destruct (firstn 1 (List.filter (linked_to op) (execution_steps db)))
    as [|x xs] eqn:E.
  - apply firstn1_filter_nil in E. right.
    assert (Hlinked :
      List.filter (linked_to op)
        (execution_steps (delete_orphans (op_app_id op) db))
      = List.filter (linked_to op) (execution_steps db)).
    { unfold delete_orphans. simpl. apply filter_linked_delete. }
    assert (Hidem :
      delete_orphans (op_app_id op) (delete_orphans (op_app_id op) db)
      = delete_orphans (op_app_id op) db).
    { unfold delete_orphans, with_steps. simpl. f_equal.
      apply filter_orphans_idem. }
    destruct (stepsToInsert op (clock (delete_orphans (op_app_id op) db))
                (next_id (delete_orphans (op_app_id op) db)) 0 (d :: ds))
      as [m|rows] eqn:Es.
    + left. split; [exact E|]. exists m. split; [reflexivity|].
      intros t' ids'. rewrite Hlinked.
      assert (E' : firstn 1 (List.filter (linked_to op) (execution_steps db)) = [])
        by now apply firstn1_filter_nil.
      rewrite E', Hidem, Es. reflexivity.
    + right. split; [exact E|]. exists rows.
      destruct (stepsToInsert_rows _ _ _ _ _ _ Es) as [Hlen Hrows].
      split; [|split; [exact Hrows | reflexivity]].
      intros ->. simpl in Hlen. discriminate.
  - left. split; [|reflexivity].
    destruct (existsb (linked_to op) (execution_steps db)) eqn:Ex;
      [reflexivity|].
    apply firstn1_filter_nil in Ex. congruence.
Qed.

Lemma keeps_linked_refl (db : DB) : keeps_linked db db.
Proof. intros s Hs _. exact Hs. Qed.

Lemma keeps_linked_trans (db1 db2 db3 : DB) :
  keeps_linked db1 db2 -> keeps_linked db2 db3 -> keeps_linked db1 db3.
Proof. intros H12 H23 s Hs Hn. apply H23; [apply H12|]; assumption. Qed.

Lemma keeps_linked_delete (a : string) (db : DB) :
  keeps_linked db (delete_orphans a db).
Proof.
  intros s Hs Hn. unfold delete_orphans. simpl.
  apply filter_In. split; [exact Hs|].
  now rewrite orphan_of_linked.
Qed.

Lemma keeps_linked_insert (rows : list StepRow) (db : DB) :
  keeps_linked db (insert_steps rows db).
Proof. intros s Hs _. simpl. apply in_or_app. now left. Qed.

Lemma expand_operation_keeps (op : OpRow) (db : DB) (t : nat) (ids : list nat) :
  keeps_linked db (expansion_db (expand_operation op db t ids)).
Proof.
  destruct (expand_operation_cases op db t ids)
    as [[_ ->]|[[_ [m [-> _]]]|[_ [rows [_ [_ ->]]]]]]; simpl.
  - apply keeps_linked_refl.
  - apply keeps_linked_delete.
  - eapply keeps_linked_trans;
      [apply keeps_linked_delete | apply keeps_linked_insert].
Qed.

Lemma expand_loop_keeps (ops : list OpRow) (db : DB) (t : nat) (ids : list nat) :
  keeps_linked db (expansion_db (expand_loop ops db t ids)).
Proof.
  revert db t ids. induction ops as [|op ops IH]; intros db t ids; simpl.
  - apply keeps_linked_refl.
  - pose proof (expand_operation_keeps op db t ids) as Hk.
    destruct (expand_operation op db t ids) as [db' t' ids'|db' m]; simpl in *.
    + eapply keeps_linked_trans; [exact Hk | apply IH].
    + exact Hk.
Qed.

Lemma settled_keeps (op : OpRow) (db db' : DB) :
  keeps_linked db db' -> settled op db = true -> settled op db' = true.
Proof.
  intros Hk. unfold settled.
  destruct (op_operations op) as [| | | | |[|d ds]|]; auto.
  rewrite !existsb_exists. intros [s [Hs Hl]]. exists s. split; [|exact Hl].
  apply Hk; [exact Hs|].
  unfold linked_to in Hl. destruct (step_operation_id s); [discriminate|].
  discriminate Hl.
Qed.

Lemma expand_operation_settles (op : OpRow) (db db' : DB) (t t' : nat)
    (ids ids' : list nat) :
  expand_operation op db t ids = Expanding db' t' ids' ->
  settled op db' = true.
Proof.
  destruct (expand_operation_cases op db t ids)
    as [[Hs ->]|[[_ [m [-> _]]]|[Hs [rows [Hne [Hrows ->]]]]]].
  - intros [= <- _ _]. exact Hs.
  - discriminate.
  - intros [= <- _ _]. unfold settled in *.
    destruct (op_operations op) as [| | | | |[|d ds]|]; auto.
    apply existsb_exists. destruct rows as [|r rows]; [congruence|].
    exists r. destruct (Hrows r (or_introl eq_refl)) as (Ho & Ha & _).
    split; [|now apply linked_to_row].
    simpl. apply in_or_app. right. now left.
Qed.

Lemma expand_loop_settled (ops : list OpRow) (db : DB) (t : nat) (ids : list nat) :
  (forall op, In op ops -> settled op db = true) ->
  expand_loop ops db t ids = Expanding db t ids.
Proof.
  induction ops as [|op ops IH]; intros H; simpl; [reflexivity|].
  destruct (expand_operation_cases op db t ids)
    as [[_ ->]|[[Hs _]|[Hs _]]].
  - apply IH. intros op' Hop'. apply H. now right.
  - rewrite (H op (or_introl eq_refl)) in Hs. discriminate.
  - rewrite (H op (or_introl eq_refl)) in Hs. discriminate.
Qed.

(** Running the loop again from where it stopped changes nothing. *)
Lemma expand_loop_again (ops : list OpRow) (db : DB) (t t2 : nat)
    (ids ids2 : list nat) :
  let db1 := expansion_db (expand_loop ops db t ids) in
  expansion_db (expand_loop ops db1 t2 ids2) = db1.
Proof.
  revert db t ids t2 ids2.
  induction ops as [|op ops IH]; intros db t ids t2 ids2; simpl;
    [reflexivity|].
  destruct (expand_operation_cases op db t ids)
    as [[Hs E]|[[_ [m [E Hagain]]]|[Hs [rows [_ [_ E]]]]]].
  - rewrite E.
    set (db1 := expansion_db (expand_loop ops db t ids)).
    assert (Hs1 : settled op db1 = true).
    { eapply settled_keeps; [apply expand_loop_keeps | exact Hs]. }
    destruct (expand_operation_cases op db1 t2 ids2)
      as [[_ ->]|[[Hs' _]|[Hs' _]]]; try congruence.
    apply IH.
  - rewrite E. simpl. now rewrite Hagain.
  - rewrite E.
    set (db' := insert_steps rows (delete_orphans (op_app_id op) db)).
    set (db1 := expansion_db (expand_loop ops db' (t + length rows)
                                          (ids ++ [op_id op])%list)).
    assert (Hs1 : settled op db1 = true).
    { eapply settled_keeps; [apply expand_loop_keeps|].
      eapply expand_operation_settles. exact E. }
    destruct (expand_operation_cases op db1 t2 ids2)
      as [[_ ->]|[[Hs' _]|[Hs' _]]]; try congruence.
    apply IH.
Qed.

Lemma expand_operation_log (op : OpRow) (db : DB) (t : nat) (ids : list nat) :
  operations_log (expansion_db (expand_operation op db t ids))
  = operations_log db.
Proof.
  destruct (expand_operation_cases op db t ids)
    as [[_ ->]|[[_ [m [-> _]]]|[_ [rows [_ [_ ->]]]]]]; reflexivity.
Qed.

Lemma expand_loop_log (ops : list OpRow) (db : DB) (t : nat) (ids : list nat) :
  operations_log (expansion_db (expand_loop ops db t ids)) = operations_log db.
Proof.
  revert db t ids. induction ops as [|op ops IH]; intros db t ids; simpl;
    [reflexivity|].
  pose proof (expand_operation_log op db t ids) as Hl.
  destruct (expand_operation op db t ids) as [db' t' ids'|db' m]; simpl in *.
  - now rewrite IH.
  - exact Hl.
Qed.

(** The handler's database is the loop's database. *)
Lemma expand_operations_db (method : string) (appId : option string)
    (operationId : option nat) (db : DB) :
  fst (expand_operations method appId operationId db) = db
  \/ (method = "POST"
      /\ fst (expand_operations method appId operationId db)
         = expansion_db
             (expand_loop (pending_operations (sent appId) operationId
                                              (operations_log db)) db 0 [])).
Proof.
  unfold expand_operations.
  destruct (String.eqb_spec method "POST") as [->|Hm]; cbn [negb];
    [|now left].
  destruct (sent appId) as [a|] eqn:Ea; destruct operationId as [o|];
    try (now left);
    (destruct (pending_operations _ _ _) as [|op ops] eqn:Ep; [now left|];
     right; split; [reflexivity|];
     destruct (expand_loop (op :: ops) db 0 []); reflexivity).
Qed.

(** Expanding a second time changes nothing. *)
Lemma expand_operations_again (method : string) (appId : option string)
    (operationId : option nat) (db : DB) :
  let db1 := fst (expand_operations method appId operationId db) in
  fst (expand_operations method appId operationId db1) = db1.
Proof.
  intros db1.
  destruct (expand_operations_db method appId operationId db)
    as [H|[_ H]].
  - unfold db1. rewrite H. exact H.
  - destruct (expand_operations_db method appId operationId db1)
      as [H1|[_ H1]]; [exact H1|].
    rewrite H1. fold db1 in H.
    assert (Hlog : operations_log db1 = operations_log db)
      by (rewrite H; apply expand_loop_log).
    rewrite Hlog, H. apply expand_loop_again.
Qed.

(** ** Steps of an operation that is already expanded *)

Lemma steps_of_delete (o : nat) (a : string) (l : list StepRow) :
  steps_of o (List.filter (fun s => negb (orphan_of a s)) l) = steps_of o l.
Proof.
  unfold steps_of. induction l as [|s r IH]; simpl; [reflexivity|].
  destruct (orphan_of a s) eqn:Eo; simpl.
  - unfold orphan_of in Eo. apply andb_true_iff in Eo as [_ Eo].
    destruct (step_operation_id s); [discriminate|]. exact IH.
  - destruct (step_operation_id s) as [o'|]; [|exact IH].
    destruct (o' =? o)%nat; now rewrite IH.
Qed.

Lemma steps_of_other (o : nat) (rows : list StepRow) :
  (forall r, In r rows -> step_operation_id r <> Some o) ->
  steps_of o rows = [].
Proof.
  unfold steps_of. induction rows as [|r rows IH]; intros H; simpl;
    [reflexivity|].
  destruct (step_operation_id r) as [o'|] eqn:E.
  - destruct (Nat.eqb_spec o' o) as [->|Hne].
    + exfalso. apply (H r (or_introl eq_refl)). exact E.
    + apply IH. intros r' Hr'. apply H. now right.
  - apply IH. intros r' Hr'. apply H. now right.
Qed.

Lemma steps_of_app (o : nat) (l1 l2 : list StepRow) :
  steps_of o (l1 ++ l2) = (steps_of o l1 ++ steps_of o l2)%list.
Proof. apply List.filter_app. Qed.

Lemma execution_steps_insert (rows : list StepRow) (db : DB) :
  execution_steps (insert_steps rows db) = (execution_steps db ++ rows)%list.
Proof. reflexivity. Qed.

Lemma execution_steps_delete (a : string) (db : DB) :
  execution_steps (delete_orphans a db)
  = List.filter (fun s => negb (orphan_of a s)) (execution_steps db).
Proof. reflexivity. Qed.

Lemma expand_operation_steps_of (o : nat) (op : OpRow) (db : DB) (t : nat)
    (ids : list nat) (s : StepRow) :
  In s (execution_steps db) -> step_operation_id s = Some o ->
  (op_id op = o -> step_app_id s = op_app_id op) ->
  steps_of o (execution_steps (expansion_db (expand_operation op db t ids)))
  = steps_of o (execution_steps db).
Proof.
  intros Hin Hs Happ.
  destruct (expand_operation_cases op db t ids)
    as [[_ ->]|[[_ [m [-> _]]]|[Hns [rows [_ [Hrows ->]]]]]];
    cbn [expansion_db].
  - reflexivity.
  - rewrite execution_steps_delete. apply steps_of_delete.
  - rewrite execution_steps_insert, execution_steps_delete, steps_of_app.
    rewrite steps_of_delete, (steps_of_other o rows); [apply app_nil_r|].
    intros r Hr Hro. destruct (Hrows r Hr) as (Hro' & _).
    rewrite Hro' in Hro. injection Hro as Heq.
    (* the operation has a linked step, so it was settled *)
    unfold settled in Hns.
    destruct (op_operations op) as [| | | | |[|d ds]|]; try discriminate.
    assert (Hex : existsb (linked_to op) (execution_steps db) = true).
    { apply existsb_exists. exists s. split; [exact Hin|].
      apply linked_to_row; [now rewrite Hs, Heq | now apply Happ]. }
    congruence.
Qed.

Lemma expand_loop_steps_of (o : nat) (ops : list OpRow) (db : DB) (t : nat)
    (ids : list nat) (s : StepRow) :
  In s (execution_steps db) -> step_operation_id s = Some o ->
  (forall op, In op ops -> op_id op = o -> step_app_id s = op_app_id op) ->
  steps_of o (execution_steps (expansion_db (expand_loop ops db t ids)))
  = steps_of o (execution_steps db).
Proof.
  revert db t ids. induction ops as [|op ops IH]; intros db t ids Hin Hs Happ;
    simpl; [reflexivity|].
  pose proof (expand_operation_steps_of o op db t ids s Hin Hs
                (Happ op (or_introl eq_refl))) as Hstep.
  pose proof (expand_operation_keeps op db t ids) as Hk.
  destruct (expand_operation op db t ids) as [db' t' ids'|db' m];
    simpl in *; [|exact Hstep].
  rewrite IH; [exact Hstep | | exact Hs |].
  - apply Hk; [exact Hin | congruence].
  - intros op' Hop'. apply Happ. now right.
Qed.

Lemma pending_operations_In (a : option string) (o : option nat)
    (ops : list OpRow) (op : OpRow) :
  In op (pending_operations a o ops) -> In op ops.
Proof.
  unfold pending_operations. rewrite order_by_In, filter_In. tauto.
Qed.

(** ** Orphan steps are purged before an operation is expanded *)

Lemma no_orphans_kept (a : string) (op : OpRow) (db : DB) (t : nat)
    (ids : list nat) :
  no_orphans a db ->
  no_orphans a (expansion_db (expand_operation op db t ids)).
Proof.
  intros Hno.
  destruct (expand_operation_cases op db t ids)
    as [[_ ->]|[[_ [m [-> _]]]|[_ [rows [_ [Hrows ->]]]]]]; simpl.
  - exact Hno.
  - intros s Hs. unfold delete_orphans in Hs. simpl in Hs.
    apply filter_In in Hs as [Hs _]. now apply Hno.
  - intros s Hs Ha. simpl in Hs. apply in_app_or in Hs as [Hs|Hs].
    + apply filter_In in Hs as [Hs _]. now apply Hno.
    + destruct (Hrows s Hs) as (Ho & _). congruence.
Qed.

Lemma expand_operation_purges (op : OpRow) (db db' : DB) (t t' : nat)
    (ids ids' : list nat) :
  expand_operation op db t ids = Expanding db' t' ids' ->
  (db' = db /\ ids' = ids)
  \/ (ids' = (ids ++ [op_id op])%list /\ no_orphans (op_app_id op) db').
Proof.
  destruct (expand_operation_cases op db t ids)
    as [[_ ->]|[[_ [m [-> _]]]|[_ [rows [_ [Hrows ->]]]]]].
  - intros [= <- _ <-]. now left.
  - discriminate.
  - intros [= <- _ <-]. right. split; [reflexivity|].
    intros s Hs Ha. simpl in Hs. apply in_app_or in Hs as [Hs|Hs].
    + apply filter_In in Hs as [_ Hs].
      unfold orphan_of in Hs. rewrite Ha, String.eqb_refl in Hs. simpl in Hs.
      destruct (step_operation_id s); [discriminate | discriminate].
    + destruct (Hrows s Hs) as (Ho & _). congruence.
Qed.

Lemma expand_loop_purges (log ops : list OpRow) (db db' : DB) (t t' : nat)
    (ids ids' : list nat) :
  (forall op op', In op log -> In op' log ->
                  op_id op = op_id op' -> op_app_id op = op_app_id op') ->
  (forall op, In op ops -> In op log) ->
  (forall op, In op log -> In (op_id op) ids -> no_orphans (op_app_id op) db) ->
  expand_loop ops db t ids = Expanding db' t' ids' ->
  forall op, In op log -> In (op_id op) ids' -> no_orphans (op_app_id op) db'.
Proof.
  intros Hkey. revert db t ids.
  induction ops as [|op0 ops IH]; intros db t ids Hsub Hq; simpl.
  - intros [= <- _ <-]. exact Hq.
  - destruct (expand_operation op0 db t ids) as [db1 t1 ids1|db1 m] eqn:E;
      [|discriminate].
    apply IH.
    + intros op Hop. apply Hsub. now right.
    + intros op Hop Hid.
      pose proof (no_orphans_kept (op_app_id op) op0 db t ids) as Hkept.
      rewrite E in Hkept. simpl in Hkept.
      destruct (expand_operation_purges _ _ _ _ _ _ _ E)
        as [[-> ->]|[-> Hpurged]].
      * now apply Hq.
      * apply in_app_or in Hid as [Hid|[Hid|[]]].
        -- apply Hkept. now apply Hq.
        -- rewrite (Hkey op op0 Hop (Hsub op0 (or_introl eq_refl)))
             by congruence.
           exact Hpurged.
Qed.

Lemma expand_operations_ok (method : string) (appId : option string)
    (operationId : option nat) (db : DB) (n : nat) (ids : list nat) :
  snd (expand_operations method appId operationId db) = (200%nat, ExOk n ids) ->
  ids = []
  \/ expand_loop (pending_operations (sent appId) operationId
                                     (operations_log db)) db 0 []
     = Expanding (fst (expand_operations method appId operationId db)) n ids.
Proof.
  unfold expand_operations.
  destruct (negb (method =? "POST")); [discriminate|].
  destruct (sent appId) as [a|]; destruct operationId as [o|];
    try discriminate;
    (destruct (pending_operations _ _ _) as [|op ops];
     [intros [= _ <-]; now left|];
     destruct (expand_loop (op :: ops) db 0 []) as [db' t' ids'|db' m];
     [intros [= <- <-]; now right | discriminate]).
Qed.

(** C5: an operation that already has a step linked to it keeps exactly
    its steps when the expander runs (none is created, none is deleted);
    running the expander a second time with the same request changes
    nothing at all, so no step is duplicated; and whenever the expander
    reports an operation as expanded, the operation's app has no step
    left without owning operation. *)
Theorem expander_idempotent_after_purge
    (method : string) (appId : option string) (operationId : option nat)
    (db : DB) :
  let db1 := fst (expand_operations method appId operationId db) in
  (forall op s,
      steps_match_apps db ->
      In op (operations_log db) -> In s (execution_steps db) ->
      step_operation_id s = Some (op_id op) ->
      steps_of (op_id op) (execution_steps db1)
      = steps_of (op_id op) (execution_steps db))
  /\ fst (expand_operations method appId operationId db1) = db1
  /\ (forall n ids op,
        op_ids_key db ->
        snd (expand_operations method appId operationId db)
        = (200%nat, ExOk n ids) ->
        In op (operations_log db) -> In (op_id op) ids ->
        no_orphans (op_app_id op) db1).
Proof.
  intros db1. split; [|split].
  - intros op s Hmatch Hop Hs Hlinked. unfold db1.
    destruct (expand_operations_db method appId operationId db)
      as [->|[_ ->]]; [reflexivity|].
    apply (expand_loop_steps_of _ _ _ _ _ s); [exact Hs | exact Hlinked|].
    intros op' Hop' Hid. apply Hmatch; [exact Hs | | congruence].
    eapply pending_operations_In. exact Hop'.
  - apply expand_operations_again.
  - intros n ids op Hkey Hok Hop Hid.
    destruct (expand_operations_ok _ _ _ _ _ _ Hok) as [->|Hloop];
      [contradiction|].
    fold db1 in Hloop.
    apply (expand_loop_purges (operations_log db)
             (pending_operations (sent appId) operationId (operations_log db))
             db db1 0 n [] ids);
      [exact Hkey | | | exact Hloop | exact Hop | exact Hid].
    + intros op' Hop'. eapply pending_operations_In. exact Hop'.
    + intros op' _ [].
Qed.

Lemma expander_idempotent_after_purge_witness :
  steps_of 10 (execution_steps
                 (fst (expand_operations "POST" (Some "app-1") None db_orders)))
  = steps_of 10 (execution_steps db_orders)
  /\ no_orphans "app-1"
       (fst (expand_operations "POST" (Some "app-1") None db_unexpanded)).
Proof.
  split.
  - destruct (expander_idempotent_after_purge "POST" (Some "app-1") None
                db_orders) as [H _].
    apply (H op_orders step_orders_page).
    + intros s op Hs Hop _. simpl in Hs, Hop.
      destruct Hop as [<-|[]]. destruct Hs as [<-|[<-|[]]]; reflexivity.
    + simpl. now left.
    + simpl. now left.
    + reflexivity.
  - destruct (expander_idempotent_after_purge "POST" (Some "app-1") None
                db_unexpanded) as (_ & _ & H).
    apply (H 2%nat [10%nat] op_orders).
    + intros op op' Hop Hop' _. simpl in Hop, Hop'.
      destruct Hop as [<-|[]]. destruct Hop' as [<-|[]]. reflexivity.
    + reflexivity.
    + simpl. now left.
    + simpl. now left.
Defined.

(** The sample run: the orphan is deleted and two steps are created; a
    second run creates nothing. *)
Example expand_sample :
  let r1 := expand_operations "POST" (Some "app-1") None db_unexpanded in
  let r2 := expand_operations "POST" (Some "app-1") None (fst r1) in
  snd r1 = (200%nat, ExOk 2 [10%nat])
  /\ map (fun s => (step_id s, step_operation_id s, step_index s,
                    step_type s, step_target s))
         (execution_steps (fst r1))
     = [(100%nat, Some 10%nat, 0%Z, JStr "create_page", JStr "orders");
        (101%nat, Some 10%nat, 1%Z, JStr "create_model", JStr "Order")]
  /\ snd r2 = (200%nat, ExOk 0 [])
  /\ execution_steps (fst r2) = execution_steps (fst r1).
Proof. vm_compute. repeat split; reflexivity. Qed.

(** * Completion of an operation, path by path *)

Lemma same_but_config_refl (db : DB) : same_but_config db db.
Proof. repeat split. Qed.

Lemma same_but_config_trans (db1 db2 db3 : DB) :
  same_but_config db1 db2 -> same_but_config db2 db3 ->
  same_but_config db1 db3.
Proof.
  unfold same_but_config. intros (A1 & A2 & A3 & A4) (B1 & B2 & B3 & B4).
  repeat split; congruence.
Qed.

Lemma cfg_update_same (a t k : string) (v : JSON) (db : DB) :
  same_but_config db (cfg_update a t k v db).
Proof. repeat split. Qed.

Lemma cfg_insert_same (a t k : string) (v : JSON) (db : DB) :
  same_but_config db (cfg_insert a t k v db).
Proof.
  unfold cfg_insert. destruct (existsb _ _); repeat split.
Qed.

Lemma cfg_upsert_same (a t k : string) (v : JSON) (db : DB) :
  same_but_config db (cfg_upsert a t k v db).
Proof.
  unfold cfg_upsert. destruct (existsb _ _);
    [apply cfg_update_same | apply cfg_insert_same].
Qed.

Lemma cfg_delete_same (a t k : string) (db : DB) :
  same_but_config db (cfg_delete a t k db).
Proof. repeat split. Qed.

#[export] Hint Resolve same_but_config_refl cfg_update_same cfg_insert_same
  cfg_upsert_same cfg_delete_same : ro.

Lemma applyAddComponent_same (a : string) (op : JSON) (db : DB) :
  same_but_config db (fst (applyAddComponent a op db)).
Proof.
  unfold applyAddComponent.
  destruct (cfg_select_single _ _ _ _) as [row|]; [|auto with ro].
  destruct (read (cfg_value row) "components") as [m|c]; [auto with ro|].
  destruct (cfg_value row); simpl; auto with ro;
    repeat match goal with
           | |- context [match ?x with _ => _ end] =>
               destruct x; simpl; auto with ro
           end.
Qed.

Lemma applyRemoveComponent_same (a : string) (op : JSON) (db : DB) :
  same_but_config db (fst (applyRemoveComponent a op db)).
Proof.
  unfold applyRemoveComponent.
  destruct (cfg_select_single _ _ _ _) as [row|]; [|auto with ro].
  destruct (read (cfg_value row) "components") as [m|c]; [auto with ro|].
  match goal with
  | |- context [match ?x with inl _ => _ | inr _ => _ end] =>
      destruct x; simpl; auto with ro
  end.
Qed.

Lemma apply_one_same (a : string) (op ty : JSON) (db : DB)
    (p : DB * (Msg + unit)) :
  apply_one a op ty db = Some p -> same_but_config db (fst p).
Proof.
  unfold apply_one.
  repeat match goal with
         | |- context [if ?b then _ else _] => destruct b
         end; try discriminate; intros [= <-].
  - apply applyAddComponent_same.
  - unfold applyAddPage. destruct (read _ _); simpl; auto with ro.
  - unfold applyUpdateDataModel.
    destruct (cfg_select_single _ _ _ _); simpl; auto with ro.
  - unfold applyUpdateTheme. simpl. auto with ro.
  - unfold applyAddPermission.
    destruct (cfg_select_single _ _ _ _) as [row|].
    + destruct (read (cfg_value row) "rules") as [m|x];
        [simpl; auto with ro|].
      destruct (js_or x (JArr [])); simpl; auto with ro.
    + simpl. auto with ro.
  - unfold applyUpdateLayout. simpl. auto with ro.
  - apply applyRemoveComponent_same.
  - unfold applyRemovePage. simpl. auto with ro.
Qed.

Lemma applyEach_same (a : string) (ops : list JSON) (db : DB) :
  same_but_config db (fst (applyEach a ops db)).
Proof.
  revert db. induction ops as [|op ops IH]; intros db; simpl;
    [auto with ro|].
  destruct (read op "type") as [m|ty]; [auto with ro|].
  destruct (apply_one a op ty db) as [[db' [m|u]]|] eqn:E; simpl.
  - apply (apply_one_same _ _ _ _ _ E).
  - eapply same_but_config_trans;
      [apply (apply_one_same _ _ _ _ _ E) | apply IH].
  - auto with ro.
Qed.

Lemma applyOperations_same (a : string) (ops : JSON) (db : DB) :
  same_but_config db (fst (applyOperations a ops db)).
Proof.
  unfold applyOperations. destruct (elements ops); [|auto with ro].
  apply applyEach_same.
Qed.

(** The bulk runner's step loop writes the spec table only. *)
Lemma run_steps_other_tables (a : string) (steps : list JSON) (i : nat)
    (db : DB) (errs : list Msg) :
  let db' := fst (run_steps a steps i db errs) in
  app_versions db' = app_versions db
  /\ operations_log db' = operations_log db
  /\ clock db' = clock db.
Proof.
  revert i db errs. induction steps as [|s r IH]; intros i db errs; simpl;
    [repeat split|].
  destruct (read s "type") as [m|ty]; [repeat split|].
  destruct (negb (truthy ty)); [apply IH|].
  destruct (executeStepHandler _ _ _ _ _ _) as [tbl [d|e]];
    match goal with
    | |- context [run_steps a r (S i) ?d ?e] =>
        destruct (IH (S i) d e) as (H1 & H2 & H3)
    end; simpl in *; repeat split; assumption.
Qed.

Lemma mark_step_other_tables (id : nat) (st : Status) (db : DB) :
  operations_log (mark_step id st db) = operations_log db
  /\ app_versions (mark_step id st db) = app_versions db.
Proof. split; reflexivity. Qed.

(** A sequential run-one-step invocation writes neither the operations
    log nor the versions table. *)
Lemma run_step_other_tables (method : string) (v : JSON) (db : DB) :
  operations_log (fst (run_step id_env method v db)) = operations_log db
  /\ app_versions (fst (run_step id_env method v db)) = app_versions db.
Proof.
  unfold run_step, id_env.
  destruct (negb (method =? "POST")); [now split|].
  destruct (negb (truthy v)); [now split|].
  destruct (fetch_next_pending (to_string v) (execution_steps db))
    as [step|]; [|now split].
  cbv zeta.
  destruct (snd (update_step_status (step_id step) processing
                                    (execution_steps db))); [now split|].
  destruct (sent _); [|now split].
  destruct (executeStep _ _ _ _ _) as [db2 [m|r]] eqn:He;
    apply executeStep_steps in He as (_ & Hlog & Hver & _).
  - unfold step_failed. simpl. now rewrite Hlog, Hver.
  - destruct (snd (update_step_status (step_id step) applied
                                      (execution_steps db2)));
      unfold step_failed; simpl; now rewrite Hlog, Hver.
Qed.

Lemma mark_app_operation_applied_rows (id : nat) (db : DB) (r : AppOpRow) :
  In r (app_operations (mark_app_operation_applied id db)) ->
  aop_id r = id ->
  aop_status r = applied /\ aop_applied_at r = Some (clock db).
Proof.
  unfold mark_app_operation_applied. simpl. intros Hin Hid.
  apply in_map_iff in Hin as [r0 [<- _]].
  destruct (aop_id r0 =? id)%nat eqn:E; [now split|].
  apply Nat.eqb_neq in E. contradiction.
Qed.

Lemma mark_app_operation_applied_ids (id : nat) (db : DB) :
  map aop_id (app_operations (mark_app_operation_applied id db))
  = map aop_id (app_operations db).
Proof.
  unfold mark_app_operation_applied. simpl. rewrite map_map.
  apply map_ext. intros r. now destruct (aop_id r =? id)%nat.
Qed.

(** The snapshot writes the versions table only. *)
Lemma createVersionSnapshot_others (a : string) (u : option string) (o : nat)
    (c : option string) (db : DB) :
  app_operations (createVersionSnapshot a u o c db) = app_operations db
  /\ clock (createVersionSnapshot a u o c db) = clock db.
Proof.
  unfold createVersionSnapshot. now destruct (build_snapshot a db).
Qed.

Lemma mark_operation_applied_rows (id : nat) (db : DB) (r : OpRow) :
  In r (operations_log (mark_operation_applied id db)) ->
  op_id r = id ->
  op_status r = applied /\ op_applied_at r = Some (clock db)
  /\ op_error_message r = None.
Proof.
  unfold mark_operation_applied. simpl. intros Hin Hid.
  apply in_map_iff in Hin as [r0 [<- _]]. unfold set_operation in *.
  destruct (op_id r0 =? id)%nat eqn:E; [now repeat split|].
  apply Nat.eqb_neq in E. contradiction.
Qed.

(** C1 (amended): on the bulk apply path, an operation whose operations
    validate and apply is set to applied with its applied-at time; before
    that it is given a version snapshot, numbered one above the app's
    highest version, and when the snapshot cannot be built the error is
    swallowed: no version is recorded and the operation is applied all
    the same.  On the bulk step runner, an operation all of whose steps
    execute successfully is set to applied with its applied-at time and a
    cleared error, and no version snapshot is recorded.  The per-step run
    loop writes neither the operations log nor the versions table. *)
Theorem operation_completion_by_path :
  (forall (operation : AppOpRow) (db db2 : DB),
      validateOperations (aop_app_id operation) (aop_operations operation) db
      = inr [] ->
      applyOperations (aop_app_id operation) (aop_operations operation) db
      = (db2, inr tt) ->
      let db' := fst (process_operation operation db) in
      snd (process_operation operation db) = true
      /\ map aop_id (app_operations db') = map aop_id (app_operations db)
      /\ (forall r, In r (app_operations db') -> aop_id r = aop_id operation ->
                    aop_status r = applied
                    /\ aop_applied_at r = Some (clock db))
      /\ (forall snapshot,
             build_snapshot (aop_app_id operation) db2 = inr snapshot ->
             app_versions db'
             = (app_versions db
                ++ [mkVersionRow (aop_app_id operation)
                      (aop_user_id operation) (aop_id operation)
                      (sent (aop_chat_message_id operation))
                      (next_version_number (aop_app_id operation)
                                           (app_versions db))
                      snapshot])%list)
      /\ (forall error,
             build_snapshot (aop_app_id operation) db2 = inl error ->
             app_versions db' = app_versions db))
  /\ (forall (appId : string) (operation : OpRow) (db db2 : DB)
             (s : JSON) (ss : list JSON),
        op_operations operation = JArr (s :: ss) ->
        run_steps appId (s :: ss) 0
                  (mark_operation_processing (op_id operation) db) []
        = (db2, inr []) ->
        let db' := fst (run_operation appId operation db) in
        rr_success (snd (run_operation appId operation db)) = true
        /\ app_versions db' = app_versions db
        /\ forall r, In r (operations_log db') -> op_id r = op_id operation ->
                     op_status r = applied
                     /\ op_applied_at r = Some (clock db)
                     /\ op_error_message r = None)
  /\ (forall (method : string) (v : JSON) (db : DB),
        operations_log (fst (run_step id_env method v db)) = operations_log db
        /\ app_versions (fst (run_step id_env method v db)) = app_versions db).
Proof.
  split; [|split].
  - intros operation db db2 Hval Happly db'.
    pose proof (applyOperations_same (aop_app_id operation)
                  (aop_operations operation) db) as Hsame.
    rewrite Happly in Hsame. destruct Hsame as (Hver & Hops & _ & Hclock).
    simpl in Hver, Hops, Hclock.
    pose proof (createVersionSnapshot_others (aop_app_id operation)
                  (aop_user_id operation) (aop_id operation)
                  (sent (aop_chat_message_id operation)) db2)
      as (Hops' & Hclock').
    subst db'. unfold process_operation. rewrite Hval, Happly.
    cbn [fst snd].
    split; [reflexivity|]. split; [|split; [|split]].
    + rewrite mark_app_operation_applied_ids, Hops', Hops. reflexivity.
    + intros r Hr Hid.
      destruct (mark_app_operation_applied_rows _ _ _ Hr Hid) as [Hst Hat].
      split; [exact Hst|]. rewrite Hat, Hclock', Hclock. reflexivity.
    + intros snapshot Hsnap. unfold createVersionSnapshot. rewrite Hsnap.
      simpl. now rewrite Hver.
    + intros error Hsnap. unfold createVersionSnapshot. rewrite Hsnap.
      simpl. exact Hver.
  - intros appId operation db db2 s ss Hops Hrun db'.
    pose proof (run_steps_other_tables appId (s :: ss) 0
                  (mark_operation_processing (op_id operation) db) [])
      as Hsame.
    rewrite Hrun in Hsame. destruct Hsame as (Hver & _ & Hclock).
    simpl in Hver, Hclock.
    subst db'. unfold run_operation. rewrite Hops, Hrun. cbn [fst snd].
    split; [reflexivity|]. split.
    + simpl. exact Hver.
    + intros r Hr Hid.
      destruct (mark_operation_applied_rows _ _ _ Hr Hid) as (Hst & Hat & He).
      split; [exact Hst|]. split; [|exact He]. rewrite Hat. now rewrite Hclock.
  - exact run_step_other_tables.
Qed.

Lemma operation_completion_by_path_witness :
  (app_versions (fst (process_operation aop_theme db_theme))
   = [mkVersionRow "app-1" (Some "user-1") 30 None 1
        (JObj [("pages", JArr []); ("dataModels", JObj []);
               ("schema", JObj [("theme", JStr "dark")]);
               ("theme", JStr "dark")])]
   /\ forall r, In r (app_operations (fst (process_operation aop_theme db_theme))) ->
                aop_id r = 30%nat ->
                aop_status r = applied /\ aop_applied_at r = Some 7%Z)
  /\ (app_versions (fst (process_operation aop_theme db_theme_null_schema)) = []
      /\ snd (process_operation aop_theme db_theme_null_schema) = true
      /\ forall r, In r (app_operations
                           (fst (process_operation aop_theme
                                                   db_theme_null_schema))) ->
                   aop_id r = 30%nat ->
                   aop_status r = applied /\ aop_applied_at r = Some 7%Z)
  /\ (app_versions (fst (run_operation "app-1" op_orders db_orders)) = []
      /\ forall r, In r (operations_log
                           (fst (run_operation "app-1" op_orders db_orders))) ->
                   op_id r = 10%nat ->
                   op_status r = applied /\ op_applied_at r = Some 7%Z
                   /\ op_error_message r = None).
Proof.
  destruct operation_completion_by_path as (Happly & Hrun & _).
  split; [|split].
  - destruct (Happly aop_theme db_theme
                (cfg_upsert "app-1" "schema" "theme"
                            (JObj [("theme", JStr "dark")]) db_theme)
                eq_refl eq_refl) as (_ & _ & Hrows & Hver & _).
    split; [exact (Hver _ eq_refl) | exact Hrows].
  - destruct (Happly aop_theme db_theme_null_schema
                (cfg_upsert "app-1" "schema" "theme"
                            (JObj [("theme", JStr "dark")])
                            db_theme_null_schema)
                eq_refl eq_refl) as (Hok & _ & Hrows & _ & Hnone).
    split; [|split; [exact Hok | exact Hrows]].
    apply (Hnone [Txt "Cannot read properties of null (reading 'theme')"]).
    reflexivity.
  - destruct (Hrun "app-1" op_orders db_orders
                (fst (run_steps "app-1"
                        [JObj [("type", JStr "create_page");
                               ("slug", JStr "orders");
                               ("title", JStr "Orders")];
                         JObj [("type", JStr "create_model");
                               ("name", JStr "Order");
                               ("fields",
                                JArr [JObj [("name", JStr "total");
                                            ("type", JStr "number")]])]]
                        0 (mark_operation_processing 10 db_orders) []))
                _ _ eq_refl eq_refl) as (_ & Hver & Hrows).
    split; [exact Hver | exact Hrows].
Defined.

(** The claim of C1 fails on the code for the per-step run loop: the
    client loop runs both steps of the operation to [applied] and ends
    with [done], yet the operation is still [pending], has no applied-at
    time, and no version snapshot exists for the app. *)
Lemma run_loop_completes_steps_not_operation :
  let r := runAllSteps 5 "app-1" db_orders in
  map snd (snd r)
  = [RsApplied step_orders_page; RsApplied step_order_model; RsDone]
  /\ map step_status (execution_steps (fst r)) = [applied; applied]
  /\ map (fun o => (op_id o, op_status o, op_applied_at o))
         (operations_log (fst r))
     = [(10%nat, pending, None)]
  /\ app_versions (fst r) = [].
Proof. vm_compute. repeat split; reflexivity. Qed.

(** * Further properties of the pipeline *)

(** ** What the handlers write *)

Lemma writing_check (a : string) {A : Type} (c : M A) :
  check c -> writing a c.
Proof.
  intros H s. specialize (H s). destruct (c s) as [s' [[[d|m]|m]|x]]; simpl in *;
    try contradiction; subst; constructor.
Qed.

Lemma writing_bind (a : string) {A B : Type} (c : M A) (k : A -> M B) :
  writing a c -> (forall x, writing a (k x)) -> writing a (bind c k).
Proof.
  intros Hc Hk s. unfold bind. specialize (Hc s).
  destruct (c s) as [s' [e|x]]; simpl in *; [exact Hc|].
  eapply writes_then; [exact Hc | apply Hk].
Qed.

Lemma writing_write (a : string) (f : list SpecRow -> list SpecRow) :
  (forall s, writes a s (f s)) -> writing a (write f).
Proof. intros H s. apply H. Qed.

Lemma writing_insert (a : string) {B : Type} (t k : string) (v : JSON)
    (u b : option string) (k1 k2 : M B) :
  writing a k1 -> writing a k2 ->
  writing a (bind (query (spec_insert a t k v u b))
               (fun inserted =>
                  match inserted with
                  | None => k1
                  | Some tbl => bind (write (fun _ => tbl)) (fun _ => k2)
                  end)).
Proof.
  intros H1 H2 s. unfold bind, query, write.
  destruct (spec_insert a t k v u b s) as [tbl|] eqn:E.
  - specialize (H2 tbl). eapply writes_then; [|exact H2].
    eapply writes_insert; exact E.
  - apply H1.
Qed.
Ltac walk_writing :=
  repeat first
    [ apply writing_check; solve [auto with ro]
    | apply writing_insert
    | apply writing_write; intros ?; solve [constructor]
    | apply writing_bind; [ | intros ? ]
    | match goal with
      | |- writing _ (match ?x with _ => _ end) => destruct x
      | |- writing _ (if ?b then _ else _) => destruct b
      end ].

Lemma check_set_prop o k v : check (set_prop o k v).
Proof. intros s. destruct o; reflexivity. Qed.

#[export] Hint Resolve check_set_prop : ro.

Lemma fst_try_catch label body s : fst (try_catch label body s) = fst (body s).
Proof. unfold try_catch. destruct (body s) as [s' [[r|m]|r]]; reflexivity. Qed.

Lemma writing_handleCreateModel a step brid uid tbl :
  writes a tbl (fst (handleCreateModel a step brid uid tbl)).
Proof.
  unfold handleCreateModel. rewrite fst_try_catch.
  match goal with |- writes _ _ (fst (?c _)) => assert (H : writing a c); [|apply H] end.
  walk_writing.
Qed.

Lemma writing_handleCreatePage a step brid uid tbl :
  writes a tbl (fst (handleCreatePage a step brid uid tbl)).
Proof.
  unfold handleCreatePage. rewrite fst_try_catch.
  match goal with |- writes _ _ (fst (?c _)) => assert (H : writing a c); [|apply H] end.
  walk_writing.
Qed.

Lemma writing_handleCreateComponent now a step brid uid tbl :
  writes a tbl (fst (handleCreateComponent now a step brid uid tbl)).
Proof.
  unfold handleCreateComponent. rewrite fst_try_catch.
  match goal with |- writes _ _ (fst (?c _)) => assert (H : writing a c); [|apply H] end.
  walk_writing.
Qed.

Lemma check_rule_matches np rule : check (rule_matches np rule).
Proof.
  unfold rule_matches.
  repeat (apply check_bind; [auto with ro|]; intros ?). auto with ro.
Qed.

Lemma check_findIndex np l i : check (findIndex (rule_matches np) l i).
Proof.
  revert i. induction l as [|x l IH]; intros i; simpl; [auto with ro|].
  apply check_bind; [apply check_rule_matches|]. intros [|]; auto with ro.
Qed.

Lemma check_mergeRules l perms : check (mergeRules l perms).
Proof.
  revert l. induction perms as [|p r IH]; intros l; simpl; [auto with ro|].
  apply check_bind; [|intros; apply IH].
  unfold mergeRule. apply check_bind; [apply check_findIndex|].
  intros [i|]; auto with ro.
Qed.

Lemma check_spread_array v : check (spread_array v).
Proof. destruct v; simpl; auto with ro. Qed.

Lemma check_validatePermission p : check (validatePermission p).
Proof.
  unfold validatePermission.
  repeat (apply check_bind; [auto with ro|]; intros ?). auto with ro.
Qed.

Lemma check_resolvePermissions step : check (resolvePermissions step).
Proof.
  unfold resolvePermissions.
  repeat (apply check_bind; [auto with ro|]; intros ?).
  destruct (_ && _); [|auto with ro].
  repeat (apply check_bind; [auto with ro|]; intros ?).
  destruct x4; auto with ro;
  repeat match goal with |- check (if ?b then _ else _) => destruct b end;
  auto with ro.
Qed.

Lemma writing_handleSetPermissions a step brid uid tbl :
  writes a tbl (fst (handleSetPermissions a step brid uid tbl)).
Proof.
  unfold handleSetPermissions. rewrite fst_try_catch.
  match goal with |- writes _ _ (fst (?c _)) => assert (H : writing a c); [|apply H] end.
  apply writing_bind; [apply writing_check, check_resolvePermissions|]. intros perms.
  destruct perms; walk_writing.
  all: try (apply writing_check;
            first [ apply check_for_of; intros; apply check_validatePermission
                  | apply check_spread_array | apply check_mergeRules ]).
Qed.

Lemma executeStepHandler_eq (now : Z) (a : string) (step : JSON)
    (brid uid : option string) (tbl : list SpecRow) :
  executeStepHandler now a step brid uid tbl
  = let ty := prop step "type" in
    if strict_eq ty (JStr "create_model") then
      handleCreateModel a step brid uid tbl
    else if strict_eq ty (JStr "create_page") then
      handleCreatePage a step brid uid tbl
    else if strict_eq ty (JStr "create_component") then
      handleCreateComponent now a step brid uid tbl
    else if strict_eq ty (JStr "set_permissions") then
      handleSetPermissions a step brid uid tbl
    else (tbl, Failure [Txt ("Unknown step type: " ++ to_string ty)]).
Proof.
  unfold executeStepHandler, prop.
  destruct step as [| | | | | |fs]; try reflexivity.
  destruct (default JUndefined (assoc "type" fs)) as [| |[|]| |ty| |];
    try reflexivity.
  cbn [strict_eq].
  destruct (String.eqb_spec ty "create_model") as [->|H1]; [reflexivity|].
  destruct (String.eqb_spec ty "create_page") as [->|H2]; [reflexivity|].
  destruct (String.eqb_spec ty "create_component") as [->|H3]; [reflexivity|].
  destruct (String.eqb_spec ty "set_permissions") as [->|H4]; [reflexivity|].
  cbn [to_string].
  generalize (handleCreateModel a (JObj fs) brid uid tbl)
             (handleCreatePage a (JObj fs) brid uid tbl)
             (handleCreateComponent now a (JObj fs) brid uid tbl)
             (handleSetPermissions a (JObj fs) brid uid tbl).
  intros r1 r2 r3 r4.
  repeat (match goal with
          | |- context [match ?x with _ => _ end] => is_var x; destruct x
          end; try reflexivity).
  all: congruence.
Qed.

Lemma executeStepHandler_writes now a step brid uid tbl :
  writes a tbl (fst (executeStepHandler now a step brid uid tbl)).
Proof.
  rewrite executeStepHandler_eq. cbv zeta.
  repeat match goal with
         | |- writes _ _ (fst (if ?b then _ else _)) => destruct b
         end;
  first [ apply writes_none | apply writing_handleCreateModel
        | apply writing_handleCreatePage | apply writing_handleCreateComponent
        | apply writing_handleSetPermissions ].
Qed.

(** *** Invariants of the table under handler writes *)

Lemma spec_update_value_keys a t k v s :
  map spec_key (spec_update_value a t k v s) = map spec_key s.
Proof.
  unfold spec_update_value. rewrite map_map. apply map_ext.
  intros r. destruct (spec_match a t k r); reflexivity.
Qed.

Lemma writes_unique a s s' :
  writes a s s' -> spec_unique s -> spec_unique s'.
Proof.
  induction 1 as [s|s s' t k v u b E|s t k v u b|s t k v|s1 s2 s3 _ IH1 _ IH2];
    intros Hu; auto.
  - unfold spec_insert in E.
    destruct (existsb (spec_match a t k) s) eqn:Hex; [discriminate|].
    injection E as <-. unfold spec_unique. rewrite map_app. simpl.
    apply NoDup_app. split; [exact Hu|]. split.
    + intros x Hx Hx'. apply list_elem_of_In in Hx.
      apply list_elem_of_singleton in Hx'. subst x.
      change (In (a, t, k) (map spec_key s)) in Hx.
      apply existsb_match_In in Hx. congruence.
    + apply NoDup_singleton.
  - now apply spec_unique_upsert.
  - unfold spec_unique. now rewrite spec_update_value_keys.
Qed.

Lemma spec_match_other a t k r :
  other_app a r = true -> spec_match a t k r = false.
Proof.
  unfold other_app, spec_match. intros H. apply negb_true_iff in H.
  now rewrite H.
Qed.

Lemma filter_other_map_match a t k (f : SpecRow -> SpecRow) s :
  (forall r, spec_app_id (f r) = a) ->
  List.filter (other_app a)
    (map (fun r => if spec_match a t k r then f r else r) s)
  = List.filter (other_app a) s.
Proof.
  intros Hf. induction s as [|r s IH]; simpl; [reflexivity|].
  destruct (spec_match a t k r) eqn:Hm.
  - assert (Hr : other_app a r = false).
    { destruct (other_app a r) eqn:Ho; [|reflexivity].
      apply (spec_match_other a t k) in Ho. congruence. }
    rewrite Hr. unfold other_app at 1. rewrite Hf, String.eqb_refl. simpl.
    exact IH.
  - destruct (other_app a r); [f_equal|]; exact IH.
Qed.

Lemma writes_other_apps a s s' :
  writes a s s' ->
  List.filter (other_app a) s' = List.filter (other_app a) s.
Proof.
  induction 1 as [s|s s' t k v u b E|s t k v u b|s t k v|s1 s2 s3 _ IH1 _ IH2].
  - reflexivity.
  - unfold spec_insert in E. destruct (existsb _ s); [discriminate|].
    injection E as <-. rewrite List.filter_app. simpl.
    unfold other_app at 2. simpl. rewrite String.eqb_refl. simpl.
    apply app_nil_r.
  - unfold spec_upsert. destruct (existsb _ s).
    + apply filter_other_map_match. reflexivity.
    + rewrite List.filter_app. simpl.
      unfold other_app at 2. simpl. rewrite String.eqb_refl. simpl.
      apply app_nil_r.
  - unfold spec_update_value.
    induction s as [|r s IH]; simpl; [reflexivity|].
    destruct (spec_match a t k r) eqn:Hm.
    + assert (Hr : other_app a r = false).
      { destruct (other_app a r) eqn:Ho; [|reflexivity].
        apply (spec_match_other a t k) in Ho. congruence. }
      rewrite Hr. unfold other_app at 1. simpl. fold (other_app a r).
      rewrite Hr. exact IH.
    + destruct (other_app a r); [f_equal|]; exact IH.
  - congruence.
Qed.

Lemma writes_keys a s s' :
  writes a s s' ->
  exists l, map spec_key s' = (map spec_key s ++ l)%list
            /\ Forall (fun k => fst (fst k) = a) l.
Proof.
  induction 1 as [s|s s' t k v u b E|s t k v u b|s t k v|s1 s2 s3 _ IH1 _ IH2].
  - exists []. split; [now rewrite app_nil_r | constructor].
  - unfold spec_insert in E. destruct (existsb _ s); [discriminate|].
    injection E as <-. exists [(a, t, k)]. rewrite map_app. split; [reflexivity|].
    repeat constructor.
  - unfold spec_upsert. destruct (existsb _ s).
    + exists []. split; [|constructor]. rewrite app_nil_r, map_map.
      apply map_ext_in. intros r _. simpl.
      destruct (spec_match a t k r) eqn:Hm; [|reflexivity].
      apply spec_match_key in Hm. now rewrite Hm.
    + exists [(a, t, k)]. rewrite map_app. split; [reflexivity|].
      repeat constructor.
  - exists []. split; [|constructor].
    now rewrite app_nil_r, spec_update_value_keys.
  - destruct IH1 as [l1 [E1 F1]]. destruct IH2 as [l2 [E2 F2]].
    exists (l1 ++ l2)%list. split.
    + rewrite E2, E1. now rewrite <- app_assoc.
    + apply Forall_app. split; assumption.
Qed.

(** ** Failing steps *)

Lemma commits_ret r : commits (ret r).
Proof. intros s. simpl. destruct r; auto. Qed.

Lemma commits_fail m : commits (fail m).
Proof. intros s. reflexivity. Qed.

Lemma commits_throw m : commits (throw m).
Proof. intros s. reflexivity. Qed.

Lemma commits_bind {A : Type} (c : M A) (k : A -> M StepResult) :
  check c -> (forall x, commits (k x)) -> commits (bind c k).
Proof.
  intros Hc Hk s. unfold bind. specialize (Hc s).
  destruct (c s) as [s' [[[d|m]|m]|x]]; simpl in *; try contradiction; auto.
  subst s'. apply Hk.
Qed.

Lemma commits_write f d : commits (bind (write f) (fun _ => ret (Success d))).
Proof. intros s. exact I. Qed.

Lemma commits_insert a t k v u b (k1 : M StepResult) d :
  commits k1 ->
  commits (bind (query (spec_insert a t k v u b))
             (fun inserted =>
                match inserted with
                | None => k1
                | Some tbl => bind (write (fun _ => tbl)) (fun _ => ret (Success d))
                end)).
Proof.
  intros H1 s. unfold bind, query, write.
  destruct (spec_insert a t k v u b s) as [tbl|]; [exact I | apply H1].
Qed.

Ltac solve_check :=
  solve [ repeat first
            [ solve [auto with ro]
            | apply check_bind; [ | intros ? ]
            | match goal with
              | |- check (match ?x with _ => _ end) => destruct x
              | |- check (if ?b then _ else _) => destruct b
              end ] ].

Ltac walk_commits :=
  repeat first
    [ apply commits_ret | apply commits_fail | apply commits_throw
    | apply commits_insert | apply commits_write
    | apply commits_bind; [ solve_check | intros ? ]
    | match goal with
      | |- commits (match ?x with _ => _ end) => destruct x
      | |- commits (if ?b then _ else _) => destruct b
      end ].

Lemma try_catch_commits label body s s' m :
  commits body -> try_catch label body s = (s', Failure m) -> s' = s.
Proof.
  intros H. specialize (H s). unfold try_catch.
  destruct (body s) as [t [[[d|e]|e]|[d|e]]]; intros [= <- _]; auto;
    try discriminate.
Qed.

Lemma commits_handleCreateModel a step brid uid s s' m :
  handleCreateModel a step brid uid s = (s', Failure m) -> s' = s.
Proof.
  unfold handleCreateModel. apply try_catch_commits. walk_commits.
Qed.

Lemma commits_handleCreatePage a step brid uid s s' m :
  handleCreatePage a step brid uid s = (s', Failure m) -> s' = s.
Proof.
  unfold handleCreatePage. apply try_catch_commits. walk_commits.
Qed.

#[export] Hint Resolve check_resolvePermissions check_validatePermission
  check_spread_array check_mergeRules : ro.

Lemma commits_handleSetPermissions a step brid uid s s' m :
  handleSetPermissions a step brid uid s = (s', Failure m) -> s' = s.
Proof.
  unfold handleSetPermissions. apply try_catch_commits.
  apply commits_bind; [solve_check|]. intros perms.
  destruct perms; walk_commits.
Qed.

(** X1: a step of any type other than [create_component] that fails
    leaves the spec table exactly as it was: [create_model], [create_page]
    and [set_permissions] write only as their last action, and an unknown
    type writes nothing. *)
Theorem failed_step_writes_nothing (now : Z) (a : string) (step : JSON)
    (brid uid : option string) (tbl tbl' : list SpecRow) (m : Msg) :
  prop step "type" <> JStr "create_component" ->
  executeStepHandler now a step brid uid tbl = (tbl', Failure m) ->
  tbl' = tbl.
Proof.
  rewrite executeStepHandler_eq. cbv zeta. intros Hty.
  destruct (strict_eq _ (JStr "create_model"));
    [apply commits_handleCreateModel|].
  destruct (strict_eq _ (JStr "create_page"));
    [apply commits_handleCreatePage|].
  destruct (strict_eq (prop step "type") (JStr "create_component")) eqn:E.
  { exfalso. apply Hty. destruct (prop step "type"); try discriminate.
    simpl in E. apply String.eqb_eq in E. now subst. }
  destruct (strict_eq _ (JStr "set_permissions"));
    [apply commits_handleSetPermissions|].
  now intros [= <- _].
Qed.

Lemma failed_step_writes_nothing_witness :
  fst (executeStepHandler 0 "app-1" (JObj step_page_by_target) None None
                          tbl_home)
  = tbl_home.
Proof.
  apply (failed_step_writes_nothing 0 "app-1" (JObj step_page_by_target)
           None None tbl_home _
           [Txt ("Page with slug " ++ dq ++ "undefined" ++ dq
                 ++ " already exists")]).
  - discriminate.
  - reflexivity.
Defined.

(** ** Outcomes of single steps *)

Lemma aborted_on_success P s r : aborted s r -> on_success P r.
Proof.
  destruct r as [s' [[[d|m]|m]|[d|m]]]; simpl; intros H; try contradiction; auto.
Qed.

Lemma try_catch_success label body s (P : list SpecRow -> JSON -> Prop) :
  on_success P (body s) ->
  forall s' d, try_catch label body s = (s', Success d) -> P s' d.
Proof.
  unfold try_catch, on_success.
  destruct (body s) as [t [[[d0|m]|m]|[d0|m]]]; intros H s' d [= <- <-] ||
    (intros H s' d E; discriminate); exact H.
Qed.

(** Reading a property binds what [prop] gives, or throws. *)
Lemma bind_get {B : Type} (v : JSON) (k : string) (kont : JSON -> M B)
    (s : list SpecRow) (Q : list SpecRow * (Exit + B) -> Prop) :
  (forall r : list SpecRow * (Exit + B), aborted s r -> Q r) ->
  Q (kont (prop v k) s) ->
  Q (bind (get v k) kont s).
Proof.
  intros Ha Hk. destruct v; try exact Hk; apply Ha; exact eq_refl.
Qed.

Lemma bind_get_if {B : Type} (v : JSON) (k : string) (kont : JSON -> M B)
    (s : list SpecRow) (Q : list SpecRow * (Exit + B) -> Prop) :
  (forall r : list SpecRow * (Exit + B), aborted s r -> Q r) ->
  Q (kont (if truthy v then prop v k else v) s) ->
  Q (bind (get_if v k) kont s).
Proof.
  intros Ha Hk. unfold get_if. destruct (truthy v) eqn:E.
  - apply bind_get; assumption.
  - exact Hk.
Qed.

Ltac step_success :=
  match goal with
  | |- on_success ?P (bind (get ?v ?k) ?kont ?s) =>
      apply (bind_get v k kont s (on_success P));
      [ apply aborted_on_success | ]
  | |- on_success ?P (bind (get_if ?v ?k) ?kont ?s) =>
      apply (bind_get_if v k kont s (on_success P));
      [ apply aborted_on_success | ]
  | |- on_success ?P (bind ?c ?k ?s) =>
      apply (bind_check c k s (on_success P));
      [ solve_check | apply aborted_on_success | intros ? ]
  end.

Lemma assoc_obj_set_eq k v fs : assoc k (obj_set k v fs) = Some v.
Proof.
  induction fs as [|[k' v'] fs IH]; simpl.
  - now rewrite String.eqb_refl.
  - destruct (k' =? k) eqn:E; simpl; rewrite E; auto.
Qed.

Lemma assoc_obj_set_neq k k' v fs :
  k <> k' -> assoc k (obj_set k' v fs) = assoc k fs.
Proof.
  intros Hn. induction fs as [|[k0 v0] fs IH]; simpl.
  - destruct (String.eqb_spec k' k); [congruence | reflexivity].
  - destruct (String.eqb_spec k0 k') as [->|H0]; simpl.
    + destruct (String.eqb_spec k' k); [congruence | reflexivity].
    + destruct (k0 =? k); auto.
Qed.

Lemma obj_assign_spread_if fs c k v :
  obj_assign fs (spread_if c k v) = if truthy c then obj_set k v fs else fs.
Proof. unfold spread_if. destruct (truthy c); reflexivity. Qed.

Lemma assoc_spread_if_neq k k' c v fs :
  k <> k' -> assoc k (obj_assign fs (spread_if c k' v)) = assoc k fs.
Proof.
  intros H. rewrite obj_assign_spread_if. destruct (truthy c); [|reflexivity].
  now apply assoc_obj_set_neq.
Qed.


Lemma bind_check_post {A B : Type} (c : M A) (k : A -> M B) (s : list SpecRow)
    (R : A -> Prop) (Q : list SpecRow * (Exit + B) -> Prop) :
  check c ->
  (forall x, snd (c s) = inr x -> R x) ->
  (forall r : list SpecRow * (Exit + B), aborted s r -> Q r) ->
  (forall x, R x -> Q (k x s)) ->
  Q (bind c k s).
Proof.
  intros Hc HR Ha Hk. unfold bind. specialize (Hc s).
  destruct (c s) as [s' [e|x]] eqn:E.
  - apply Ha. exact Hc.
  - subst s'. apply Hk. apply HR. reflexivity.
Qed.

(** X3: a [create_page] that succeeds found no entry under
    [(app, ui, slug)] and appended exactly one.  The stored value carries
    the slug and a title that defaults to the slug; the returned data
    repeats both. *)
Theorem create_page_appends_entry (a : string) (step : JSON)
    (brid uid : option string) (tbl tbl' : list SpecRow) (d : JSON) :
  handleCreatePage a step brid uid tbl = (tbl', Success d) ->
  exists sl v,
    js_or (prop step "slug") (prop step "target") = JStr sl
    /\ existsb (spec_match a "ui" sl) tbl = false
    /\ tbl' = (tbl ++ [mkSpecRow a "ui" sl v (sent uid) (sent brid)])%list
    /\ prop v "slug" = JStr sl
    /\ prop v "title" = js_or (prop step "title") (JStr sl)
    /\ d = JObj [("slug", JStr sl); ("title", prop v "title")].
Proof.
  unfold handleCreatePage. revert tbl' d. apply try_catch_success.
  do 2 step_success.
  destruct (js_or (prop step "slug") (prop step "target")) as [| | | |sl| |] eqn:Hs;
    try exact I.
  destruct (truthy (JStr sl)); cbn [negb]; [|exact I].
  cbn [bind query].
  destruct (spec_select_single a "ui" sl tbl); [exact I|].
  step_success. step_success.
  do 4 step_success.
  match goal with
  | |- on_success ?P (bind ?c ?k ?s) =>
      apply (bind_check_post c k s
               (fun pc => assoc "slug" pc = Some (JStr sl)
                          /\ assoc "title" pc
                             = Some (js_or (prop step "title") (JStr sl)))
               (on_success P));
        [ solve_check | | apply aborted_on_success | intros pageConfig [H1 H2] ]
  end.
  - intros pc.
    assert (H0 : forall pc0,
               pc0 = obj_assign
                (obj_assign
                   (obj_assign
                      [("slug", JStr sl);
                       ("title", js_or (prop step "title") (JStr sl))]
                      (spread_if (prop step "layout") "layout" (prop step "layout")))
                   [("components", js_or (prop step "components") (JArr []))])
                (spread_if (prop step "metadata") "metadata" (prop step "metadata")) ->
               assoc "slug" pc0 = Some (JStr sl)
               /\ assoc "title" pc0 = Some (js_or (prop step "title") (JStr sl))).
    { intros pc0 ->. split.
      - rewrite assoc_spread_if_neq by discriminate.
        change (obj_assign ?f [(?k, ?v)]) with (obj_set k v f).
        rewrite assoc_obj_set_neq by discriminate.
        rewrite assoc_spread_if_neq by discriminate. reflexivity.
      - rewrite assoc_spread_if_neq by discriminate.
        change (obj_assign ?f [(?k, ?v)]) with (obj_set k v f).
        rewrite assoc_obj_set_neq by discriminate.
        rewrite assoc_spread_if_neq by discriminate. reflexivity. }
    specialize (H0 _ eq_refl). destruct H0 as [H1 H2].
    destruct (truthy (prop step "details")); [|intros [= <-]; auto].
    destruct (prop step "details"); cbn [get bind ret throw exit snd];
      try discriminate;
      try (intros [= <-]; rewrite !assoc_obj_set_neq by discriminate; auto).
    destruct (truthy _ && isArray _); cbn [bind ret snd].
    + match goal with
      | |- context [set_prop ?m ?k ?v] => destruct m
      end; cbn [set_prop bind ret throw exit snd]; try discriminate;
      intros [= <-]; rewrite !assoc_obj_set_neq by discriminate; auto.
    + intros [= <-]; rewrite !assoc_obj_set_neq by discriminate; auto.
  - cbn [bind query]. unfold spec_insert.
    destruct (existsb (spec_match a "ui" sl) tbl) eqn:Hex; [exact I|].
    cbn [bind write ret on_success].
    exists sl, (JObj pageConfig). split; [reflexivity|]. split; [exact Hex|].
    split; [reflexivity|].
    unfold prop. rewrite H1, H2. simpl. auto.
Qed.

Lemma create_page_appends_entry_witness :
  exists sl v,
    js_or (prop (JObj [("type", JStr "create_page"); ("slug", JStr "about")])
                "slug")
          (prop (JObj [("type", JStr "create_page"); ("slug", JStr "about")])
                "target") = JStr sl
    /\ existsb (spec_match "app-1" "ui" sl) tbl_home = false
    /\ fst (handleCreatePage "app-1"
              (JObj [("type", JStr "create_page"); ("slug", JStr "about")])
              None (Some "user-1") tbl_home)
       = (tbl_home ++ [mkSpecRow "app-1" "ui" sl v (sent (Some "user-1"))
                                 (sent None)])%list
    /\ prop v "slug" = JStr sl
    /\ prop v "title"
       = js_or (prop (JObj [("type", JStr "create_page");
                            ("slug", JStr "about")]) "title") (JStr sl)
    /\ JObj [("slug", JStr "about"); ("title", JStr "about")]
       = JObj [("slug", JStr sl); ("title", prop v "title")].
Proof.
  apply (create_page_appends_entry "app-1"
           (JObj [("type", JStr "create_page"); ("slug", JStr "about")])
           None (Some "user-1") tbl_home).
  reflexivity.
Defined.

Lemma get_obj (fs : list (string * JSON)) (k : string) :
  get (JObj fs) k = ret (prop (JObj fs) k).
Proof. reflexivity. Qed.

Lemma bind_assoc {A B C : Type} (c : M A) (k1 : A -> M B) (k2 : B -> M C)
    (s : list SpecRow) :
  bind (bind c k1) k2 s = bind c (fun x => bind (k1 x) k2) s.
Proof. unfold bind. destruct (c s) as [s' [e|x]]; reflexivity. Qed.

Lemma bind_query {A B : Type} (f : list SpecRow -> A) (k : A -> M B)
    (s : list SpecRow) :
  bind (query f) k s = k (f s) s.
Proof. reflexivity. Qed.

Lemma bind_ret {A B : Type} (x : A) (k : A -> M B) (s : list SpecRow) :
  bind (ret x) k s = k x s.
Proof. reflexivity. Qed.

Lemma bind_write {B : Type} (f : list SpecRow -> list SpecRow)
    (k : unit -> M B) (s : list SpecRow) :
  bind (write f) k s = k tt (f s).
Proof. reflexivity. Qed.

Ltac run :=
  repeat first [ rewrite bind_assoc | rewrite bind_query | rewrite bind_ret
               | rewrite bind_write | rewrite get_obj ].

(** X4: [create_page] on a slug that has an entry fails and writes
    nothing.  The message quotes [step.slug], so it reads [undefined] when
    the slug was given as [target]. *)
Theorem create_page_existing_slug_fails (a : string) (fs : list (string * JSON))
    (sl : string) (row : SpecRow) (brid uid : option string)
    (tbl : list SpecRow) :
  js_or (prop (JObj fs) "slug") (prop (JObj fs) "target") = JStr sl ->
  sl <> "" ->
  spec_select_single a "ui" sl tbl = Some row ->
  handleCreatePage a (JObj fs) brid uid tbl
  = (tbl, Failure [Txt ("Page with slug " ++ dq
                        ++ to_string (prop (JObj fs) "slug") ++ dq
                        ++ " already exists")]).
Proof.
  intros Hs Hne Hrow. unfold handleCreatePage, try_catch.
  rewrite !get_obj. cbn [bind ret]. rewrite Hs.
  assert (Ht : truthy (JStr sl) = true).
  { simpl. destruct (String.eqb_spec sl ""); [contradiction | reflexivity]. }
  rewrite Ht. cbn [negb bind query]. rewrite Hrow. reflexivity.
Qed.

Lemma create_page_existing_slug_fails_witness :
  handleCreatePage "app-1" (JObj step_page_by_target) None (Some "user-1")
                   tbl_home
  = (tbl_home,
     Failure [Txt ("Page with slug " ++ dq ++ "undefined" ++ dq
                   ++ " already exists")]).
Proof.
  apply (create_page_existing_slug_fails "app-1" step_page_by_target "home"
           row_home None (Some "user-1") tbl_home);
    first [reflexivity | discriminate].
Defined.

Lemma select_upsert_other (a t k t' k' : string) (v : JSON)
    (u b : option string) (tbl : list SpecRow) :
  (t, k) <> (t', k') ->
  spec_select_single a t' k' (spec_upsert a t k v u b tbl)
  = spec_select_single a t' k' tbl.
Proof.
  intros Hn. unfold spec_select_single, spec_upsert. f_equal.
  assert (Hnew : forall u' b', spec_match a t' k' (mkSpecRow a t k v u' b') = false).
  { intros u' b'. destruct (spec_match a t' k' _) eqn:E; [|reflexivity].
    apply spec_match_key in E. injection E as -> ->. congruence. }
  destruct (existsb (spec_match a t k) tbl).
  - induction tbl as [|r tbl IH]; simpl; [reflexivity|].
    destruct (spec_match a t k r) eqn:Hm.
    + rewrite Hnew.
      destruct (spec_match a t' k' r) eqn:Hm'; [|exact IH].
      apply spec_match_key in Hm, Hm'. rewrite Hm in Hm'.
      injection Hm' as -> ->. congruence.
    + destruct (spec_match a t' k' r); [f_equal|]; exact IH.
  - rewrite List.filter_app. simpl. rewrite Hnew. apply app_nil_r.
Qed.

(** X5: [create_component] without [pageSlug] upserts the component
    under [(app, ui, name)], the key space of the pages: whatever entry
    was stored under that key, a page with that slug included, now holds
    the component definition, and no entry is removed: every key of the
    table is kept, in its place. *)
Theorem create_component_takes_over_key (now : Z) (a : string)
    (fs : list (string * JSON)) (cn : string) (brid uid : option string)
    (tbl : list SpecRow) :
  let step := JObj fs in
  let componentType := js_or (prop step "componentType") (JStr "Component") in
  let componentConfig :=
    JObj (obj_assign
            (obj_assign
               (obj_assign
                  [("name", JStr cn); ("type", componentType)]
                  (spread_if (prop step "props") "props" (prop step "props")))
               (spread_if (prop step "metadata") "metadata"
                          (prop step "metadata")))
            (spread_if (prop step "details") "details" (prop step "details"))) in
  js_or (prop step "name") (prop step "target") = JStr cn ->
  cn <> "" ->
  is_string componentType = true ->
  truthy (prop step "pageSlug") = false ->
  spec_unique tbl ->
  exists tbl' row,
    handleCreateComponent now a step brid uid tbl
    = (tbl', Success (JObj [("componentName", JStr cn);
                            ("componentType", componentType);
                            ("addedToPage", JBool false)]))
    /\ spec_select_single a "ui" cn tbl' = Some row
    /\ config_value row = componentConfig
    /\ length tbl <= length tbl'
    /\ exists added, map spec_key tbl' = (map spec_key tbl ++ added)%list.
Proof.
  intros step componentType componentConfig Hn Hne Hty Hps Hu.
  destruct (select_after_upsert a "ui" cn componentConfig uid brid tbl Hu)
    as [row [Hsel Hval]].
  exists (spec_upsert a "ui" cn componentConfig uid brid tbl), row.
  split; [|split; [exact Hsel | split; [exact Hval | split]]].
  - unfold handleCreateComponent, try_catch. fold step.
    subst step. rewrite !get_obj. cbn [bind ret]. rewrite Hn.
    assert (Ht : truthy (JStr cn) = true).
    { simpl. destruct (String.eqb_spec cn ""); [contradiction | reflexivity]. }
    rewrite Ht. cbn [negb bind ret]. fold componentType. rewrite Hty.
    cbn [negb bind ret]. rewrite Hps. reflexivity.
  - unfold spec_upsert. destruct (existsb _ tbl).
    + now rewrite length_map.
    + rewrite length_app. simpl. lia.
  - destruct (writes_keys a _ _
                (writes_upsert a tbl "ui" cn componentConfig uid brid))
      as [added [Hkeys _]].
    exists added. exact Hkeys.
Qed.

Lemma create_component_takes_over_key_witness :
  exists tbl' row,
    handleCreateComponent 5 "app-1"
      (JObj [("type", JStr "create_component"); ("name", JStr "home")])
      None (Some "user-1") tbl_home
    = (tbl', Success (JObj [("componentName", JStr "home");
                            ("componentType", JStr "Component");
                            ("addedToPage", JBool false)]))
    /\ spec_select_single "app-1" "ui" "home" tbl' = Some row
    /\ config_value row
       = JObj [("name", JStr "home"); ("type", JStr "Component")]
    /\ length tbl_home <= length tbl'
    /\ exists added,
         map spec_key tbl' = (map spec_key tbl_home ++ added)%list.
Proof.
  apply (create_component_takes_over_key 5 "app-1"
           [("type", JStr "create_component"); ("name", JStr "home")]
           "home" None (Some "user-1") tbl_home).
  - reflexivity.
  - discriminate.
  - reflexivity.
  - reflexivity.
  - apply NoDup_singleton.
Defined.

(** X6: [create_component] is not atomic.  When the page it adds to
    has a [components] value that is set but is not an array, the call
    fails after the component entry has been written. *)
Theorem create_component_fails_after_write (now : Z) (a : string)
    (fs : list (string * JSON)) (cn ps : string) (row : SpecRow)
    (brid uid : option string) (tbl : list SpecRow) :
  let step := JObj fs in
  let componentType := js_or (prop step "componentType") (JStr "Component") in
  let componentConfig :=
    JObj (obj_assign
            (obj_assign
               (obj_assign
                  [("name", JStr cn); ("type", componentType)]
                  (spread_if (prop step "props") "props" (prop step "props")))
               (spread_if (prop step "metadata") "metadata"
                          (prop step "metadata")))
            (spread_if (prop step "details") "details" (prop step "details"))) in
  js_or (prop step "name") (prop step "target") = JStr cn ->
  cn <> "" ->
  is_string componentType = true ->
  prop step "pageSlug" = JStr ps ->
  ps <> "" ->
  ps <> cn ->
  spec_select_single a "ui" ps tbl = Some row ->
  is_obj (config_value row) = true ->
  truthy (prop (config_value row) "components") = true ->
  isArray (prop (config_value row) "components") = false ->
  handleCreateComponent now a step brid uid tbl
  = (spec_upsert a "ui" cn componentConfig uid brid tbl,
     Failure [Txt "create_component error: ";
              Txt "pageValue.components.push is not a function"]).
Proof.
  intros step componentType componentConfig Hn Hne Hty Hps Hpne Hdiff Hrow
         Hobj Hc Harr.
  unfold handleCreateComponent, try_catch. subst step.
  run. rewrite Hn.
  assert (Ht : truthy (JStr cn) = true).
  { simpl. destruct (String.eqb_spec cn ""); [contradiction | reflexivity]. }
  assert (Ht' : truthy (JStr ps) = true).
  { simpl. destruct (String.eqb_spec ps ""); [contradiction | reflexivity]. }
  rewrite Ht. cbn [negb]. run. fold componentType. rewrite Hty.
  cbn [negb]. run. rewrite Hps, Ht'. cbn [to_string].
  run. rewrite Hrow. run. fold componentConfig.
  rewrite select_upsert_other by congruence. rewrite Hrow.
  run.
  unfold push_component.
  destruct (config_value row) as [| | | | | |pv]; try discriminate.
  run. rewrite Hc. run.
  destruct (prop (JObj pv) "components"); try discriminate; reflexivity.
Qed.

Lemma create_component_fails_after_write_witness :
  handleCreateComponent 5 "app-1" (JObj step_hero_on_home) None
                        (Some "user-1") tbl_home
  = ([row_home;
      mkSpecRow "app-1" "ui" "hero"
                (JObj [("name", JStr "hero"); ("type", JStr "Component")])
                (Some "user-1") None],
     Failure [Txt "create_component error: ";
              Txt "pageValue.components.push is not a function"]).
Proof.
  apply (create_component_fails_after_write 5 "app-1" step_hero_on_home
           "hero" "home" row_home None (Some "user-1") tbl_home);
    first [reflexivity | discriminate].
Defined.

Lemma prop_obj (fs : list (string * JSON)) (k : string) :
  prop (JObj fs) k = default JUndefined (assoc k fs).
Proof. reflexivity. Qed.

Lemma check_state {A : Type} (c : M A) (s : list SpecRow) (x : A) :
  check c -> snd (c s) = inr x -> c s = (s, inr x).
Proof.
  intros H E. specialize (H s). destruct (c s) as [s' [e|y]]; simpl in *.
  - discriminate.
  - injection E as <-. now subst.
Qed.

Lemma validateField_passes (f : JSON) (s : list SpecRow) (x : unit) :
  snd (validateField f s) = inr x ->
  exists fs, f = JObj fs
             /\ fieldTypeAccepted (normalizeFieldType (prop f "type")) = true.
Proof.
  unfold validateField.
  destruct f as [| | | | | |fs]; try discriminate;
    try (cbn [get bind ret when negb truthy orb fail exit snd]; discriminate).
  run. unfold when.
  destruct (negb _ || negb _); [discriminate|]. run.
  destruct (fieldTypeAccepted _) eqn:E; [|discriminate].
  intros _. eauto.
Qed.

Lemma for_of_validateField (fs : list JSON) (s : list SpecRow) (x : unit) :
  snd (for_of fs validateField s) = inr x ->
  Forall (fun f => exists ffs,
              f = JObj ffs
              /\ fieldTypeAccepted (normalizeFieldType (prop f "type")) = true)
         fs.
Proof.
  induction fs as [|f fs IH]; intros H; [constructor|].
  simpl in H. unfold bind in H.
  pose proof (check_validateField f s) as Hc.
  destruct (validateField f s) as [s' [e|u]] eqn:E; [discriminate|].
  simpl in Hc. subst s'.
  constructor.
  - apply (validateField_passes f s u). now rewrite E.
  - apply IH. exact H.
Qed.

Lemma normalizeField_obj (ffs : list (string * JSON)) (s : list SpecRow) :
  exists fs', normalizeField (JObj ffs) s = (s, inr (JObj fs'))
              /\ assoc "name" fs' = assoc "name" ffs
              /\ assoc "type" fs'
                 = Some (normalizeFieldType (prop (JObj ffs) "type")).
Proof.
  unfold normalizeField. run. cbn [spread].
  destruct (truthy (prop (JObj ffs) "relation")); eexists;
    (split; [reflexivity|]);
    rewrite ?(assoc_obj_set_neq "name" "relation"),
            ?(assoc_obj_set_neq "type" "relation") by discriminate;
    rewrite assoc_obj_set_neq by discriminate;
    rewrite assoc_obj_set_eq; auto.
Qed.

Lemma mapM_normalizeField (fs : list JSON) (s : list SpecRow) (ys : list JSON) :
  Forall (fun f => exists ffs,
              f = JObj ffs
              /\ fieldTypeAccepted (normalizeFieldType (prop f "type")) = true)
         fs ->
  snd (mapM normalizeField fs s) = inr ys ->
  Forall2 normalized_field fs ys.
Proof.
  intros Hf. revert ys. induction Hf as [|f fs [ffs [-> Hacc]] _ IH]; intros ys.
  - simpl. intros [= <-]. constructor.
  - simpl. unfold bind at 1.
    destruct (normalizeField_obj ffs s) as [fs' [E [Hn Ht]]]. rewrite E.
    unfold bind at 1.
    pose proof (check_mapM normalizeField fs check_normalizeField s) as Hc.
    destruct (mapM normalizeField fs s) as [s' [e|zs]] eqn:Em; [discriminate|].
    simpl in Hc. subst s'. simpl. intros [= <-].
    constructor; [|apply IH; reflexivity].
    unfold fieldTypeAccepted in Hacc. apply andb_true_iff in Hacc.
    unfold normalized_field.
    assert (Hty : prop (JObj fs') "type"
                  = normalizeFieldType (prop (JObj ffs) "type")).
    { unfold prop at 1. now rewrite Ht. }
    rewrite Hty. split; [|split; [reflexivity | apply Hacc]].
    unfold prop. now rewrite Hn.
Qed.

(** X2: a [create_model] that succeeds has appended one architecture
    entry under the model name.  Its fields are the submitted fields in
    order, each with its name kept and its type replaced by the canonical
    name; the returned data carries the model name and the number of
    fields. *)
Theorem create_model_stores_canonical_types (a : string) (step : JSON)
    (brid uid : option string) (tbl tbl' : list SpecRow) (d : JSON) :
  handleCreateModel a step brid uid tbl = (tbl', Success d) ->
  exists mn submitted stored v,
    js_or (prop step "name") (prop step "target") = JStr mn
    /\ js_or (js_or (prop step "fields")
                    (if truthy (prop step "details")
                     then prop (prop step "details") "fields"
                     else prop step "details"))
             (JArr []) = JArr submitted
    /\ tbl' = (tbl ++ [mkSpecRow a "architecture" mn v (sent uid) (sent brid)])%list
    /\ prop v "name" = JStr mn
    /\ prop v "fields" = JArr stored
    /\ Forall2 normalized_field submitted stored
    /\ d = JObj [("modelName", JStr mn);
                 ("fields", JNum (Z.of_nat (length submitted)))].
Proof.
  unfold handleCreateModel. revert tbl' d. apply try_catch_success.
  do 2 step_success.
  destruct (js_or (prop step "name") (prop step "target")) as [| | | |mn| |] eqn:Hs;
    try exact I.
  destruct (truthy (JStr mn)); cbn [negb]; [|exact I].
  do 3 step_success.
  destruct (js_or (js_or _ _) _) as [| | | | |[|f0 fr]|] eqn:Hf; try exact I.
  match goal with
  | |- on_success ?P (bind ?c ?k ?s) =>
      apply (bind_check_post c k s
               (fun _ => Forall (fun f => exists ffs,
                   f = JObj ffs
                   /\ fieldTypeAccepted (normalizeFieldType (prop f "type")) = true)
                 (f0 :: fr))
               (on_success P));
        [ solve_check | | apply aborted_on_success | intros _ Hval ]
  end.
  { intros x. apply for_of_validateField. }
  rewrite bind_query.
  destruct (spec_select_single a "architecture" mn tbl); [exact I|].
  match goal with
  | |- on_success ?P (bind ?c ?k ?s) =>
      apply (bind_check_post c k s
               (fun ys => Forall2 normalized_field (f0 :: fr) ys)
               (on_success P));
        [ solve_check | | apply aborted_on_success | intros stored Hst ]
  end.
  { intros ys. now apply mapM_normalizeField. }
  do 2 step_success.
  rewrite bind_query. unfold spec_insert.
  destruct (existsb (spec_match a "architecture" mn) tbl); [exact I|].
  rewrite bind_write. cbn [ret on_success].
  eexists mn, (f0 :: fr), stored, _.
  split; [reflexivity|]. split; [reflexivity|]. split; [reflexivity|].
  rewrite !prop_obj.
  rewrite !(assoc_spread_if_neq "name"), !(assoc_spread_if_neq "fields")
    by discriminate.
  simpl.
  split; [reflexivity|]. split; [reflexivity|]. split; [exact Hst|].
  apply Forall2_length in Hst. rewrite <- Hst. reflexivity.
Qed.

Lemma create_model_stores_canonical_types_witness :
  exists mn submitted stored v,
    js_or (prop (JObj [("type", JStr "create_model"); ("name", JStr "Order");
                       ("fields", JArr [JObj [("name", JStr "total");
                                              ("type", JStr "INTEGER")]])])
                "name")
          (prop (JObj [("type", JStr "create_model"); ("name", JStr "Order");
                       ("fields", JArr [JObj [("name", JStr "total");
                                              ("type", JStr "INTEGER")]])])
                "target") = JStr mn
    /\ JArr [JObj [("name", JStr "total"); ("type", JStr "INTEGER")]]
       = JArr submitted
    /\ [mkSpecRow "app-1" "architecture" "Order"
          (JObj [("name", JStr "Order");
                 ("fields", JArr [JObj [("name", JStr "total");
                                        ("type", JStr "number")]])])
          (Some "user-1") None]
       = ([] ++ [mkSpecRow "app-1" "architecture" mn v (sent (Some "user-1"))
                           (sent None)])%list
    /\ prop v "name" = JStr mn
    /\ prop v "fields" = JArr stored
    /\ Forall2 normalized_field submitted stored
    /\ JObj [("modelName", JStr "Order"); ("fields", JNum 1)]
       = JObj [("modelName", JStr mn);
               ("fields", JNum (Z.of_nat (length submitted)))].
Proof.
  apply (create_model_stores_canonical_types "app-1"
           (JObj [("type", JStr "create_model"); ("name", JStr "Order");
                  ("fields", JArr [JObj [("name", JStr "total");
                                         ("type", JStr "INTEGER")]])])
           None (Some "user-1") []).
  reflexivity.
Defined.

(** ** One invocation of run-one-step *)

(** X10: a POST with an app id answers [done] exactly when the app has
    no pending step, and then the database is unchanged, whatever other
    callers do meanwhile. *)
Theorem run_step_done_iff_no_pending (env : DB -> DB) (v : JSON) (db : DB) :
  truthy v = true ->
  (snd (snd (run_step env "POST" v db)) = RsDone
   <-> forall s, In s (execution_steps db) -> step_app_id s = to_string v ->
                 step_status s <> pending)
  /\ (snd (snd (run_step env "POST" v db)) = RsDone ->
      run_step env "POST" v db = (db, (200%nat, RsDone))).
Proof.
  intros Hv. rewrite <- fetch_next_pending_none.
  unfold run_step. rewrite Hv. cbn [negb].
  change (negb ("POST" =? "POST")) with false. cbn iota. cbv zeta.
  destruct (fetch_next_pending (to_string v) (execution_steps db)) as [step|].
  - match goal with
    | |- context [snd (snd ?t)] => set (r := t)
    end.
    assert (Hr : snd (snd r) <> RsDone).
    { subst r. destruct (snd (update_step_status _ _ _)); [discriminate|].
      destruct (sent _); [|discriminate].
      destruct (executeStep _ _ _ _ _) as [db2 [m|x]]; [discriminate|].
      destruct (snd (update_step_status _ _ _)); discriminate. }
    split; [split|]; intros H; try discriminate; contradiction.
  - split; [split|]; reflexivity.
Qed.

Lemma run_step_done_iff_no_pending_witness :
  (snd (snd (run_step id_env "POST" (JStr "app-2") db_orders)) = RsDone
   <-> forall s, In s (execution_steps db_orders) ->
                 step_app_id s = "app-2" -> step_status s <> pending)
  /\ (snd (snd (run_step id_env "POST" (JStr "app-2") db_orders)) = RsDone ->
      run_step id_env "POST" (JStr "app-2") db_orders
      = (db_orders, (200%nat, RsDone))).
Proof.
  apply (run_step_done_iff_no_pending id_env (JStr "app-2") db_orders).
  reflexivity.
Defined.

Lemma mark_step_apps id st db : apps (mark_step id st db) = apps db.
Proof. reflexivity. Qed.

Lemma resolve_user_id_mark a id st db :
  resolve_user_id a (mark_step id st db) = resolve_user_id a db.
Proof. reflexivity. Qed.

(** X11: when the app has no owner the invocation answers 500 after
    it has claimed the step: the step stays in [processing], it is not
    marked failed, nothing is executed, and no later invocation selects
    it again. *)
Theorem missing_user_leaves_step_processing (v : JSON) (db : DB)
    (step : StepRow) :
  truthy v = true ->
  fetch_next_pending (to_string v) (execution_steps db) = Some step ->
  sent (resolve_user_id (to_string v) db) = None ->
  let db' := fst (run_step id_env "POST" v db) in
  fst (snd (run_step id_env "POST" v db)) = 500%nat
  /\ execution_steps db'
     = map (restatus (step_id step) processing) (execution_steps db)
  /\ app_spec db' = app_spec db
  /\ (forall s, In s (execution_steps db') -> step_id s = step_id step ->
                step_status s = processing)
  /\ (forall s, fetch_next_pending (to_string v) (execution_steps db') = Some s ->
                step_id s <> step_id step).
Proof.
  intros Hv Hf Hu. cbv zeta. unfold id_env.
  rewrite (run_step_claimed v db step Hv Hf). cbv zeta.
  rewrite resolve_user_id_mark, Hu. cbn [fst snd].
  assert (Hproc : forall s,
             In s (execution_steps (mark_step (step_id step) processing db)) ->
             step_id s = step_id step -> step_status s = processing).
  { intros s Hin Hid. unfold mark_step in Hin. simpl in Hin.
    apply in_map_iff in Hin as [r [<- Hr]].
    destruct (step_id r =? step_id step)%nat eqn:E; [reflexivity|].
    apply Nat.eqb_neq in E. contradiction. }
  split; [reflexivity|]. split; [reflexivity|]. split; [reflexivity|].
  split; [exact Hproc|].
  intros s Hs Hid. apply fetch_next_pending_least in Hs as (Hin & _ & Hst & _).
  rewrite (Hproc s Hin Hid) in Hst. discriminate.
Qed.

Lemma missing_user_leaves_step_processing_witness :
  fst (snd (run_step id_env "POST" (JStr "app-1") db_no_owner)) = 500%nat
  /\ execution_steps (fst (run_step id_env "POST" (JStr "app-1") db_no_owner))
     = map (restatus 1 processing) (execution_steps db_no_owner)
  /\ app_spec (fst (run_step id_env "POST" (JStr "app-1") db_no_owner))
     = app_spec db_no_owner
  /\ (forall s,
         In s (execution_steps
                 (fst (run_step id_env "POST" (JStr "app-1") db_no_owner))) ->
         step_id s = 1%nat -> step_status s = processing)
  /\ (forall s,
         fetch_next_pending "app-1"
           (execution_steps
              (fst (run_step id_env "POST" (JStr "app-1") db_no_owner)))
         = Some s ->
         step_id s <> 1%nat).
Proof.
  apply (missing_user_leaves_step_processing (JStr "app-1") db_no_owner
           step_model_no_fields); reflexivity.
Defined.

(** X12: an invocation adds and removes no step row and changes no
    column but [status]: either the steps table is unchanged, or the rows
    with the selected step's id have moved to a status other than
    [pending]. *)
Theorem run_step_changes_status_only (method : string) (v : JSON) (db : DB) :
  let db' := fst (run_step id_env method v db) in
  execution_steps db' = execution_steps db
  \/ exists step st,
       fetch_next_pending (to_string v) (execution_steps db) = Some step
       /\ st <> pending
       /\ execution_steps db'
          = map (restatus (step_id step) st) (execution_steps db).
Proof.
  cbv zeta. unfold id_env.
  destruct (method =? "POST") eqn:Hm.
  - apply String.eqb_eq in Hm. subst method.
    destruct (truthy v) eqn:Hv.
    + destruct (fetch_next_pending (to_string v) (execution_steps db))
        as [step|] eqn:Hf.
      * right. destruct (run_step_steps v db step Hv Hf) as [st [Hst E]].
        exists step, st. auto.
      * left. unfold run_step. rewrite Hv, Hf. reflexivity.
    + left. unfold run_step. rewrite Hv. reflexivity.
  - left. unfold run_step. rewrite Hm. reflexivity.
Qed.

(** ** The spec table under the step runners *)

Lemma executeStep_writes step a brid uid db :
  writes a (app_spec db) (app_spec (fst (executeStep step a brid uid db))).
Proof.
  unfold executeStep.
  destruct (resolve_payload (operations_log db) step) as [m|[ty data]];
    [apply writes_none|].
  destruct (negb (truthy ty)); [apply writes_none|].
  pose proof (executeStepHandler_writes (clock db) a
                (JObj (obj_assign [("type", ty)] (spread data))) brid uid
                (app_spec db)) as H.
  destruct (executeStepHandler _ _ _ _ _ _) as [tbl [d|e]]; exact H.
Qed.

Lemma run_step_writes (method : string) (v : JSON) (db : DB) :
  writes (to_string v) (app_spec db)
         (app_spec (fst (run_step id_env method v db))).
Proof.
  unfold id_env.
  destruct (method =? "POST") eqn:Hm;
    [|unfold run_step; rewrite Hm; apply writes_none].
  apply String.eqb_eq in Hm. subst method.
  destruct (truthy v) eqn:Hv;
    [|unfold run_step; rewrite Hv; apply writes_none].
  destruct (fetch_next_pending (to_string v) (execution_steps db))
    as [step|] eqn:Hf;
    [|unfold run_step; rewrite Hv, Hf; apply writes_none].
  rewrite (run_step_claimed v db step Hv Hf). cbv zeta.
  destruct (sent _); [|apply writes_none].
  match goal with
  | |- context [executeStep ?s ?a ?b ?u ?d] =>
      pose proof (executeStep_writes s a b u d) as H;
      destruct (executeStep s a b u d) as [db2 [m|r]]
  end; exact H.
Qed.

Lemma run_steps_writes a steps i db errs :
  writes a (app_spec db) (app_spec (fst (run_steps a steps i db errs))).
Proof.
  revert i db errs. induction steps as [|step r IH]; intros i db errs; simpl;
    [apply writes_none|].
  destruct (read step "type") as [m|ty]; [apply writes_none|].
  destruct (negb (truthy ty)); [apply IH|].
  pose proof (executeStepHandler_writes (clock db) a step None None
                (app_spec db)) as H.
  destruct (executeStepHandler _ _ _ _ _ _) as [tbl [d|e]];
    (eapply writes_then; [exact H|]);
    match goal with
    | |- writes _ ?t (app_spec (fst (run_steps _ _ _ ?d _))) =>
        change t with (app_spec d)
    end; apply IH.
Qed.

Lemma run_operation_writes a op db :
  writes a (app_spec db) (app_spec (fst (run_operation a op db))).
Proof.
  unfold run_operation.
  destruct (op_operations op) as [| | | | |[|s ss]|]; try apply writes_none.
  pose proof (run_steps_writes a (s :: ss) 0
                (mark_operation_processing (op_id op) db) []) as H.
  destruct (run_steps _ _ _ _ _) as [db' [m|[|e es]]]; exact H.
Qed.

Lemma run_operations_writes a ops db n f rs :
  writes a (app_spec db) (app_spec (fst (run_operations a ops db n f rs))).
Proof.
  revert db n f rs. induction ops as [|op r IH]; intros db n f rs; simpl;
    [apply writes_none|].
  pose proof (run_operation_writes a op db) as H.
  destruct (run_operation a op db) as [db' res].
  eapply writes_then; [exact H|].
  destruct (rr_success res); apply IH.
Qed.

Lemma run_app_writes (method : string) (v : JSON) (db : DB) :
  writes (to_string v) (app_spec db) (app_spec (fst (run_app method v db))).
Proof.
  unfold run_app.
  destruct (negb (method =? "POST")); [apply writes_none|].
  destruct (negb (truthy v) || negb (is_string v)); [apply writes_none|].
  destruct (lookup_app (to_string v) db); [|apply writes_none].
  destruct (pending_operations _ _ _) as [|op ops]; [apply writes_none|].
  pose proof (run_operations_writes (to_string v) (op :: ops) db 0 0 []) as H.
  destruct (run_operations _ _ _ _ _ _) as [db' [[n f] rs]]. exact H.
Qed.

(** X7: the run-one-step endpoint and the bulk step runner keep the
    unique key [(app_id, config_type, config_key)] of the spec table. *)
Theorem runners_keep_unique_key (method : string) (v : JSON) (db : DB) :
  spec_unique (app_spec db) ->
  spec_unique (app_spec (fst (run_step id_env method v db)))
  /\ spec_unique (app_spec (fst (run_app method v db))).
Proof.
  intros H. split.
  - eapply writes_unique; [apply run_step_writes | exact H].
  - eapply writes_unique; [apply run_app_writes | exact H].
Qed.

Lemma runners_keep_unique_key_witness :
  spec_unique (app_spec (fst (run_step id_env "POST" (JStr "app-1") db_orders)))
  /\ spec_unique (app_spec (fst (run_app "POST" (JStr "app-1") db_orders))).
Proof.
  apply (runners_keep_unique_key "POST" (JStr "app-1") db_orders).
  apply NoDup_nil_2.
Defined.

(** X8: a request to the run-one-step endpoint or to the bulk step
    runner changes no spec entry of another app than the one it names. *)
Theorem runners_leave_other_apps (method : string) (v : JSON) (db : DB) :
  List.filter (other_app (to_string v))
              (app_spec (fst (run_step id_env method v db)))
  = List.filter (other_app (to_string v)) (app_spec db)
  /\ List.filter (other_app (to_string v))
                 (app_spec (fst (run_app method v db)))
     = List.filter (other_app (to_string v)) (app_spec db).
Proof.
  split; apply writes_other_apps; [apply run_step_writes | apply run_app_writes].
Qed.

(** X9: neither runner deletes or re-keys a spec entry: the keys
    stored before the request are a prefix of the keys stored after it,
    and every added key belongs to the app of the request. *)
Theorem runners_only_append_keys (method : string) (v : JSON) (db : DB) :
  (exists added,
      map spec_key (app_spec (fst (run_step id_env method v db)))
      = (map spec_key (app_spec db) ++ added)%list
      /\ Forall (fun k => fst (fst k) = to_string v) added)
  /\ (exists added,
         map spec_key (app_spec (fst (run_app method v db)))
         = (map spec_key (app_spec db) ++ added)%list
         /\ Forall (fun k => fst (fst k) = to_string v) added).
Proof.
  split; apply writes_keys; [apply run_step_writes | apply run_app_writes].
Qed.

(** ** The client loop *)

Lemma filter_restatus_le (a : string) (id : nat) (st : Status)
    (steps : list StepRow) :
  st <> pending ->
  length (List.filter (pending_of a) (map (restatus id st) steps))
  <= length (List.filter (pending_of a) steps).
Proof.
  intros Hst. induction steps as [|r steps IH]; simpl; [lia|].
  unfold restatus at 1. destruct (step_id r =? id)%nat.
  - unfold pending_of at 1. simpl.
    replace (Status_eqb st pending) with false
      by (destruct st; try reflexivity; contradiction).
    rewrite andb_false_r. destruct (pending_of a r); simpl; lia.
  - destruct (pending_of a r); simpl; lia.
Qed.

Lemma filter_restatus_lt (a : string) (id : nat) (st : Status)
    (steps : list StepRow) (s : StepRow) :
  st <> pending -> In s steps -> step_id s = id -> pending_of a s = true ->
  length (List.filter (pending_of a) (map (restatus id st) steps))
  < length (List.filter (pending_of a) steps).
Proof.
  intros Hst Hin Hid Hp. induction steps as [|r steps IH]; [contradiction|].
  simpl. destruct Hin as [->|Hin].
  - unfold restatus at 1. rewrite Hid, Nat.eqb_refl.
    unfold pending_of at 1. simpl.
    replace (Status_eqb st pending) with false
      by (destruct st; try reflexivity; contradiction).
    rewrite andb_false_r, Hp. simpl.
    pose proof (filter_restatus_le a id st steps Hst). lia.
  - specialize (IH Hin).
    unfold restatus at 1. destruct (step_id r =? id)%nat.
    + unfold pending_of at 1. simpl.
      replace (Status_eqb st pending) with false
        by (destruct st; try reflexivity; contradiction).
      rewrite andb_false_r. destruct (pending_of a r); simpl; lia.
    + destruct (pending_of a r); simpl; lia.
Qed.

(** A request that claims a step leaves fewer pending steps. *)
Lemma run_step_fewer_pending (a : string) (db db' : DB) (code : nat)
    (step : StepRow) :
  run_step id_env "POST" (JStr a) db = (db', (code, RsApplied step)) ->
  pending_count a db' < pending_count a db.
Proof.
  intros H.
  destruct (truthy (JStr a)) eqn:Hv;
    [|unfold run_step in H; rewrite Hv in H; discriminate].
  destruct (fetch_next_pending a (execution_steps db)) as [s|] eqn:Hf;
    [|unfold run_step in H; rewrite Hv in H; cbn [to_string] in H;
      rewrite Hf in H; discriminate].
  destruct (run_step_steps (JStr a) db s Hv Hf) as [st [Hst E]].
  unfold id_env in H. rewrite H in E. cbn [fst to_string] in E.
  unfold pending_count. rewrite E.
  apply fetch_next_pending_least in Hf as (Hin & Ha & Hs & _).
  apply (filter_restatus_lt a (step_id s) st _ s Hst Hin eq_refl).
  unfold pending_of. now rewrite Ha, Hs, String.eqb_refl.
Qed.

Lemma runAllSteps_adequate (a : string) (n : nat) :
  forall db m,
    pending_count a db < n -> pending_count a db < m ->
    runAllSteps n a db = runAllSteps m a db
    /\ ends_loop (snd (runAllSteps n a db)).
Proof.
  induction n as [|n IH]; intros db m Hn Hm; [lia|].
  destruct m as [|m]; [lia|].
  cbn [runAllSteps].
  destruct (run_step id_env "POST" (JStr a) db) as [db' [code data]] eqn:E.
  destruct data as [step| |e].
  - pose proof (run_step_fewer_pending a db db' code step E) as Hlt.
    destruct (IH db' m ltac:(lia) ltac:(lia)) as [Heq Hend].
    rewrite <- Heq.
    destruct (runAllSteps n a db') as [db'' rest]. split; [reflexivity|].
    cbn [snd] in *. destruct Hend as (earlier & c & d & -> & Hd & Hall).
    exists ((code, RsApplied step) :: earlier), c, d.
    split; [reflexivity|]. split; [exact Hd|].
    constructor; [eexists; reflexivity | exact Hall].
  - split; [reflexivity|]. exists [], code, RsDone.
    split; [reflexivity|]. split; [discriminate | constructor].
  - split; [reflexivity|]. exists [], code, (RsError e).
    split; [reflexivity|]. split; [discriminate | constructor].
Qed.

(** X13: the client loop ends.  With more fuel than the app has
    pending steps the loop's result does not depend on the fuel, its last
    response is [done] or an error, every earlier response is [applied],
    and it posts at most one request more than there are pending steps. *)
Theorem run_loop_terminates (a : string) (db : DB) (fuel : nat) :
  pending_count a db < fuel ->
  runAllSteps fuel a db = runAllSteps (S (pending_count a db)) a db
  /\ ends_loop (snd (runAllSteps fuel a db))
  /\ length (snd (runAllSteps fuel a db)) <= S (pending_count a db).
Proof.
  intros H.
  destruct (runAllSteps_adequate a fuel db (S (pending_count a db)) H
              ltac:(lia)) as [E Hend].
  split; [exact E|]. split; [exact Hend|].
  rewrite E. clear.
  generalize (S (pending_count a db)) as n. intros n. revert db.
  induction n as [|n IH]; intros db; simpl; [lia|].
  destruct (run_step id_env "POST" (JStr a) db) as [db' [code data]].
  destruct data; simpl; try lia.
  specialize (IH db'). destruct (runAllSteps n a db'). simpl in *. lia.
Qed.

Lemma run_loop_terminates_witness :
  runAllSteps 5 "app-1" db_two_orphans
  = runAllSteps (S (pending_count "app-1" db_two_orphans)) "app-1"
                db_two_orphans
  /\ ends_loop (snd (runAllSteps 5 "app-1" db_two_orphans))
  /\ length (snd (runAllSteps 5 "app-1" db_two_orphans))
     <= S (pending_count "app-1" db_two_orphans).
Proof.
  apply (run_loop_terminates "app-1" db_two_orphans 5).
  vm_compute. lia.
Defined.

(** ** The expander and the runner *)

Lemma stepsToInsert_lookup (op : OpRow) (now : Z) (id0 : nat) (ds : list JSON) :
  forall (j : nat) (rows : list StepRow) (i : nat) (d : JSON),
    stepsToInsert op now id0 j ds = inr rows ->
    ds !! i = Some d ->
    rows !! i
    = Some (mkStepRow (id0 + (j + i)) (op_app_id op) (Some (op_id op))
              (Z.of_nat (j + i))
              (js_or (prop d "type") (JStr "create_component"))
              (js_or (js_or (js_or (js_or (prop d "name") (prop d "slug"))
                                   (prop d "componentName"))
                            (prop d "target"))
                     (JStr ("step-" ++ pretty (j + i))))
              pending None now).
Proof.
  induction ds as [|d0 ds IH]; intros j rows i d H Hi; [discriminate|].
  simpl in H. unfold step_of_descriptor in H.
  destruct (read d0 "type") as [m|ty] eqn:Er; [discriminate|].
  destruct (stepsToInsert op now id0 (S j) ds) as [m|rows'] eqn:E;
    [discriminate|].
  injection H as <-.
  destruct i as [|i]; simpl in Hi.
  - injection Hi as <-. simpl. rewrite Nat.add_0_r.
    assert (ty = prop d0 "type") as ->.
    { unfold read in Er. destruct d0; try discriminate; now injection Er. }
    reflexivity.
  - simpl. rewrite (IH (S j) rows' i d E Hi).
    replace (S j + i) with (j + S i) by lia. reflexivity.
Qed.

Lemma js_index_nat (xs : list JSON) (i : nat) :
  js_index xs (Z.of_nat i) = default JUndefined (xs !! i).
Proof.
  unfold js_index.
  destruct (Z.ltb_spec (Z.of_nat i) 0); [lia|]. now rewrite Nat2Z.id.
Qed.

(** X14: the expander and the run-one-step endpoint agree.  For every
    descriptor of an operation that is expanded, the step created at its
    index is pending, has the descriptor's type ([create_component] when it
    has none), and resolves back to that descriptor as its payload. *)
Theorem expanded_step_resolves_to_descriptor (op : OpRow) (db db' : DB)
    (t t' : nat) (ids ids' : list nat) (ds : list JSON) (i : nat) (d : JSON) :
  lookup_operation (op_id op) db = Some op ->
  op_operations op = JArr ds ->
  settled op db = false ->
  expand_operation op db t ids = Expanding db' t' ids' ->
  ds !! i = Some d ->
  truthy d = true ->
  exists row,
    In row (execution_steps db')
    /\ step_operation_id row = Some (op_id op)
    /\ step_index row = Z.of_nat i
    /\ step_status row = pending
    /\ step_type row = js_or (prop d "type") (JStr "create_component")
    /\ resolve_payload (operations_log db') row = inr (step_type row, d).
Proof.
  intros Hop Hds Hset H Hi Hd.
  unfold settled in Hset. unfold expand_operation in H. rewrite Hds in *.
  destruct ds as [|d0 dr]; [discriminate|].
  destruct (firstn 1 (List.filter (linked_to op) (execution_steps db))) eqn:Ef.
  2:{ exfalso. apply firstn1_filter_nil in Hset. congruence. }
  destruct (stepsToInsert _ _ _ _ _) as [m|rows] eqn:Es; [discriminate|].
  injection H as <- _ _.
  pose proof (stepsToInsert_lookup _ _ _ _ 0 rows i d Es Hi) as Hrow.
  simpl in Hrow.
  eexists. split.
  { simpl. apply in_or_app. right.
    apply list_elem_of_In. eapply list_elem_of_lookup_2. exact Hrow. }
  split; [reflexivity|]. split; [reflexivity|]. split; [reflexivity|].
  split; [reflexivity|].
  unfold resolve_payload. cbn [step_operation_id step_index step_type].
  change (operations_log (insert_steps rows (delete_orphans (op_app_id op) db)))
    with (operations_log db).
  unfold lookup_operation in Hop. rewrite Hop, Hds, js_index_nat, Hi.
  cbn [default from_option id]. rewrite Hd.
  f_equal. f_equal. unfold js_or.
  destruct (truthy (prop d "type")); reflexivity.
Qed.

Lemma expanded_step_resolves_to_descriptor_witness :
  exists row,
    In row (execution_steps
              (expansion_db (expand_operation op_orders db_unexpanded 0 [])))
    /\ step_operation_id row = Some 10%nat
    /\ step_index row = 1%Z
    /\ step_status row = pending
    /\ step_type row = JStr "create_model"
    /\ resolve_payload
         (operations_log
            (expansion_db (expand_operation op_orders db_unexpanded 0 [])))
         row
       = inr (step_type row,
              JObj [("type", JStr "create_model"); ("name", JStr "Order");
                    ("fields", JArr [JObj [("name", JStr "total");
                                           ("type", JStr "number")]])]).
Proof.
  apply (expanded_step_resolves_to_descriptor op_orders db_unexpanded
           (expansion_db (expand_operation op_orders db_unexpanded 0 []))
           0 2 [] [10%nat]
           [JObj [("type", JStr "create_page"); ("slug", JStr "orders");
                  ("title", JStr "Orders")];
            JObj [("type", JStr "create_model"); ("name", JStr "Order");
                  ("fields", JArr [JObj [("name", JStr "total");
                                         ("type", JStr "number")]])]]
           1
           (JObj [("type", JStr "create_model"); ("name", JStr "Order");
                  ("fields", JArr [JObj [("name", JStr "total");
                                         ("type", JStr "number")]])]));
    reflexivity.
Defined.

Lemma same_but_steps_refl db : same_but_steps db db.
Proof. repeat split. Qed.

Lemma same_but_steps_trans db1 db2 db3 :
  same_but_steps db1 db2 -> same_but_steps db2 db3 -> same_but_steps db1 db3.
Proof.
  unfold same_but_steps. intros (?&?&?&?&?&?) (?&?&?&?&?&?).
  repeat split; congruence.
Qed.

Lemma linked_count_delete a db :
  length (List.filter is_linked (execution_steps (delete_orphans a db)))
  = length (List.filter is_linked (execution_steps db)).
Proof.
  unfold delete_orphans. simpl.
  induction (execution_steps db) as [|s r IH]; simpl; [reflexivity|].
  unfold orphan_of at 1, is_linked at 2.
  destruct (step_operation_id s) eqn:E; simpl.
  - rewrite andb_false_r. simpl. unfold is_linked at 1. rewrite E. simpl.
    now rewrite IH.
  - destruct (step_app_id s =? a); simpl; [exact IH|].
    unfold is_linked at 1. rewrite E. exact IH.
Qed.

Lemma linked_rows (rows : list StepRow) :
  (forall r, In r rows -> exists o, step_operation_id r = Some o) ->
  List.filter is_linked rows = rows.
Proof.
  induction rows as [|r rows IH]; intros H; simpl; [reflexivity|].
  destruct (H r (or_introl eq_refl)) as [o Ho].
  unfold is_linked at 1. rewrite Ho. f_equal. apply IH.
  intros x Hx. apply H. now right.
Qed.

Lemma expand_operation_effect (op : OpRow) (db : DB) (t : nat) (ids : list nat) :
  same_but_steps db (expansion_db (expand_operation op db t ids))
  /\ match expand_operation op db t ids with
     | Expanding db' t' _ =>
         length (List.filter is_linked (execution_steps db')) + t
         = length (List.filter is_linked (execution_steps db)) + t'
     | Thrown _ _ => True
     end.
Proof.
  destruct (expand_operation_cases op db t ids)
    as [[_ ->]|[[_ [m [-> _]]]|[_ [rows [_ [Hrows ->]]]]]]; simpl.
  - split; [apply same_but_steps_refl | reflexivity].
  - split; [repeat split | exact I].
  - split; [repeat split|].
    rewrite List.filter_app, length_app.
    change (List.filter (fun s => negb (orphan_of (op_app_id op) s))
                        (execution_steps db))
      with (execution_steps (delete_orphans (op_app_id op) db)).
    rewrite (linked_count_delete (op_app_id op) db), (linked_rows rows);
      [lia|].
    intros r Hr. destruct (Hrows r Hr) as [Ho _]. eauto.
Qed.

Lemma expand_loop_effect (ops : list OpRow) :
  forall (db : DB) (t : nat) (ids : list nat),
  same_but_steps db (expansion_db (expand_loop ops db t ids))
  /\ match expand_loop ops db t ids with
     | Expanding db' t' _ =>
         length (List.filter is_linked (execution_steps db')) + t
         = length (List.filter is_linked (execution_steps db)) + t'
     | Thrown _ _ => True
     end.
Proof.
  induction ops as [|op ops IH]; intros db t ids; simpl.
  - split; [apply same_but_steps_refl | reflexivity].
  - pose proof (expand_operation_effect op db t ids) as [Hs Hc].
    destruct (expand_operation op db t ids) as [db1 t1 ids1|db1 m]; simpl in *.
    + destruct (IH db1 t1 ids1) as [Hs' Hc']. split.
      * eapply same_but_steps_trans; eassumption.
      * destruct (expand_loop ops db1 t1 ids1); [lia | exact I].
    + split; [exact Hs | exact I].
Qed.

(** X15: the expander writes the steps table only; in particular it
    leaves the operations pending. *)
Theorem expander_writes_steps_only (method : string) (appId : option string)
    (operationId : option nat) (db : DB) :
  same_but_steps db (fst (expand_operations method appId operationId db)).
Proof.
  destruct (expand_operations_db method appId operationId db) as [->|[_ ->]].
  - apply same_but_steps_refl.
  - apply expand_loop_effect.
Qed.

(** X16: the count [expanded] of a successful response is the number
    of steps with an owning operation that the request added. *)
Theorem expanded_counts_new_linked_steps (method : string)
    (appId : option string) (operationId : option nat) (db db' : DB)
    (code expanded : nat) (operationIds : list nat) :
  expand_operations method appId operationId db
  = (db', (code, ExOk expanded operationIds)) ->
  length (List.filter is_linked (execution_steps db'))
  = length (List.filter is_linked (execution_steps db)) + expanded.
Proof.
  unfold expand_operations.
  destruct (negb (method =? "POST")); [discriminate|].
  assert (Hgo : forall ops,
             match ops with
             | [] => (db, (200%nat, ExOk 0 []))
             | o :: l =>
                 match expand_loop (o :: l) db 0 [] with
                 | Expanding db1 n l => (db1, (200%nat, ExOk n l))
                 | Thrown db1 m => (db1, (500%nat, ExError m))
                 end
             end = (db', (code, ExOk expanded operationIds)) ->
             length (List.filter is_linked (execution_steps db'))
             = length (List.filter is_linked (execution_steps db)) + expanded).
  { intros [|op ops].
    - intros [= <- _ <- _]. lia.
    - pose proof (expand_loop_effect (op :: ops) db 0 []) as [_ Hc].
      destruct (expand_loop (op :: ops) db 0 []) as [db1 n l|db1 m];
        [|discriminate].
      intros [= <- _ <- _]. lia. }
  destruct (sent appId); destruct operationId; try discriminate; apply Hgo.
Qed.

Lemma expanded_counts_new_linked_steps_witness :
  length (List.filter is_linked
            (execution_steps
               (fst (expand_operations "POST" (Some "app-1") None
                                       db_unexpanded))))
  = length (List.filter is_linked (execution_steps db_unexpanded)) + 2.
Proof.
  apply (expanded_counts_new_linked_steps "POST" (Some "app-1") None
           db_unexpanded _ 200 2 [10%nat]).
  reflexivity.
Defined.

(** ** Validation and application of a batch *)

Lemma validateEach_inr (a : string) (db : DB) (ops : list JSON) :
  forall (i : nat) (acc res : list Msg),
    validateEach a ops i db acc = inr res ->
    exists l, res = (acc ++ l)%list
              /\ (l = [] ->
                  Forall (fun op => validateOperation a op db = inr []) ops).
Proof.
  induction ops as [|op ops IH]; intros i acc res H; simpl in H.
  - injection H as <-. exists []. split; [now rewrite app_nil_r | constructor].
  - destruct (validateOperation a op db) as [m|[|e es]] eqn:E; [discriminate| |].
    + destruct (IH _ _ _ H) as [l [-> Hl]]. exists l. split; [reflexivity|].
      intros Hnil. constructor; [exact E | now apply Hl].
    + destruct (IH _ _ _ H) as [l [-> Hl]].
      eexists (_ :: l). split; [now rewrite <- app_assoc|]. discriminate.
Qed.

Lemma validateEach_all_valid (a : string) (db : DB) (ops : list JSON) :
  Forall (fun op => validateOperation a op db = inr []) ops ->
  forall i acc, validateEach a ops i db acc = inr acc.
Proof.
  induction 1 as [|op ops E _ IH]; intros i acc; simpl; [reflexivity|].
  rewrite E. apply IH.
Qed.

Lemma validateOperations_each (a : string) (ops : list JSON) (db : DB) :
  validateOperations a (JArr ops) db = inr [] ->
  Forall (fun op => validateOperation a op db = inr []) ops.
Proof.
  unfold validateOperations. cbn [elements]. intros H.
  destruct (validateEach_inr a db ops 0 [] [] H) as [l [E Hl]].
  apply Hl. destruct l; [reflexivity | discriminate].
Qed.

(** X17: a batch validates exactly when each of its operations
    validates, each against the config table as it is before the batch. *)
Theorem batch_valid_iff_each_valid (a : string) (ops : list JSON) (db : DB) :
  validateOperations a (JArr ops) db = inr []
  <-> Forall (fun op => validateOperation a op db = inr []) ops.
Proof.
  split.
  - apply validateOperations_each.
  - intros H. unfold validateOperations. cbn [elements].
    now apply validateEach_all_valid.
Qed.

Lemma truthy_str (s : string) : s <> "" -> truthy (JStr s) = true.
Proof.
  intros H. simpl. destruct (String.eqb_spec s ""); [contradiction | reflexivity].
Qed.

Lemma validate_component_missing_page (a : string) (op : JSON) (p : string)
    (db : DB) :
  prop op "type" = JStr "add_component" ->
  prop op "page" = JStr p -> p <> "" ->
  cfg_select_single a "page" p db = None ->
  validateOperation a op db <> inr [].
Proof.
  intros Hty Hp Hne Hsel. unfold validateOperation.
  destruct op as [| | | | | |fs]; try discriminate.
  cbn [read]. rewrite Hty.
  change (includes validOperationTypes (JStr "add_component")) with true.
  cbn [negb]. cbv iota.
  unfold validateAddComponent. rewrite Hp, (truthy_str p Hne). cbn [negb push_if].
  destruct (truthy (prop (JObj fs) "component")); cbn [negb]; [|discriminate].
  destruct (truthy (prop (prop (JObj fs) "component") "type")); cbn [negb];
    [|discriminate].
  assert (Hm : missing a "page" (JStr p) db = true)
    by (unfold missing; cbn [to_string]; now rewrite Hsel).
  rewrite Hm. cbn [andb]. unfold push_if.
  repeat match goal with |- context [if ?b then _ else _] => destruct b end;
    discriminate.
Qed.

(** X18: a bulk operation with an [add_component] on a page that the
    config table does not hold is rejected as a whole, also when an
    earlier operation of the same batch would add that page: the operation
    is marked failed, nothing is applied and no version is recorded. *)
Theorem component_on_missing_page_rejects_batch (operation : AppOpRow)
    (ops : list JSON) (op : JSON) (p : string) (db : DB) :
  aop_operations operation = JArr ops ->
  In op ops ->
  prop op "type" = JStr "add_component" ->
  prop op "page" = JStr p -> p <> "" ->
  cfg_select_single (aop_app_id operation) "page" p db = None ->
  let r := process_operation operation db in
  snd r = false
  /\ app_config (fst r) = app_config db
  /\ app_versions (fst r) = app_versions db
  /\ forall row, In row (app_operations (fst r)) ->
                 aop_id row = aop_id operation -> aop_status row = failed.
Proof.
  intros Hops Hin Hty Hp Hne Hsel. cbv zeta.
  assert (Hfailed : forall m row,
             In row (app_operations
                       (mark_app_operation_failed (aop_id operation) m db)) ->
             aop_id row = aop_id operation -> aop_status row = failed).
  { intros m row Hrow Hid. unfold mark_app_operation_failed in Hrow.
    simpl in Hrow. apply in_map_iff in Hrow as [r0 [<- _]].
    destruct (aop_id r0 =? aop_id operation)%nat eqn:E; [reflexivity|].
    apply Nat.eqb_neq in E. contradiction. }
  unfold process_operation. rewrite Hops.
  destruct (validateOperations (aop_app_id operation) (JArr ops) db)
    as [m|[|e es]] eqn:E.
  - cbn [fst snd]. repeat split; apply Hfailed.
  - exfalso. apply validateOperations_each in E.
    rewrite List.Forall_forall in E. specialize (E op Hin).
    now apply (validate_component_missing_page _ _ p db Hty Hp Hne Hsel).
  - cbn [fst snd]. repeat split; apply Hfailed.
Qed.

Lemma component_on_missing_page_rejects_batch_witness :
  snd (process_operation aop_page_then_card db_page_then_card) = false
  /\ app_config (fst (process_operation aop_page_then_card db_page_then_card))
     = app_config db_page_then_card
  /\ app_versions (fst (process_operation aop_page_then_card db_page_then_card))
     = app_versions db_page_then_card
  /\ forall row,
       In row (app_operations
                 (fst (process_operation aop_page_then_card db_page_then_card))) ->
       aop_id row = 32%nat -> aop_status row = failed.
Proof.
  apply (component_on_missing_page_rejects_batch aop_page_then_card
           [JObj [("type", JStr "add_page");
                  ("page", JObj [("slug", JStr "about")])];
            op_card_on_about]
           op_card_on_about "about" db_page_then_card).
  - reflexivity.
  - simpl. tauto.
  - reflexivity.
  - reflexivity.
  - discriminate.
  - reflexivity.
Defined.

Lemma applyEach_sequence (a : string) (xs ys : list JSON) (db : DB) :
  applyEach a (xs ++ ys) db
  = match applyEach a xs db with
    | (db', inr _) => applyEach a ys db'
    | (db', inl m) => (db', inl m)
    end.
Proof.
  revert db. induction xs as [|x xs IH]; intros db; simpl; [reflexivity|].
  destruct (read x "type") as [m|ty]; [reflexivity|].
  destruct (apply_one a x ty db) as [[db' [m|u]]|]; try reflexivity.
  apply IH.
Qed.

(** X19: applying a batch is not undone on failure.  When the batch
    validates and an operation throws while it is applied, the operations
    before it stay applied, the bulk operation is marked failed with the
    thrown message and no version is recorded. *)
Theorem failed_apply_keeps_earlier_operations (operation : AppOpRow)
    (xs ys : list JSON) (bad : JSON) (db db1 db2 : DB) (m : Msg) :
  aop_operations operation = JArr (xs ++ bad :: ys) ->
  validateOperations (aop_app_id operation) (aop_operations operation) db
  = inr [] ->
  applyEach (aop_app_id operation) xs db = (db1, inr tt) ->
  applyEach (aop_app_id operation) [bad] db1 = (db2, inl m) ->
  let r := process_operation operation db in
  snd r = false
  /\ app_config (fst r) = app_config db2
  /\ app_versions (fst r) = app_versions db
  /\ forall row, In row (app_operations (fst r)) ->
                 aop_id row = aop_id operation ->
                 aop_status row = failed /\ aop_error_message row = Some m.
Proof.
  intros Hops Hval Hxs Hbad. cbv zeta.
  assert (Happly : applyOperations (aop_app_id operation)
                     (aop_operations operation) db = (db2, inl m)).
  { rewrite Hops. unfold applyOperations. cbn [elements].
    rewrite applyEach_sequence, Hxs.
    change (bad :: ys) with ([bad] ++ ys)%list.
    now rewrite applyEach_sequence, Hbad. }
  pose proof (applyOperations_same (aop_app_id operation)
                (aop_operations operation) db) as (Hver & _).
  rewrite Happly in Hver. cbn [fst] in Hver.
  unfold process_operation. rewrite Hval, Happly. cbn [fst snd].
  split; [reflexivity|]. split; [reflexivity|]. split; [exact Hver|].
  intros row Hrow Hid. unfold mark_app_operation_failed in Hrow.
  simpl in Hrow. apply in_map_iff in Hrow as [r0 [<- _]].
  destruct (aop_id r0 =? aop_id operation)%nat eqn:E; [now split|].
  apply Nat.eqb_neq in E. contradiction.
Qed.

Lemma failed_apply_keeps_earlier_operations_witness :
  snd (process_operation aop_theme_then_card db_string_components) = false
  /\ app_config (fst (process_operation aop_theme_then_card
                                        db_string_components))
     = [cfg_home; cfg_card;
        mkConfigRow 100 "app-1" "schema" "theme"
                    (JObj [("theme", JStr "dark")])]
  /\ app_versions (fst (process_operation aop_theme_then_card
                                          db_string_components))
     = app_versions db_string_components
  /\ forall row,
       In row (app_operations
                 (fst (process_operation aop_theme_then_card
                                         db_string_components))) ->
       aop_id row = 31%nat ->
       aop_status row = failed
       /\ aop_error_message row
          = Some [Txt "pageValue.components.push is not a function"].
Proof.
  apply (failed_apply_keeps_earlier_operations aop_theme_then_card
           [JObj [("type", JStr "update_theme"); ("theme", JStr "dark")]]
           [] op_add_card db_string_components
           (fst (applyEach "app-1"
                   [JObj [("type", JStr "update_theme");
                          ("theme", JStr "dark")]]
                   db_string_components))
           (fst (applyEach "app-1"
                   [JObj [("type", JStr "update_theme");
                          ("theme", JStr "dark")]]
                   db_string_components))
           [Txt "pageValue.components.push is not a function"]);
    reflexivity.
Defined.

(** ** Version numbers *)

Lemma fold_max_ge (l : list Z) (d n : Z) :
  In n (d :: l) -> (n <= fold_right Z.max d l)%Z.
Proof.
  induction l as [|x l IH]; simpl.
  - intros [->|[]]. lia.
  - intros [->|[->|H]].
    + specialize (IH (or_introl eq_refl)). lia.
    + lia.
    + specialize (IH (or_intror H)). lia.
Qed.

(** The next version number is above every version of the app. *)
Lemma next_version_number_above (a : string) (versions : list VersionRow) :
  forall n, In n (versions_of a versions) ->
            (n < next_version_number a versions)%Z.
Proof.
  unfold next_version_number, versions_of. intros n Hn.
  destruct (map version_number
                (List.filter (fun r => ver_app_id r =? a) versions))
    as [|d l]; [contradiction|].
  apply fold_max_ge in Hn. simpl. lia.
Qed.

(** It is positive when the versions of the app are. *)
Lemma next_version_number_pos (a : string) (versions : list VersionRow) :
  Forall (fun n => (0 < n)%Z) (versions_of a versions) ->
  (0 < next_version_number a versions)%Z.
Proof.
  intros Hpos.
  destruct (versions_of a versions) as [|d l] eqn:E.
  - unfold next_version_number. unfold versions_of in E. rewrite E.
    simpl. lia.
  - pose proof (next_version_number_above a versions d) as H.
    rewrite E in H. specialize (H (or_introl eq_refl)).
    apply List.Forall_inv in Hpos. lia.
Qed.

Lemma versions_ok_snapshot (a : string) (u : option string) (o : nat)
    (c : option string) (db : DB) :
  versions_ok (app_versions db) ->
  versions_ok (app_versions (createVersionSnapshot a u o c db)).
Proof.
  intros Hok. unfold createVersionSnapshot.
  destruct (build_snapshot a db) as [m|snap]; [exact Hok|].
  simpl. intros a'. destruct (Hok a') as [Hnd Hpos].
  unfold versions_of in *. rewrite List.filter_app, map_app. simpl.
  destruct (String.eqb_spec a a') as [<-|Hne]; simpl.
  - pose proof (next_version_number_pos a (app_versions db) Hpos) as Hp.
    pose proof (next_version_number_above a (app_versions db)) as Hlt.
    split.
    + apply NoDup_app. split; [exact Hnd|]. split; [|apply NoDup_singleton].
      intros x Hx Hx'. apply list_elem_of_singleton in Hx'. subst x.
      apply list_elem_of_In in Hx. specialize (Hlt _ Hx). lia.
    + apply Forall_app. split; [exact Hpos|]. now constructor.
  - rewrite !app_nil_r. split; assumption.
Qed.

Lemma process_operation_versions (operation : AppOpRow) (db : DB) :
  versions_ok (app_versions db) ->
  versions_ok (app_versions (fst (process_operation operation db)))
  /\ exists added,
       app_versions (fst (process_operation operation db))
       = (app_versions db ++ added)%list.
Proof.
  intros Hok. unfold process_operation.
  destruct (validateOperations _ _ _) as [m|[|e es]];
    try (split; [exact Hok | exists []; simpl; now rewrite app_nil_r]).
  pose proof (applyOperations_same (aop_app_id operation)
                (aop_operations operation) db) as (Hver & _).
  destruct (applyOperations _ _ _) as [db1 [m|u]]; simpl in Hver |- *.
  - rewrite Hver. split; [exact Hok | exists []; now rewrite app_nil_r].
  - split.
    + apply versions_ok_snapshot. now rewrite Hver.
    + unfold createVersionSnapshot. destruct (build_snapshot _ _).
      * exists []. now rewrite app_nil_r, Hver.
      * simpl. rewrite Hver. eauto.
Qed.

Lemma process_operations_versions (ops : list AppOpRow) :
  forall (db : DB) (n f : nat),
    versions_ok (app_versions db) ->
    versions_ok (app_versions (fst (process_operations ops db n f)))
    /\ exists added,
         app_versions (fst (process_operations ops db n f))
         = (app_versions db ++ added)%list.
Proof.
  induction ops as [|op ops IH]; intros db n f Hok; simpl.
  - split; [exact Hok | exists []; now rewrite app_nil_r].
  - destruct (process_operation_versions op db Hok) as [Hok1 [l1 E1]].
    destruct (process_operation op db) as [db1 [|]]; simpl in *;
      match goal with
      | |- context [process_operations ops db1 ?n' ?f'] =>
          destruct (IH db1 n' f' Hok1) as [Hok2 [l2 E2]]
      end;
      (split; [exact Hok2|]; exists (l1 ++ l2)%list;
       rewrite E2, E1; now rewrite app_assoc).
Qed.

Lemma apply_operations_cases (method : string) (accessToken : JSON)
    (user appId : option string) (operationId : option nat) (db : DB) :
  (fst (apply_operations method accessToken user appId operationId db) = db
   /\ forall p n f, snd (snd (apply_operations method accessToken user appId
                                               operationId db))
                    = ApOk p n f -> p = 0 /\ n = 0 /\ f = 0)
  \/ exists db' n f,
       process_operations
         (pending_app_operations (sent appId) operationId (app_operations db))
         db 0 0 = (db', (n, f))
       /\ apply_operations method accessToken user appId operationId db
          = (db', (200%nat,
                   ApOk (length (pending_app_operations (sent appId) operationId
                                                        (app_operations db)))
                        n f)).
Proof.
  unfold apply_operations.
  destruct (negb (method =? "POST"));
    [left; split; [reflexivity | discriminate]|].
  destruct (negb (truthy accessToken) || negb (is_string accessToken));
    [left; split; [reflexivity | discriminate]|].
  destruct user; [|left; split; [reflexivity | discriminate]].
  destruct (sent appId) as [a|]; destruct operationId as [o|];
    try (left; split; [reflexivity | discriminate]);
    (destruct (pending_app_operations _ _ _) as [|op ops];
     [ left; split; [reflexivity | now intros p n f [= <- <- <-]]
     | right;
       destruct (process_operations (op :: ops) db 0 0) as [db' [n f]];
       exists db', n, f; split; reflexivity ]).
Qed.

(** X21: the bulk apply endpoint only appends to the versions table,
    and it keeps the version numbers of each app positive and distinct. *)
Theorem apply_operations_keeps_versions (method : string) (accessToken : JSON)
    (user appId : option string) (operationId : option nat) (db : DB) :
  versions_ok (app_versions db) ->
  let db' := fst (apply_operations method accessToken user appId operationId db) in
  versions_ok (app_versions db')
  /\ exists added, app_versions db' = (app_versions db ++ added)%list.
Proof.
  intros Hok. cbv zeta.
  destruct (apply_operations_cases method accessToken user appId operationId db)
    as [[-> _]|(db' & n & f & Hp & ->)].
  - split; [exact Hok | exists []; now rewrite app_nil_r].
  - pose proof (process_operations_versions
                  (pending_app_operations (sent appId) operationId
                                          (app_operations db)) db 0 0 Hok) as H.
    rewrite Hp in H. exact H.
Qed.

Lemma apply_operations_keeps_versions_witness :
  versions_ok
    (app_versions
       (fst (apply_operations "POST" (JStr "token") (Some "user-1")
                              (Some "app-1") None db_theme)))
  /\ exists added,
       app_versions
         (fst (apply_operations "POST" (JStr "token") (Some "user-1")
                                (Some "app-1") None db_theme))
       = (app_versions db_theme ++ added)%list.
Proof.
  apply (apply_operations_keeps_versions "POST" (JStr "token")
           (Some "user-1") (Some "app-1") None db_theme).
  intros a. split; constructor.
Defined.

(** ** Outcome of the bulk apply endpoint *)

Lemma Forall2_map_same {A : Type} (R : A -> A -> Prop) (f : A -> A)
    (l : list A) :
  (forall x, R x (f x)) -> Forall2 R l (map f l).
Proof. intros H. induction l; simpl; constructor; auto. Qed.

Lemma Forall2_trans' {A : Type} (R1 R2 R3 : A -> A -> Prop)
    (l1 l2 l3 : list A) :
  (forall x y z, R1 x y -> R2 y z -> R3 x z) ->
  Forall2 R1 l1 l2 -> Forall2 R2 l2 l3 -> Forall2 R3 l1 l3.
Proof.
  intros H H12. revert l3. induction H12; intros l3 H23; inversion H23; subst;
    constructor; eauto.
Qed.

Lemma process_operation_rows (op : AppOpRow) (db : DB) :
  Forall2 (fun r r' => aop_id r' = aop_id r
                       /\ (aop_id r = aop_id op \/ aop_done r -> aop_done r'))
          (app_operations db)
          (app_operations (fst (process_operation op db))).
Proof.
  assert (Hf : forall m db1,
             app_operations db1 = app_operations db ->
             Forall2 (fun r r' => aop_id r' = aop_id r
                        /\ (aop_id r = aop_id op \/ aop_done r -> aop_done r'))
               (app_operations db)
               (app_operations (mark_app_operation_failed (aop_id op) m db1))).
  { intros m db1 E. unfold mark_app_operation_failed. simpl. rewrite E.
    apply Forall2_map_same. intros r.
    destruct (aop_id r =? aop_id op)%nat eqn:Hid; simpl.
    - split; [reflexivity|]. intros _. right. reflexivity.
    - split; [reflexivity|]. apply Nat.eqb_neq in Hid.
      intros [H|H]; [contradiction | exact H]. }
  unfold process_operation.
  destruct (validateOperations _ _ _) as [m|[|e es]];
    try (apply Hf; reflexivity).
  pose proof (applyOperations_same (aop_app_id op) (aop_operations op) db)
    as (_ & Hops & _).
  destruct (applyOperations _ _ _) as [db1 [m|u]]; simpl in Hops.
  - apply Hf. exact Hops.
  - cbn [fst]. unfold mark_app_operation_applied. simpl.
    assert (E : app_operations
                  (createVersionSnapshot (aop_app_id op) (aop_user_id op)
                     (aop_id op) (sent (aop_chat_message_id op)) db1)
                = app_operations db).
    { unfold createVersionSnapshot. destruct (build_snapshot _ _); exact Hops. }
    rewrite E. apply Forall2_map_same. intros r.
    destruct (aop_id r =? aop_id op)%nat eqn:Hid; simpl.
    + split; [reflexivity|]. intros _. left. reflexivity.
    + split; [reflexivity|]. apply Nat.eqb_neq in Hid.
      intros [H|H]; [contradiction | exact H].
Qed.

Lemma process_operations_rows (ops : list AppOpRow) :
  forall (db : DB) (n f : nat),
    Forall2 (fun r r' => aop_id r' = aop_id r
                         /\ (In (aop_id r) (map aop_id ops) \/ aop_done r ->
                             aop_done r'))
            (app_operations db)
            (app_operations (fst (process_operations ops db n f)))
    /\ fst (snd (process_operations ops db n f))
       + snd (snd (process_operations ops db n f))
       = n + f + length ops.
Proof.
  induction ops as [|op ops IH]; intros db n f; simpl.
  - split; [|lia].
    induction (app_operations db); constructor; auto.
    split; [reflexivity|]. intros [[]|H]; exact H.
  - pose proof (process_operation_rows op db) as H1.
    destruct (process_operation op db) as [db1 [|]]; cbn [fst] in H1.
    + destruct (IH db1 (S n) f) as [H2 Hc]. split; [|lia].
      eapply Forall2_trans'; [|exact H1|exact H2].
      intros x y z [E1 P1] [E2 P2]. split; [congruence|].
      intros [[Hx|Hx]|Hx]; apply P2.
      * right. apply P1. left. congruence.
      * left. now rewrite E1.
      * right. apply P1. now right.
    + destruct (IH db1 n (S f)) as [H2 Hc]. split; [|lia].
      eapply Forall2_trans'; [|exact H1|exact H2].
      intros x y z [E1 P1] [E2 P2]. split; [congruence|].
      intros [[Hx|Hx]|Hx]; apply P2.
      * right. apply P1. left. congruence.
      * left. now rewrite E1.
      * right. apply P1. now right.
Qed.

Lemma Forall2_In_r {A : Type} (R : A -> A -> Prop) (l l' : list A) (y : A) :
  Forall2 R l l' -> In y l' -> exists x, In x l /\ R x y.
Proof.
  induction 1 as [|x0 y0 l l' HR _ IH]; intros Hin; [contradiction|].
  destruct Hin as [<-|Hin].
  - exists x0. split; [now left | exact HR].
  - destruct (IH Hin) as [x [Hx Hr]]. exists x. split; [now right | exact Hr].
Qed.

(** X20: a successful answer of the bulk apply endpoint counts every
    selected operation once, as applied or as failed, and leaves each of
    them in one of these two statuses. *)
Theorem apply_operations_settles_selection (method : string)
    (accessToken : JSON) (user appId : option string)
    (operationId : option nat) (db db' : DB) (code p n f : nat) :
  apply_operations method accessToken user appId operationId db
  = (db', (code, ApOk p n f)) ->
  let selected :=
    pending_app_operations (sent appId) operationId (app_operations db) in
  p = length selected
  /\ n + f = p
  /\ forall row, In row (app_operations db') ->
                 In (aop_id row) (map aop_id selected) ->
                 aop_status row = applied \/ aop_status row = failed.
Proof.
  intros H selected.
  destruct (apply_operations_cases method accessToken user appId operationId db)
    as [[E Hz]|(db1 & n1 & f1 & Hp & E)].
  - rewrite H in E, Hz. cbn [fst snd] in E, Hz. subst db'.
    destruct (Hz p n f eq_refl) as (-> & -> & ->).
    assert (Hsel : selected = []).
    { subst selected. unfold apply_operations in H.
      destruct (negb (method =? "POST")); [discriminate|].
      destruct (negb (truthy accessToken) || negb (is_string accessToken));
        [discriminate|].
      destruct user; [|discriminate].
      destruct (sent appId); destruct operationId; try discriminate;
        (destruct (pending_app_operations _ _ _) as [|o l]; [reflexivity|];
         destruct (process_operations (o :: l) db 0 0) as [d [x y]];
         discriminate). }
    rewrite Hsel. split; [reflexivity|]. split; [reflexivity|].
    intros row _ [].
  - rewrite H in E. injection E as -> _ -> -> ->.
    fold selected in Hp |- *.
    destruct (process_operations_rows selected db 0 0) as [Hrows Hc].
    rewrite Hp in Hrows, Hc. cbn [fst snd] in Hrows, Hc.
    split; [reflexivity|]. split; [lia|].
    intros row Hrow Hid.
    destruct (Forall2_In_r _ _ _ _ Hrows Hrow) as [r [_ [Eid Hd]]].
    apply Hd. left. now rewrite <- Eid.
Qed.

Lemma apply_operations_settles_selection_witness :
  1%nat = length (pending_app_operations (sent (Some "app-1")) None
                                         (app_operations db_theme))
  /\ 1 + 0 = 1
  /\ forall row,
       In row (app_operations
                 (fst (apply_operations "POST" (JStr "token") (Some "user-1")
                                        (Some "app-1") None db_theme))) ->
       In (aop_id row)
          (map aop_id (pending_app_operations (sent (Some "app-1")) None
                                              (app_operations db_theme))) ->
       aop_status row = applied \/ aop_status row = failed.
Proof.
  apply (apply_operations_settles_selection "POST" (JStr "token")
           (Some "user-1") (Some "app-1") None db_theme _ 200 1 1 0).
  reflexivity.
Defined.

(** ** Single config operations *)

Lemma pretty_N_go_not_c (x : N) (s s' : string) :
  s <> String "c" s' -> pretty_N_go x s <> String "c" s'.
Proof.
  revert s. induction (N.lt_wf_0 x) as [x _ IH]; intros s Hs.
  assert (x = 0 \/ 0 < x)%N as [->|Hx] by lia.
  - now rewrite pretty_N_go_0.
  - rewrite pretty_N_go_step by exact Hx. apply IH.
    + now apply N.div_lt.
    + unfold pretty_N_char. repeat case_match; discriminate.
Qed.

Lemma pretty_nat_not_components (i : nat) : pretty i <> "components".
Proof.
  unfold pretty, pretty_nat, pretty, pretty_N.
  destruct (decide (N.of_nat i = 0%N)); [discriminate|].
  apply pretty_N_go_not_c. discriminate.
Qed.

Lemma assoc_imap_none (k : string) (g : nat -> JSON -> string * JSON)
    (xs : list JSON) :
  (forall i x, fst (g i x) <> k) -> assoc k (imap g xs) = None.
Proof.
  revert g. induction xs as [|x xs IH]; intros g Hg; simpl; [reflexivity|].
  destruct (g 0 x) as [k' v] eqn:E.
  destruct (String.eqb_spec k' k) as [->|_].
  - exfalso. apply (Hg 0 x). now rewrite E.
  - apply IH. intros i y. apply Hg.
Qed.

Lemma cfg_select_update (a t k : string) (v : JSON) (db : DB) (row : ConfigRow) :
  cfg_select_single a t k db = Some row ->
  cfg_select_single a t k (cfg_update a t k v db)
  = Some (mkConfigRow (cfg_id row) (cfg_app_id row) (cfg_type row)
                      (cfg_key row) v).
Proof.
  unfold cfg_select_single, cfg_update. simpl.
  assert (H : forall rows,
             List.filter (cfg_match a t k)
               (map (fun r => if cfg_match a t k r
                              then mkConfigRow (cfg_id r) (cfg_app_id r)
                                               (cfg_type r) (cfg_key r) v
                              else r) rows)
             = map (fun r => mkConfigRow (cfg_id r) (cfg_app_id r)
                                         (cfg_type r) (cfg_key r) v)
                   (List.filter (cfg_match a t k) rows)).
  { induction rows as [|r rows IH]; simpl; [reflexivity|].
    destruct (cfg_match a t k r) eqn:Hm; simpl.
    - unfold cfg_match at 1. simpl. fold (cfg_match a t k r). rewrite Hm.
      now rewrite IH.
    - rewrite Hm. exact IH. }
  rewrite H. destruct (List.filter _ _) as [|x [|y l]]; try discriminate.
  now intros [= ->].
Qed.

(** X23: [update_layout] spreads the page slug, a string, into the new
    page value: the stored page becomes the object of the slug's
    characters plus [layout], and its [components] are gone. *)
Theorem update_layout_replaces_page_value (a : string) (operation : JSON)
    (p : string) (db : DB) (row : ConfigRow) :
  prop operation "page" = JStr p ->
  cfg_select_single a "page" p db = Some row ->
  exists row',
    cfg_select_single a "page" p (fst (applyUpdateLayout a operation db))
    = Some row'
    /\ cfg_value row'
       = JObj (obj_set "layout" (prop operation "layout") (indexed (chars p)))
    /\ prop (cfg_value row') "components" = JUndefined.
Proof.
  intros Hp Hrow. unfold applyUpdateLayout. rewrite Hp. cbn [fst to_string spread].
  rewrite (cfg_select_update _ _ _ _ _ _ Hrow).
  eexists. split; [reflexivity|]. split; [reflexivity|].
  cbn [cfg_value]. rewrite prop_obj.
  rewrite assoc_obj_set_neq by discriminate.
  unfold indexed. rewrite assoc_imap_none; [reflexivity|].
  intros i x. simpl. apply pretty_nat_not_components.
Qed.

Lemma update_layout_replaces_page_value_witness :
  exists row',
    cfg_select_single "app-1" "page" "home"
      (fst (applyUpdateLayout "app-1"
              (JObj [("type", JStr "update_layout"); ("page", JStr "home");
                     ("layout", JStr "wide")])
              db_string_components))
    = Some row'
    /\ cfg_value row'
       = JObj [("0", JStr "h"); ("1", JStr "o"); ("2", JStr "m");
               ("3", JStr "e"); ("layout", JStr "wide")]
    /\ prop (cfg_value row') "components" = JUndefined.
Proof.
  apply (update_layout_replaces_page_value "app-1"
           (JObj [("type", JStr "update_layout"); ("page", JStr "home");
                  ("layout", JStr "wide")])
           "home" db_string_components cfg_home); reflexivity.
Defined.

Lemma filter_cfg_none (a t k : string) (rows : list ConfigRow) :
  existsb (cfg_match a t k) rows = false ->
  List.filter (fun r => negb (cfg_match a t k r)) rows = rows.
Proof.
  induction rows as [|r rows IH]; simpl; [reflexivity|].
  destruct (cfg_match a t k r); simpl; [discriminate|].
  intros H. now rewrite IH.
Qed.

(** X24: on a config table without the page, [add_page] stores the
    page under its slug and [remove_page] takes it away again; the table
    is then as before. *)
Theorem remove_page_undoes_add_page (a : string) (add remove : JSON)
    (p : string) (db : DB) :
  prop (prop add "page") "slug" = JStr p ->
  prop remove "page" = JStr p ->
  existsb (cfg_match a "page" p) (app_config db) = false ->
  let db1 := fst (applyAddPage a add db) in
  let db2 := fst (applyRemovePage a remove db1) in
  (exists row, cfg_select_single a "page" p db1 = Some row
               /\ cfg_value row = prop add "page")
  /\ cfg_select_single a "page" p db2 = None
  /\ app_config db2 = app_config db.
Proof.
  intros Hs Hr Hex. cbv zeta.
  unfold applyAddPage, applyRemovePage.
  assert (Hread : read (prop add "page") "slug" = inr (JStr p)).
  { unfold read. destruct (prop add "page"); try discriminate; now rewrite Hs. }
  rewrite Hread, Hr. cbn [fst to_string].
  unfold cfg_insert. rewrite Hex.
  assert (Hm : cfg_match a "page" p
                 (mkConfigRow (next_id db) a "page" p (prop add "page")) = true).
  { unfold cfg_match. simpl. now rewrite !String.eqb_refl. }
  assert (Hnone : List.filter (cfg_match a "page" p) (app_config db) = []).
  { clear -Hex. induction (app_config db) as [|r rows IH]; simpl in *;
      [reflexivity|].
    destruct (cfg_match a "page" p r); [discriminate | now apply IH]. }
  split; [|split].
  - unfold cfg_select_single. simpl. rewrite List.filter_app, Hnone. simpl.
    rewrite Hm. eexists. split; reflexivity.
  - unfold cfg_select_single, cfg_delete. simpl.
    rewrite List.filter_app. simpl. rewrite Hm. simpl.
    rewrite app_nil_r, filter_cfg_none by exact Hex. now rewrite Hnone.
  - unfold cfg_delete. simpl. rewrite List.filter_app. simpl. rewrite Hm. simpl.
    rewrite app_nil_r. now apply filter_cfg_none.
Qed.

Lemma remove_page_undoes_add_page_witness :
  (exists row,
      cfg_select_single "app-1" "page" "about"
        (fst (applyAddPage "app-1"
                (JObj [("type", JStr "add_page");
                       ("page", JObj [("slug", JStr "about")])])
                db_theme)) = Some row
      /\ cfg_value row = JObj [("slug", JStr "about")])
  /\ cfg_select_single "app-1" "page" "about"
       (fst (applyRemovePage "app-1"
               (JObj [("type", JStr "remove_page"); ("page", JStr "about")])
               (fst (applyAddPage "app-1"
                       (JObj [("type", JStr "add_page");
                              ("page", JObj [("slug", JStr "about")])])
                       db_theme)))) = None
  /\ app_config
       (fst (applyRemovePage "app-1"
               (JObj [("type", JStr "remove_page"); ("page", JStr "about")])
               (fst (applyAddPage "app-1"
                       (JObj [("type", JStr "add_page");
                              ("page", JObj [("slug", JStr "about")])])
                       db_theme))))
     = app_config db_theme.
Proof.
  apply (remove_page_undoes_add_page "app-1"
           (JObj [("type", JStr "add_page");
                  ("page", JObj [("slug", JStr "about")])])
           (JObj [("type", JStr "remove_page"); ("page", JStr "about")])
           "about" db_theme); reflexivity.
Defined.

(** ** The bulk step runner *)

Lemma run_steps_spec (a : string) (steps : list JSON) :
  forall (i : nat) (db : DB) (errs : list Msg),
    Forall (fun step => step <> JNull /\ step <> JUndefined) steps ->
    app_spec (fst (run_steps a steps i db errs))
    = handlers_in_sequence (clock db) a steps (app_spec db)
    /\ exists errs', snd (run_steps a steps i db errs) = inr errs'.
Proof.
  induction steps as [|step steps IH]; intros i db errs Hs; simpl.
  - split; [reflexivity | eauto].
  - inversion Hs as [|x l [Hn Hu] Hrest]; subst.
    assert (Hr : read step "type" = inr (prop step "type"))
      by (destruct step; try reflexivity; contradiction).
    rewrite Hr. destruct (truthy (prop step "type")); cbn [negb].
    + destruct (executeStepHandler (clock db) a step None None (app_spec db))
        as [tbl [d|e]]; cbn [fst];
      match goal with
      | |- context [run_steps a steps (S i) ?d ?e] =>
          destruct (IH (S i) d e Hrest) as [E Hx]
      end; rewrite E; split; [reflexivity | exact Hx | reflexivity | exact Hx].
    + apply IH. exact Hrest.
Qed.

(** X25: the bulk step runner runs every step of an operation, also
    after a step has failed: the spec table it leaves is the one that the
    handlers of all typed steps produce in sequence. *)
Theorem bulk_runner_runs_every_step (a : string) (operation : OpRow)
    (steps : list JSON) (db : DB) :
  op_operations operation = JArr steps ->
  Forall (fun step => step <> JNull /\ step <> JUndefined) steps ->
  app_spec (fst (run_operation a operation db))
  = handlers_in_sequence (clock db) a steps (app_spec db).
Proof.
  intros Hops Hs. unfold run_operation. rewrite Hops.
  destruct steps as [|s ss]; [reflexivity|].
  destruct (run_steps_spec a (s :: ss) 0
              (mark_operation_processing (op_id operation) db) [] Hs)
    as [E _].
  destruct (run_steps a (s :: ss) 0 _ []) as [db1 [m|[|e es]]];
    cbn [fst] in E |- *; exact E.
Qed.

Lemma bulk_runner_runs_every_step_witness :
  app_spec (fst (run_operation "app-1" op_orders db_orders))
  = handlers_in_sequence (clock db_orders) "app-1"
      [JObj [("type", JStr "create_page"); ("slug", JStr "orders");
             ("title", JStr "Orders")];
       JObj [("type", JStr "create_model"); ("name", JStr "Order");
             ("fields", JArr [JObj [("name", JStr "total");
                                    ("type", JStr "number")]])]]
      (app_spec db_orders).
Proof.
  apply (bulk_runner_runs_every_step "app-1" op_orders _ db_orders).
  - reflexivity.
  - repeat constructor; discriminate.
Defined.

Lemma op_done_set (id : nat) (st : Status) (e : option Msg) (t : option Z)
    (r : OpRow) :
  st = applied \/ st = failed ->
  op_id (set_operation id st e t r) = op_id r
  /\ (op_id r = id \/ op_done r -> op_done (set_operation id st e t r)).
Proof.
  intros Hst. unfold set_operation.
  destruct (op_id r =? id)%nat eqn:E; simpl.
  - split; [reflexivity|]. intros _. exact Hst.
  - split; [reflexivity|]. apply Nat.eqb_neq in E.
    intros [H|H]; [contradiction | exact H].
Qed.

Lemma run_steps_log (a : string) (steps : list JSON) (i : nat) (db : DB)
    (errs : list Msg) :
  operations_log (fst (run_steps a steps i db errs)) = operations_log db.
Proof. apply (run_steps_other_tables a steps i db errs). Qed.

Lemma run_operation_rows (a : string) (op : OpRow) (db : DB) :
  Forall2 (fun r r' => op_id r' = op_id r
                       /\ (op_id r = op_id op \/ op_done r -> op_done r'))
          (operations_log db)
          (operations_log (fst (run_operation a op db)))
  /\ rr_operationId (snd (run_operation a op db)) = op_id op.
Proof.
  assert (Hf : forall m db1,
             operations_log db1
             = operations_log (mark_operation_processing (op_id op) db) ->
             Forall2 (fun r r' => op_id r' = op_id r
                        /\ (op_id r = op_id op \/ op_done r -> op_done r'))
               (operations_log db)
               (operations_log (mark_operation_failed (op_id op) m db1))).
  { intros m db1 E. unfold mark_operation_failed. simpl. rewrite E.
    unfold mark_operation_processing. simpl. rewrite map_map.
    apply Forall2_map_same. intros r. unfold set_operation.
    destruct (op_id r =? op_id op)%nat eqn:Hid; simpl; rewrite ?Hid; simpl.
    - split; [reflexivity|]. intros _. now right.
    - split; [reflexivity|]. apply Nat.eqb_neq in Hid.
      intros [H|H]; [contradiction | exact H]. }
  assert (Ha : forall db1,
             operations_log db1
             = operations_log (mark_operation_processing (op_id op) db) ->
             Forall2 (fun r r' => op_id r' = op_id r
                        /\ (op_id r = op_id op \/ op_done r -> op_done r'))
               (operations_log db)
               (operations_log (mark_operation_applied (op_id op) db1))).
  { intros db1 E. unfold mark_operation_applied. simpl. rewrite E.
    unfold mark_operation_processing. simpl. rewrite map_map.
    apply Forall2_map_same. intros r. unfold set_operation.
    destruct (op_id r =? op_id op)%nat eqn:Hid; simpl; rewrite ?Hid; simpl.
    - split; [reflexivity|]. intros _. now left.
    - split; [reflexivity|]. apply Nat.eqb_neq in Hid.
      intros [H|H]; [contradiction | exact H]. }
  unfold run_operation.
  destruct (op_operations op) as [| | | | |[|s ss]|];
    try (split; [apply Hf; reflexivity | reflexivity]).
  pose proof (run_steps_log a (s :: ss) 0
                (mark_operation_processing (op_id op) db) []) as Hlog.
  destruct (run_steps a (s :: ss) 0 _ []) as [db1 [m|[|e es]]];
    cbn [fst snd] in Hlog |- *;
    (split; [first [apply Hf; exact Hlog | apply Ha; exact Hlog] | reflexivity]).
Qed.

Lemma run_operations_rows (a : string) (ops : list OpRow) :
  forall (db : DB) (n f : nat) (rs : list RunResult),
    let r := run_operations a ops db n f rs in
    Forall2 (fun r r' => op_id r' = op_id r
                         /\ (In (op_id r) (map op_id ops) \/ op_done r ->
                             op_done r'))
            (operations_log db) (operations_log (fst r))
    /\ fst (fst (snd r)) + snd (fst (snd r)) = n + f + length ops
    /\ map rr_operationId (snd (snd r))
       = (map rr_operationId rs ++ map op_id ops)%list.
Proof.
  induction ops as [|op ops IH]; intros db n f rs; cbv zeta; simpl.
  - split; [|split; [lia | now rewrite app_nil_r]].
    induction (operations_log db); constructor; auto.
    split; [reflexivity|]. intros [[]|H]; exact H.
  - pose proof (run_operation_rows a op db) as [H1 Hid].
    destruct (run_operation a op db) as [db1 res]; cbn [fst snd] in H1, Hid.
    assert (Hstep : forall n' f',
               n' + f' = S (n + f) ->
               let r := run_operations a ops db1 n' f' (rs ++ [res])%list in
               Forall2 (fun r r' => op_id r' = op_id r
                          /\ (In (op_id r) (op_id op :: map op_id ops)
                              \/ op_done r -> op_done r'))
                 (operations_log db) (operations_log (fst r))
               /\ fst (fst (snd r)) + snd (fst (snd r))
                  = n + f + S (length ops)
               /\ map rr_operationId (snd (snd r))
                  = (map rr_operationId rs ++ op_id op :: map op_id ops)%list).
    { intros n' f' Hnf. cbv zeta.
      destruct (IH db1 n' f' (rs ++ [res])%list) as (H2 & Hc & Hr).
      split; [|split; [lia|]].
      - eapply Forall2_trans'; [|exact H1|exact H2].
        intros x y z [E1 P1] [E2 P2]. split; [congruence|].
        intros [[Hx|Hx]|Hx]; apply P2.
        + right. apply P1. left. congruence.
        + left. now rewrite E1.
        + right. apply P1. now right.
      - rewrite Hr, map_app. simpl. rewrite Hid. now rewrite <- app_assoc. }
    destruct (rr_success res); apply Hstep; lia.
Qed.

(** X26: a successful answer of the bulk step runner reports the
    pending operations of the app in order, counts each once, and leaves
    each of them applied or failed. *)
Theorem run_app_settles_selection (method : string) (appId : JSON)
    (db db' : DB) (code p n f : nat) (results : list RunResult) :
  run_app method appId db = (db', (code, RunOk p n f results)) ->
  let selected :=
    pending_operations (Some (to_string appId)) None (operations_log db) in
  p = length selected
  /\ n + f = p
  /\ map rr_operationId results = map op_id selected
  /\ forall row, In row (operations_log db') ->
                 In (op_id row) (map op_id selected) ->
                 op_status row = applied \/ op_status row = failed.
Proof.
  intros H selected. unfold run_app in H.
  destruct (negb (method =? "POST")); [discriminate|].
  destruct (negb (truthy appId) || negb (is_string appId)); [discriminate|].
  destruct (lookup_app (to_string appId) db); [|discriminate].
  fold selected in H.
  destruct selected as [|op ops] eqn:Hsel.
  - injection H as <- _ <- <- <- <-. repeat split; try reflexivity.
    intros row _ [].
  - pose proof (run_operations_rows (to_string appId) (op :: ops) db 0 0 [])
      as Hr. cbv zeta in Hr.
    destruct (run_operations (to_string appId) (op :: ops) db 0 0 [])
      as [db1 [[n1 f1] rs]]. cbn [fst snd] in Hr.
    injection H as <- _ <- <- <- <-.
    destruct Hr as (Hrows & Hc & Hres).
    split; [reflexivity|]. split; [simpl in *; lia|]. split; [exact Hres|].
    intros row Hrow Hid.
    destruct (Forall2_In_r _ _ _ _ Hrows Hrow) as [r [_ [Eid Hd]]].
    apply Hd. left. now rewrite <- Eid.
Qed.

Lemma run_app_settles_selection_witness :
  1%nat = length (pending_operations (Some "app-1") None
                                     (operations_log db_orders))
  /\ 1 + 0 = 1
  /\ [10%nat] = map op_id (pending_operations (Some "app-1") None
                                              (operations_log db_orders))
  /\ forall row,
       In row (operations_log (fst (run_app "POST" (JStr "app-1") db_orders))) ->
       In (op_id row)
          (map op_id (pending_operations (Some "app-1") None
                                         (operations_log db_orders))) ->
       op_status row = applied \/ op_status row = failed.
Proof.
  apply (run_app_settles_selection "POST" (JStr "app-1") db_orders _ 200 1 1 0
           [mkRunResult 10 true None]).
  reflexivity.
Defined.

(** ** The app config loader *)

Lemma load_row_pages (id : string) (row : SpecRow)
    (config c : list (string * JSON)) (ps : list JSON) :
  assoc "pages" config = Some (JArr ps) ->
  load_row id row config = inr c ->
  assoc "pages" c
  = Some (JArr (ps ++ (if is_page_row (id, row) then [page_of (id, row)]
                       else []))%list).
Proof.
  intros Hp. unfold load_row, is_page_row. cbn [snd fst].
  assert (Hpush : assoc "pages" (push_page id row config)
                  = Some (JArr (ps ++ [page_of (id, row)])%list)).
  { unfold push_page. rewrite Hp. now rewrite assoc_obj_set_eq. }
  assert (Hnest : forall k, k <> "pages" ->
                            assoc "pages" (set_nested k row config)
                            = Some (JArr (ps ++ [])%list)).
  { intros k Hk. unfold set_nested.
    rewrite assoc_obj_set_neq by congruence. now rewrite app_nil_r. }
  destruct (config_type row =? "ui"); [intros [= <-]; exact Hpush|].
  destruct (config_type row =? "page"); [intros [= <-]; exact Hpush|].
  cbn [orb].
  destruct (config_type row =? "architecture");
    [intros [= <-]; now apply Hnest|].
  destruct (config_type row =? "data_model");
    [intros [= <-]; now apply Hnest|].
  destruct (config_type row =? "schema").
  { destruct (read (config_value row) "theme") as [m|theme]; [discriminate|].
    intros [= <-]. rewrite app_nil_r.
    destruct (truthy theme); rewrite !assoc_obj_set_neq by discriminate;
      exact Hp. }
  destruct (config_type row =? "permissions").
  { intros [= <-]. rewrite app_nil_r. now rewrite assoc_obj_set_neq. }
  destruct (config_type row =? "layout"); [intros [= <-]; now apply Hnest|].
  destruct (config_type row =? "component");
    [intros [= <-]; now apply Hnest|].
  intros [= <-]. now rewrite app_nil_r.
Qed.

Lemma load_rows_pages (rows : list (string * SpecRow)) :
  forall (config c : list (string * JSON)) (ps : list JSON),
    assoc "pages" config = Some (JArr ps) ->
    load_rows rows config = inr c ->
    assoc "pages" c
    = Some (JArr (ps ++ map page_of (List.filter is_page_row rows))%list).
Proof.
  induction rows as [|[id row] rows IH]; intros config c ps Hp; simpl.
  - intros [= <-]. now rewrite app_nil_r.
  - destruct (load_row id row config) as [m|c1] eqn:E; [discriminate|].
    intros H. pose proof (load_row_pages id row config c1 ps Hp E) as H1.
    rewrite (IH c1 c _ H1 H).
    destruct (is_page_row (id, row)); simpl; now rewrite <- app_assoc.
Qed.

Lemma page_of_slug (r : string * SpecRow) :
  prop (page_of r) "slug" = JStr (config_key (snd r)).
Proof. unfold page_of. now rewrite prop_obj, assoc_obj_set_eq. Qed.

Lemma getAppConfig_pages (a : string) (table : list (string * SpecRow))
    (config : list (string * JSON)) :
  getAppConfig a table = JObj config ->
  prop (JObj config) "pages"
  = JArr (map page_of (List.filter is_page_row (rows_of_app a table))).
Proof.
  intros H.
  unfold getAppConfig in H. fold (rows_of_app a table) in H.
  destruct (rows_of_app a table) as [|r rows] eqn:Er.
  - injection H as <-. reflexivity.
  - destruct (load_rows (r :: rows) _) as [m|c] eqn:E; [discriminate|].
    injection H as <-.
    rewrite prop_obj.
    now rewrite (load_rows_pages (r :: rows)
                   [("pages", JArr []); ("dataModels", JObj [])] c []
                   eq_refl E).
Qed.

(** X27: when the loader returns a config, its pages are the app's
    [ui] and [page] rows in storage order, and the slug of each page is
    the key of its row. *)
Theorem loader_pages_are_ui_rows (a : string) (table : list (string * SpecRow))
    (config : list (string * JSON)) :
  getAppConfig a table = JObj config ->
  prop (JObj config) "pages"
  = JArr (map page_of (List.filter is_page_row (rows_of_app a table)))
  /\ Forall (fun r => prop (page_of r) "slug" = JStr (config_key (snd r)))
            (List.filter is_page_row (rows_of_app a table)).
Proof.
  intros H. split; [now apply getAppConfig_pages|].
  apply List.Forall_forall. intros r _. apply page_of_slug.
Qed.

Lemma loader_pages_are_ui_rows_witness :
  prop (getAppConfig "app-1" [("row-1", row_home)]) "pages"
  = JArr (map page_of
              (List.filter is_page_row
                           (rows_of_app "app-1" [("row-1", row_home)])))
  /\ Forall (fun r => prop (page_of r) "slug" = JStr (config_key (snd r)))
            (List.filter is_page_row
                         (rows_of_app "app-1" [("row-1", row_home)])).
Proof.
  apply (loader_pages_are_ui_rows "app-1" [("row-1", row_home)]
           [("pages",
             JArr [JObj [("id", JStr "row-1"); ("slug", JStr "home");
                         ("title", JStr "Home");
                         ("components", JStr "header")]]);
            ("dataModels", JObj [])]).
  reflexivity.
Defined.

Lemma load_rows_null_schema (rows : list (string * SpecRow)) (id : string)
    (row : SpecRow) :
  In (id, row) rows -> config_type row = "schema" -> config_value row = JNull ->
  forall config, exists m, load_rows rows config = inl m.
Proof.
  intros Hin Ht Hv. induction rows as [|[id0 row0] rows IH]; [contradiction|].
  intros config. simpl.
  destruct Hin as [[= -> ->]|Hin].
  - unfold load_row. rewrite Ht, Hv. simpl. eauto.
  - destruct (load_row id0 row0 config) as [m|c]; [eauto|]. now apply IH.
Qed.

(** X29: one [schema] row whose value is [null] makes the loader
    return [null] for the whole app. *)
Theorem loader_null_schema_gives_null (a : string)
    (table : list (string * SpecRow)) (id : string) (row : SpecRow) :
  In (id, row) table ->
  spec_app_id row = a ->
  config_type row = "schema" ->
  config_value row = JNull ->
  getAppConfig a table = JNull.
Proof.
  intros Hin Ha Ht Hv. unfold getAppConfig.
  assert (Hin' : In (id, row) (List.filter (fun r => spec_app_id (snd r) =? a)
                                           table)).
  { apply filter_In. split; [exact Hin|]. simpl. now rewrite Ha, String.eqb_refl. }
  destruct (List.filter _ table) as [|r rows] eqn:E; [contradiction|].
  destruct (load_rows_null_schema (r :: rows) id row Hin' Ht Hv
              [("pages", JArr []); ("dataModels", JObj [])]) as [m ->].
  reflexivity.
Qed.

Lemma loader_null_schema_gives_null_witness :
  getAppConfig "app-1"
    [("row-1", row_home);
     ("row-2", mkSpecRow "app-1" "schema" "main" JNull None None)]
  = JNull.
Proof.
  apply (loader_null_schema_gives_null "app-1" _ "row-2"
           (mkSpecRow "app-1" "schema" "main" JNull None None)).
  - simpl. tauto.
  - reflexivity.
  - reflexivity.
  - reflexivity.
Defined.

Lemma no_version_above (a : string) (n : Z) (rows : list VersionRow) :
  (forall x, In x (versions_of a rows) -> (x < n)%Z) ->
  List.filter (fun r => (ver_app_id r =? a) && (version_number r =? n)%Z) rows
  = [].
Proof.
  unfold versions_of. induction rows as [|r rows IH]; simpl; [reflexivity|].
  intros Hlt. destruct (ver_app_id r =? a) eqn:Ea; simpl in *.
  - destruct (Z.eqb_spec (version_number r) n) as [En|_].
    + specialize (Hlt _ (or_introl eq_refl)). lia.
    + apply IH. intros x Hx. apply Hlt. now right.
  - apply IH. exact Hlt.
Qed.

(** X22: the snapshot that [createVersionSnapshot] records is what
    [getAppConfigAtVersion] returns for the new version number, and every
    other version reads as before. *)
Theorem snapshot_is_loadable (a : string) (u : option string) (o : nat)
    (c : option string) (db : DB) (snap : JSON) :
  build_snapshot a db = inr snap ->
  let n := next_version_number a (app_versions db) in
  let db' := createVersionSnapshot a u o c db in
  getAppConfigAtVersion a n (app_versions db') = snap
  /\ forall a' n',
       (a', n') <> (a, n) ->
       getAppConfigAtVersion a' n' (app_versions db')
       = getAppConfigAtVersion a' n' (app_versions db).
Proof.
  intros Hs n db'. subst db'. unfold createVersionSnapshot. rewrite Hs.
  fold n. cbn [app_versions with_versions]. unfold getAppConfigAtVersion.
  split.
  - rewrite List.filter_app. cbn [List.filter ver_app_id version_number].
    rewrite String.eqb_refl, Z.eqb_refl. cbn [andb].
    assert (Hnone : List.filter
                      (fun r => (ver_app_id r =? a) && (version_number r =? n)%Z)
                      (app_versions db) = []).
    { apply no_version_above.
      apply (next_version_number_above a (app_versions db)). }
    rewrite Hnone. reflexivity.
  - intros a' n' Hne. rewrite List.filter_app.
    cbn [List.filter ver_app_id version_number].
    destruct (String.eqb_spec a a') as [<-|Ha]; cbn [andb].
    + destruct (Z.eqb_spec n n') as [<-|Hn]; [congruence|].
      now rewrite app_nil_r.
    + now rewrite app_nil_r.
Qed.

Lemma snapshot_is_loadable_witness :
  getAppConfigAtVersion "app-1" 1
    (app_versions (createVersionSnapshot "app-1" (Some "user-1") 30 None
                                         db_string_components))
  = JObj [("pages",
           JArr [JObj [("id", JNum 1); ("title", JStr "Home");
                       ("components", JStr "header");
                       ("slug", JStr "home")]]);
          ("dataModels", JObj []);
          ("components", JObj [("Card", JObj [("type", JStr "Card")])])]
  /\ forall a' n',
       (a', n') <> ("app-1", 1%Z) ->
       getAppConfigAtVersion a' n'
         (app_versions (createVersionSnapshot "app-1" (Some "user-1") 30 None
                                              db_string_components))
       = getAppConfigAtVersion a' n' (app_versions db_string_components).
Proof.
  apply (snapshot_is_loadable "app-1" (Some "user-1") 30 None
           db_string_components).
  reflexivity.
Defined.

Lemma In_upsert (a t k : string) (v : JSON) (u b : option string)
    (tbl : list SpecRow) :
  exists row, In row (spec_upsert a t k v u b tbl)
              /\ spec_key row = (a, t, k) /\ config_value row = v.
Proof.
  unfold spec_upsert. destruct (existsb (spec_match a t k) tbl) eqn:E.
  - apply existsb_exists in E as [r [Hr Hm]].
    eexists. split.
    + apply in_map_iff. exists r. split; [|exact Hr]. rewrite Hm. reflexivity.
    + split; reflexivity.
  - eexists. split; [apply in_or_app; right; now left|]. split; reflexivity.
Qed.

Lemma in_combine_exists {A B : Type} (xs : list A) (ys : list B) (y : B) :
  length xs = length ys -> In y ys -> exists x, In (x, y) (combine xs ys).
Proof.
  revert xs. induction ys as [|y0 ys IH]; intros xs Hl Hin; [contradiction|].
  destruct xs as [|x xs]; [discriminate|]. simpl in Hl. injection Hl as Hl.
  destruct Hin as [->|Hin].
  - exists x. now left.
  - destruct (IH xs Hl Hin) as [x' Hx]. exists x'. now right.
Qed.

(** X28: a component that [create_component] has stored is listed by
    the loader among the pages of the app, under its name as slug. *)
Theorem created_component_is_listed_as_page (now : Z) (a : string)
    (fs : list (string * JSON)) (cn : string) (brid uid : option string)
    (tbl : list SpecRow) (ids : list string) (config : list (string * JSON)) :
  let step := JObj fs in
  let componentType := js_or (prop step "componentType") (JStr "Component") in
  let tbl' := fst (handleCreateComponent now a step brid uid tbl) in
  js_or (prop step "name") (prop step "target") = JStr cn ->
  cn <> "" ->
  is_string componentType = true ->
  truthy (prop step "pageSlug") = false ->
  length ids = length tbl' ->
  getAppConfig a (combine ids tbl') = JObj config ->
  exists pages page,
    prop (JObj config) "pages" = JArr pages
    /\ In page pages
    /\ prop page "slug" = JStr cn
    /\ prop page "name" = JStr cn
    /\ prop page "type" = componentType.
Proof.
  intros step componentType tbl' Hn Hne Hty Hps Hlen Hcfg.
  assert (Htbl : exists vfs,
             tbl' = spec_upsert a "ui" cn (JObj vfs) uid brid tbl
             /\ forall id,
                  assoc "name" (obj_assign [("id", JStr id)] vfs)
                  = Some (JStr cn)
                  /\ assoc "type" (obj_assign [("id", JStr id)] vfs)
                     = Some componentType).
  { subst tbl'. unfold handleCreateComponent, try_catch. subst step.
    run. rewrite Hn, (truthy_str cn Hne). cbn [negb]. run.
    fold componentType. rewrite Hty. cbn [negb]. run. rewrite Hps. run.
    cbn [fst]. eexists. split; [reflexivity|].
    rewrite !obj_assign_spread_if.
    destruct (truthy (prop (JObj fs) "props")),
             (truthy (prop (JObj fs) "metadata")),
             (truthy (prop (JObj fs) "details"));
      intros id; split; reflexivity. }
  destruct Htbl as (vfs & Etbl & Hv).
  destruct (In_upsert a "ui" cn (JObj vfs) uid brid tbl)
    as (row & Hrow & Hkey & Hval).
  rewrite <- Etbl in Hrow.
  destruct (in_combine_exists ids tbl' row Hlen Hrow) as [id Hid].
  injection Hkey as Ha Ht Hk.
  exists (map page_of (List.filter is_page_row (rows_of_app a (combine ids tbl')))),
         (page_of (id, row)).
  split; [now apply getAppConfig_pages|]. split.
  - apply in_map. apply filter_In. split.
    + apply filter_In. split; [exact Hid|]. simpl. now rewrite Ha, String.eqb_refl.
    + unfold is_page_row. simpl. now rewrite Ht.
  - split; [rewrite page_of_slug; simpl; now rewrite Hk|].
    unfold page_of. cbn [fst snd]. rewrite Hval. cbn [spread].
    rewrite !prop_obj.
    rewrite !(assoc_obj_set_neq _ "slug") by discriminate.
    destruct (Hv id) as [-> ->]. auto.
Qed.

Lemma created_component_is_listed_as_page_witness :
  exists pages page,
    prop (getAppConfig "app-1"
            (combine ["row-1"; "row-2"]
               (fst (handleCreateComponent 5 "app-1"
                       (JObj [("type", JStr "create_component");
                              ("name", JStr "hero")])
                       None (Some "user-1") tbl_home))))
         "pages" = JArr pages
    /\ In page pages
    /\ prop page "slug" = JStr "hero"
    /\ prop page "name" = JStr "hero"
    /\ prop page "type" = JStr "Component".
Proof.
  apply (created_component_is_listed_as_page 5 "app-1"
           [("type", JStr "create_component"); ("name", JStr "hero")]
           "hero" None (Some "user-1") tbl_home ["row-1"; "row-2"]
           [("pages",
             JArr [JObj [("id", JStr "row-1"); ("slug", JStr "home");
                         ("title", JStr "Home");
                         ("components", JStr "header")];
                   JObj [("id", JStr "row-2"); ("name", JStr "hero");
                         ("type", JStr "Component");
                         ("slug", JStr "hero")]]);
            ("dataModels", JObj [])]);
    first [reflexivity | discriminate].
Defined.

(** ** The earlier run-one-step handler *)

Lemma legacy_executeStep_known (step : LegacyStep) :
  legacy_executeStep step
  = if known_step_type (ls_step_type step) then inr tt
    else inl [Txt ("Unknown step type: " ++ ls_step_type step)].
Proof.
  unfold legacy_executeStep, known_step_type. cbn [existsb].
  repeat match goal with
         | |- context [?a =? ?b] => destruct (a =? b); cbn [orb]; try reflexivity
         end.
Qed.

(** X30: the earlier handler records the outcome on the step: a step
    of a known type ends applied with its error cleared, any other ends
    failed with the message of the unknown type; both set [completed_at],
    and the other rows are kept. *)
Theorem legacy_run_step_records_outcome (v : JSON) (started completed : Z)
    (steps : list LegacyStep) (step : LegacyStep) :
  truthy v = true ->
  legacy_next (to_string v) steps = Some step ->
  let steps' := fst (legacy_run_step v started completed steps) in
  let response := snd (legacy_run_step v started completed steps) in
  length steps' = length steps
  /\ (forall r, In r steps -> ls_id r <> ls_id step -> In r steps')
  /\ if known_step_type (ls_step_type step) then
       response = LApplied step
       /\ forall r, In r steps' -> ls_id r = ls_id step ->
                    ls_status r = applied /\ ls_error_message r = None
                    /\ ls_completed_at r = Some completed
     else
       response
       = LError 500 [Txt "Step execution failed: ";
                     Txt ("Unknown step type: " ++ ls_step_type step)]
       /\ forall r, In r steps' -> ls_id r = ls_id step ->
                    ls_status r = failed
                    /\ ls_error_message r
                       = Some [Txt ("Unknown step type: " ++ ls_step_type step)]
                    /\ ls_completed_at r = Some completed.
Proof.
  intros Hv Hn. cbv zeta. unfold legacy_run_step. rewrite Hv, Hn.
  cbn [negb]. rewrite legacy_executeStep_known.
  destruct (known_step_type (ls_step_type step)); cbn [fst snd];
    rewrite !length_map; (split; [reflexivity|]); split.
  - intros r Hr Hid. apply in_map_iff.
    exists (legacy_mark_processing (ls_id step) started r). split.
    + unfold legacy_mark_applied, legacy_mark_processing.
      apply Nat.eqb_neq in Hid. rewrite Hid. now rewrite Hid.
    + apply in_map. exact Hr.
  - split; [reflexivity|]. intros r Hr Hid.
    apply in_map_iff in Hr as [r1 [<- Hr1]].
    unfold legacy_mark_applied in *.
    destruct (ls_id r1 =? ls_id step)%nat eqn:E; [auto|].
    apply Nat.eqb_neq in E. contradiction.
  - intros r Hr Hid. apply in_map_iff.
    exists (legacy_mark_processing (ls_id step) started r). split.
    + unfold legacy_mark_failed, legacy_mark_processing.
      apply Nat.eqb_neq in Hid. rewrite Hid. now rewrite Hid.
    + apply in_map. exact Hr.
  - split; [reflexivity|]. intros r Hr Hid.
    apply in_map_iff in Hr as [r1 [<- Hr1]].
    unfold legacy_mark_failed in *.
    destruct (ls_id r1 =? ls_id step)%nat eqn:E; [auto|].
    apply Nat.eqb_neq in E. contradiction.
Qed.

Lemma legacy_run_step_records_outcome_witness :
  length (fst (legacy_run_step (JStr "app-1") 8 9 [legacy_widget])) = 1%nat
  /\ (forall r, In r [legacy_widget] -> ls_id r <> 1%nat ->
                In r (fst (legacy_run_step (JStr "app-1") 8 9 [legacy_widget])))
  /\ snd (legacy_run_step (JStr "app-1") 8 9 [legacy_widget])
     = LError 500 [Txt "Step execution failed: ";
                   Txt "Unknown step type: create_widget"]
     /\ forall r,
          In r (fst (legacy_run_step (JStr "app-1") 8 9 [legacy_widget])) ->
          ls_id r = 1%nat ->
          ls_status r = failed
          /\ ls_error_message r = Some [Txt "Unknown step type: create_widget"]
          /\ ls_completed_at r = Some 9%Z.
Proof.
  apply (legacy_run_step_records_outcome (JStr "app-1") 8 9 [legacy_widget]
           legacy_widget); reflexivity.
Defined.
